(** * The from-scratch tokenizers of [custom-tokenizer.js]

    A shallow embedding of the three tokenizer classes
    ([CharacterTokenizer], [WordTokenizer], [SimpleBPETokenizer]) together
    with the fragment of the JavaScript runtime they rely on: strings as
    sequences of UTF-16 code units, ordinary objects used as dictionaries
    (own properties in [OrdinaryOwnPropertyKeys] order, lookups falling
    through to [Object.prototype]), insertion-ordered [Set] and [Map],
    the [||] and [+] operators, stable [Array.prototype.sort], and
    [new RegExp(first + second, 'g')] with [String.prototype.replace]. *)

From Stdlib Require Import List ZArith NArith Lia Bool Ascii String.
From Stdlib Require Import DecimalString DecimalZ Permutation Sorted.
Import ListNotations.

Local Open Scope Z_scope.

(* ================================================================== *)
(** ** JavaScript values                                                *)
(* ================================================================== *)

Module JS.

(** A string is a sequence of UTF-16 code units. *)
Definition jsstring := list N.

(** ASCII literals of the source text, as code units. *)
Definition str (s : string) : jsstring :=
  map N_of_ascii (list_ascii_of_string s).

Fixpoint str_eqb (a b : jsstring) : bool :=
  match a, b with
  | [], [] => true
  | x :: a', y :: b' => N.eqb x y && str_eqb a' b'
  | _, _ => false
  end.

(** [for (const char of text)] and [[...text]]: iteration by code point.
    A high surrogate followed by a low surrogate is one element; every
    other code unit (a lone surrogate too) is an element of its own. *)
Definition is_high_surrogate (c : N) : bool :=
  (N.leb 55296 c && N.leb c 56319)%N.
Definition is_low_surrogate (c : N) : bool :=
  (N.leb 56320 c && N.leb c 57343)%N.

Fixpoint code_points (s : jsstring) : list jsstring :=
  match s with
  | [] => []
  | c :: s' =>
      match s' with
      | d :: s'' =>
          if is_high_surrogate c && is_low_surrogate d
          then [c; d] :: code_points s''
          else [c] :: code_points s'
      | [] => [[c]]
      end
  end.

(** The values that flow through the tokenizers.  Numbers are the
    integers the code counts with (ids, frequencies); [VBuiltin name] is
    the function object inherited from [Object.prototype] under [name];
    [VProto] is [Object.prototype] itself (what the [__proto__] getter
    returns). *)
Inductive jsval :=
| VUndef
| VNum (n : Z)
| VStr (s : jsstring)
| VBuiltin (name : jsstring)
| VProto
| VNaN.

(** ToBoolean. *)
Definition truthy (v : jsval) : bool :=
  match v with
  | VUndef => false
  | VNum n => negb (Z.eqb n 0)
  | VStr s => match s with [] => false | _ => true end
  | VBuiltin _ => true
  | VProto => true
  | VNaN => false
  end.

(** [a || b]. *)
Definition js_or (a b : jsval) : jsval := if truthy a then a else b.

(** Number::toString for the integers of this program: the decimal
    digits, after a minus sign for a negative number. *)
Definition num_to_string (n : Z) : jsstring :=
  str (NilEmpty.string_of_int (Z.to_int n)).

(** The name a built-in function reports in its source text. *)
Definition builtin_function_name (name : jsstring) : jsstring :=
  if str_eqb name (str "constructor") then str "Object" else name.

(** ToString. *)
Definition to_string (v : jsval) : jsstring :=
  match v with
  | VUndef => str "undefined"
  | VNum n => num_to_string n
  | VStr s => s
  | VBuiltin name =>
      str "function " ++ builtin_function_name name ++ str "() { [native code] }"
  | VProto => str "[object Object]"
  | VNaN => str "NaN"
  end.

(** [a + b]: when either operand is a string, or an object (whose
    primitive is its string conversion), the concatenation of the two
    string conversions; otherwise numeric addition, NaN as soon as one
    operand is [undefined] or NaN. *)
Definition has_string_primitive (v : jsval) : bool :=
  match v with
  | VStr _ | VBuiltin _ | VProto => true
  | VUndef | VNum _ | VNaN => false
  end.

Definition js_add (a b : jsval) : jsval :=
  if has_string_primitive a || has_string_primitive b
  then VStr (to_string a ++ to_string b)
  else match a, b with
       | VNum x, VNum y => VNum (x + y)
       | _, _ => VNaN
       end.

(** ToNumber, [None] standing for NaN.  The only strings the program
    subtracts are the texts produced by [js_add] from a function or an
    object, none of which is a numeric literal. *)
Definition to_number (v : jsval) : option Z :=
  match v with
  | VNum n => Some n
  | _ => None
  end.

(** [a - b]; NaN when either operand is. *)
Definition js_sub (a b : jsval) : option Z :=
  match to_number a, to_number b with
  | Some x, Some y => Some (x - y)
  | _, _ => None
  end.

(* ------------------------------------------------------------------ *)
(** *** Ordinary objects used as dictionaries                           *)
(* ------------------------------------------------------------------ *)

(** Own enumerable string-keyed properties, listed in the order of
    [Object.keys]/[Object.entries]: array-index keys in ascending
    numeric order first, then the other keys in creation order. *)
Definition obj := list (jsstring * jsval).

Definition is_digit (c : N) : bool := (N.leb 48 c && N.leb c 57)%N.

Fixpoint digits_value (s : jsstring) (acc : N) : N :=
  match s with
  | [] => acc
  | c :: s' => digits_value s' (10 * acc + (c - 48))%N
  end.

(** A key is an array index when it is the canonical decimal text of an
    integer in [0, 2^32 - 2]. *)
Definition array_index (k : jsstring) : option N :=
  match k with
  | [] => None
  | c :: rest =>
      if forallb is_digit k
         && (negb (N.eqb c 48) || match rest with [] => true | _ => false end)
         && Nat.leb (List.length k) 10
         && N.leb (digits_value k 0) 4294967294
      then Some (digits_value k 0)
      else None
  end.

Fixpoint own_lookup (o : obj) (k : jsstring) : option jsval :=
  match o with
  | [] => None
  | (k', v) :: o' => if str_eqb k' k then Some v else own_lookup o' k
  end.

Fixpoint obj_update (k : jsstring) (v : jsval) (o : obj) : obj :=
  match o with
  | [] => []
  | (k', v') :: o' =>
      if str_eqb k' k then (k', v) :: o' else (k', v') :: obj_update k v o'
  end.

Fixpoint obj_insert_index (n : N) (k : jsstring) (v : jsval) (o : obj) : obj :=
  match o with
  | [] => [(k, v)]
  | (k', v') :: o' =>
      match array_index k' with
      | Some n' =>
          if N.ltb n' n then (k', v') :: obj_insert_index n k v o'
          else (k, v) :: o
      | None => (k, v) :: o
      end
  end.

(** CreateDataProperty: what [Object.fromEntries] uses. *)
Definition obj_define (k : jsstring) (v : jsval) (o : obj) : obj :=
  match own_lookup o k with
  | Some _ => obj_update k v o
  | None =>
      match array_index k with
      | Some n => obj_insert_index n k v o
      | None => o ++ [(k, v)]
      end
  end.

Definition proto_key : jsstring := str "__proto__".

(** The property names an object literal inherits from
    [Object.prototype], [__proto__] apart. *)
Definition builtin_names : list jsstring :=
  map str
    [ "constructor"; "__defineGetter__"; "__defineSetter__";
      "hasOwnProperty"; "__lookupGetter__"; "__lookupSetter__";
      "isPrototypeOf"; "propertyIsEnumerable"; "toString"; "valueOf";
      "toLocaleString" ]%string.

Definition is_builtin_name (k : jsstring) : bool :=
  existsb (str_eqb k) builtin_names.

Definition is_inherited_name (k : jsstring) : bool :=
  str_eqb k proto_key || is_builtin_name k.

(** [o[k] = v] on an object literal.  Assigning to [__proto__] runs the
    inherited setter, which ignores every primitive value (and the
    program assigns numbers and strings only); any other key becomes or
    updates an own property. *)
Definition obj_set (k : jsstring) (v : jsval) (o : obj) : obj :=
  if str_eqb k proto_key then o else obj_define k v o.

(** [o[k]]: the own property, else what [Object.prototype] provides. *)
Definition obj_get (o : obj) (k : jsstring) : jsval :=
  match own_lookup o k with
  | Some v => v
  | None =>
      if str_eqb k proto_key then VProto
      else if is_builtin_name k then VBuiltin k
      else VUndef
  end.

(** ToPropertyKey of the first component, for
    [Object.fromEntries(Object.entries(o).map(([k, v]) => [v, k]))]. *)
Definition swap_entry (e : jsstring * jsval) : jsstring * jsval :=
  (to_string (snd e), VStr (fst e)).

Definition from_entries (es : list (jsstring * jsval)) : obj :=
  fold_left (fun o e => obj_define (fst e) (snd e) o) es [].

Definition reverse_of (vocab : obj) : obj :=
  from_entries (map swap_entry vocab).

(** [Object.keys(o).length]. *)
Definition keys_length (o : obj) : Z := Z.of_nat (List.length o).

(* ------------------------------------------------------------------ *)
(** *** Set, Map, join, sort, slice                                     *)
(* ------------------------------------------------------------------ *)

(** [Set.prototype.add] on an insertion-ordered set of strings. *)
Definition set_add (x : jsstring) (s : list jsstring) : list jsstring :=
  if existsb (str_eqb x) s then s else s ++ [x].

(** [Array.prototype.join] over strings. *)
Fixpoint join (sep : jsstring) (l : list jsstring) : jsstring :=
  match l with
  | [] => []
  | [x] => x
  | x :: l' => x ++ sep ++ join sep l'
  end.

(** [Array.prototype.sort(cmp)]: a stable sort.  [cmp a b] is the
    comparator's result with NaN already read as [+0]; an element moves
    before another only when the comparator says so.  With numeric
    counts the comparators of this program are consistent, and every
    stable sort gives this order.  For a comparator that is not
    consistent (here: one that yields NaN because a count is not a
    number, as for the word "constructor") the language leaves the
    order to the implementation: this is the order of a stable linear
    insertion sort, and the binary insertion of V8 can give another
    one. *)
Section Sort.
Context {A : Type} (cmp : A -> A -> Z).

Fixpoint sort_insert (x : A) (l : list A) : list A :=
  match l with
  | [] => [x]
  | y :: l' => if Z.leb (cmp y x) 0 then y :: sort_insert x l' else x :: l
  end.

Definition js_sort (l : list A) : list A :=
  fold_left (fun acc x => sort_insert x acc) l [].
End Sort.

(** [Array.prototype.slice(0, end)] for an integer [end]. *)
Definition slice0 {A : Type} (l : list A) (e : Z) : list A :=
  let len := Z.of_nat (List.length l) in
  let final := if Z.ltb e 0 then Z.max (len + e) 0 else Z.min e len in
  firstn (Z.to_nat final) l.

(* ------------------------------------------------------------------ *)
(** *** Character classes                                               *)
(* ------------------------------------------------------------------ *)

Definition ch (a : ascii) : N := N_of_ascii a.

Definition one_of (c : N) (chars : string) : bool :=
  existsb (N.eqb c) (str chars).

Definition in_range (lo hi c : N) : bool := (N.leb lo c && N.leb c hi)%N.

(** LineTerminator: LF, CR, LS, PS. *)
Definition is_line_terminator (c : N) : bool :=
  existsb (N.eqb c) [10; 13; 8232; 8233]%N.

(** [\s]: WhiteSpace and LineTerminator. *)
Definition is_white_space (c : N) : bool :=
  existsb (N.eqb c)
    [9; 10; 11; 12; 13; 32; 160; 5760; 8232; 8233; 8239; 8287; 12288; 65279]%N
  || in_range 8192 8202 c.

(** [\w] without the [i] and [u] flags: [A-Za-z0-9_]. *)
Definition is_word_char (c : N) : bool :=
  in_range 65 90 c || in_range 97 122 c || in_range 48 57 c || N.eqb c 95.

(* ------------------------------------------------------------------ *)
(** *** [new RegExp(source, 'g')] for the sources the program builds    *)
(* ------------------------------------------------------------------ *)

(** What a call can do: return, throw a [SyntaxError], or leave the
    fragment of the runtime modelled here. *)
Inductive outcome (A : Type) :=
| Returns (a : A)
| ThrowsSyntaxError
| Unmodelled.
Arguments Returns {A} a.
Arguments ThrowsSyntaxError {A}.
Arguments Unmodelled {A}.

Definition bind {A B : Type} (m : outcome A) (f : A -> outcome B) : outcome B :=
  match m with
  | Returns a => f a
  | ThrowsSyntaxError => ThrowsSyntaxError
  | Unmodelled => Unmodelled
  end.

Fixpoint map_outcome {A B : Type} (f : A -> outcome B) (l : list A)
  : outcome (list B) :=
  match l with
  | [] => Returns []
  | x :: l' =>
      bind (f x) (fun y => bind (map_outcome f l') (fun ys => Returns (y :: ys)))
  end.

Inductive quantifier := QOne | QStar | QPlus | QOpt.

Inductive term :=
| AssertStart                       (* ^ *)
| AssertEnd                         (* $ *)
| AssertWordBoundary                (* \b *)
| AssertNotWordBoundary             (* \B *)
| EmptyGroup                        (* () *)
| Atom (m : N -> bool) (q : quantifier).

Definition alternative := list term.
Definition disjunction := list alternative.

(** A pattern character standing on its own (not after a backslash, and
    [|] apart).  In the grammar of web browsers and Node (Annex B, no [u]
    flag) the characters [ ] { } ] are literal here. *)
Inductive single :=
| SError
| SAssert (t : term)
| SAtom (m : N -> bool).

Definition single_of (c : N) : single :=
  if N.eqb c (ch "^") then SAssert AssertStart
  else if N.eqb c (ch "$") then SAssert AssertEnd
  else if N.eqb c (ch ".") then SAtom (fun x => negb (is_line_terminator x))
  else if one_of c "*+?()[\" then SError
  else SAtom (N.eqb c).

Definition quantifier_of (c : N) : option quantifier :=
  if N.eqb c (ch "*") then Some QStar
  else if N.eqb c (ch "+") then Some QPlus
  else if N.eqb c (ch "?") then Some QOpt
  else None.

(** The escape [\c] for the second character [c] of a two-character
    source. *)
Definition escape_of (c : N) : disjunction :=
  if N.eqb c (ch "d") then [[Atom is_digit QOne]]
  else if N.eqb c (ch "D") then [[Atom (fun x => negb (is_digit x)) QOne]]
  else if N.eqb c (ch "s") then [[Atom is_white_space QOne]]
  else if N.eqb c (ch "S") then [[Atom (fun x => negb (is_white_space x)) QOne]]
  else if N.eqb c (ch "w") then [[Atom is_word_char QOne]]
  else if N.eqb c (ch "W") then [[Atom (fun x => negb (is_word_char x)) QOne]]
  else if N.eqb c (ch "b") then [[AssertWordBoundary]]
  else if N.eqb c (ch "B") then [[AssertNotWordBoundary]]
  else if N.eqb c (ch "t") then [[Atom (N.eqb 9) QOne]]
  else if N.eqb c (ch "n") then [[Atom (N.eqb 10) QOne]]
  else if N.eqb c (ch "v") then [[Atom (N.eqb 11) QOne]]
  else if N.eqb c (ch "f") then [[Atom (N.eqb 12) QOne]]
  else if N.eqb c (ch "r") then [[Atom (N.eqb 13) QOne]]
  else if in_range 48 55 c then [[Atom (N.eqb (c - 48)) QOne]]
  else if N.eqb c (ch "c") then [[Atom (N.eqb (ch "\")) QOne; Atom (N.eqb c) QOne]]
  else [[Atom (N.eqb c) QOne]].

Definition compile (source : jsstring) : outcome disjunction :=
  match source with
  | [] => Returns [[]]
  | [c] =>
      if N.eqb c (ch "|") then Returns [[]; []]
      else match single_of c with
           | SError => ThrowsSyntaxError
           | SAssert t => Returns [[t]]
           | SAtom m => Returns [[Atom m QOne]]
           end
  | [c1; c2] =>
      if N.eqb c1 (ch "\") then Returns (escape_of c2)
      else if N.eqb c1 (ch "(") then
        if N.eqb c2 (ch ")") then Returns [[EmptyGroup]] else ThrowsSyntaxError
      else if N.eqb c1 (ch "[") then
        if N.eqb c2 (ch "]") then Returns [[Atom (fun _ => false) QOne]]
        else ThrowsSyntaxError
      else if N.eqb c1 (ch "|") then
        if N.eqb c2 (ch "|") then Returns [[]; []; []]
        else match single_of c2 with
             | SError => ThrowsSyntaxError
             | SAssert t => Returns [[]; [t]]
             | SAtom m => Returns [[]; [Atom m QOne]]
             end
      else
        match single_of c1 with
        | SError => ThrowsSyntaxError
        | SAssert t1 =>
            if N.eqb c2 (ch "|") then Returns [[t1]; []]
            else match single_of c2 with
                 | SError => ThrowsSyntaxError
                 | SAssert t2 => Returns [[t1; t2]]
                 | SAtom m2 => Returns [[t1; Atom m2 QOne]]
                 end
        | SAtom m1 =>
            match quantifier_of c2 with
            | Some q => Returns [[Atom m1 q]]
            | None =>
                if N.eqb c2 (ch "|") then Returns [[Atom m1 QOne]; []]
                else match single_of c2 with
                     | SError => ThrowsSyntaxError
                     | SAssert t2 => Returns [[Atom m1 QOne; t2]]
                     | SAtom m2 => Returns [[Atom m1 QOne; Atom m2 QOne]]
                     end
            end
        end
  | _ => Unmodelled
  end.

(** Matching at one position: [prev] is the code unit before it (none at
    the start of the subject), [rest] the subject from it on; the result
    is the number of code units consumed.  Quantifiers are greedy and
    backtrack into what follows them. *)
Definition word_before (prev : option N) : bool :=
  match prev with Some c => is_word_char c | None => false end.
Definition word_after (rest : jsstring) : bool :=
  match rest with c :: _ => is_word_char c | [] => false end.

Definition S_opt (r : option nat) : option nat :=
  match r with Some n => Some (S n) | None => None end.

Fixpoint match_terms (ts : alternative) (prev : option N) (rest : jsstring)
  {struct ts} : option nat :=
  match ts with
  | [] => Some O
  | t :: ts' =>
      match t with
      | AssertStart =>
          match prev with None => match_terms ts' prev rest | Some _ => None end
      | AssertEnd =>
          match rest with [] => match_terms ts' prev rest | _ :: _ => None end
      | AssertWordBoundary =>
          if xorb (word_before prev) (word_after rest)
          then match_terms ts' prev rest else None
      | AssertNotWordBoundary =>
          if xorb (word_before prev) (word_after rest)
          then None else match_terms ts' prev rest
      | EmptyGroup => match_terms ts' prev rest
      | Atom m q =>
          let star :=
            fix star (prev : option N) (rest : jsstring) {struct rest}
              : option nat :=
              match rest with
              | c :: r =>
                  if m c then
                    match star (Some c) r with
                    | Some n => Some (S n)
                    | None => match_terms ts' prev rest
                    end
                  else match_terms ts' prev rest
              | [] => match_terms ts' prev rest
              end in
          match q with
          | QOne =>
              match rest with
              | c :: r => if m c then S_opt (match_terms ts' (Some c) r) else None
              | [] => None
              end
          | QStar => star prev rest
          | QPlus =>
              match rest with
              | c :: r => if m c then S_opt (star (Some c) r) else None
              | [] => None
              end
          | QOpt =>
              match rest with
              | c :: r =>
                  if m c then
                    match match_terms ts' (Some c) r with
                    | Some n => Some (S n)
                    | None => match_terms ts' prev rest
                    end
                  else match_terms ts' prev rest
              | [] => match_terms ts' prev rest
              end
          end
      end
  end.

Fixpoint match_at (d : disjunction) (prev : option N) (rest : jsstring)
  : option nat :=
  match d with
  | [] => None
  | alt :: d' =>
      match match_terms alt prev rest with
      | Some n => Some n
      | None => match_at d' prev rest
      end
  end.

(** GetSubstitution for a replacement template used with a pattern that
    has no capture the template could name: [$$], [$&], [$`] and [$']
    are expanded, every other [$] is literal. *)
Fixpoint substitute (template matched before after : jsstring) : jsstring :=
  match template with
  | [] => []
  | c :: t' =>
      if N.eqb c (ch "$") then
        match t' with
        | d :: t'' =>
            if N.eqb d (ch "$") then ch "$" :: substitute t'' matched before after
            else if N.eqb d (ch "&") then matched ++ substitute t'' matched before after
            else if N.eqb d (ch "`") then before ++ substitute t'' matched before after
            else if N.eqb d (ch "'") then after ++ substitute t'' matched before after
            else c :: substitute t' matched before after
        | [] => [c]
        end
      else c :: substitute t' matched before after
  end.

(** [subject.replace(/source/g, template)] from the current position:
    [before] holds the code units already passed (latest first), [skip]
    how many of the next ones belong to the match just replaced.  After
    an empty match the search resumes one code unit further, and that
    code unit is copied. *)
Fixpoint replace_loop (d : disjunction) (template : jsstring)
  (before : jsstring) (rest : jsstring) (skip : nat) : jsstring :=
  match skip with
  | S k =>
      match rest with
      | c :: r => replace_loop d template (c :: before) r k
      | [] => []
      end
  | O =>
      match match_at d (hd_error before) rest with
      | Some n =>
          substitute template (firstn n rest) (rev before) (skipn n rest)
          ++ match n, rest with
             | O, c :: r => c :: replace_loop d template (c :: before) r O
             | S k, c :: r => replace_loop d template (c :: before) r k
             | _, [] => []
             end
      | None =>
          match rest with
          | c :: r => c :: replace_loop d template (c :: before) r O
          | [] => []
          end
      end
  end.

(** [subject.replace(new RegExp(source, 'g'), template)]. *)
Definition regexp_replace_all (source template subject : jsstring)
  : outcome jsstring :=
  bind (compile source) (fun d => Returns (replace_loop d template [] subject O)).

(** [s.split(' ')]. *)
Fixpoint split_on (sep : N) (s : jsstring) (cur : jsstring) : list jsstring :=
  match s with
  | [] => [rev cur]
  | c :: s' =>
      if N.eqb c sep then rev cur :: split_on sep s' []
      else split_on sep s' (c :: cur)
  end.

(** [const [first, second] = pair.split(' ')] followed by
    [first + second]: a component the array lacks is [undefined], which
    [+] renders as text. *)
Definition first_plus_second (pair_ : jsstring) : jsstring :=
  match split_on 32 pair_ [] with
  | first :: second :: _ => first ++ second
  | [first] => first ++ to_string VUndef
  | [] => to_string VUndef ++ to_string VUndef
  end.

(** [text.split(/\s+/)]: the pieces between maximal runs of white
    space. *)
Fixpoint split_white_space (s : jsstring) (cur : jsstring) (in_run : bool)
  : list jsstring :=
  match s with
  | [] => [rev cur]
  | c :: s' =>
      if is_white_space c then
        if in_run then split_white_space s' [] true
        else rev cur :: split_white_space s' [] true
      else split_white_space s' (c :: cur) false
  end.

(** [text.match(/\w+|[^\w\s]/g) || []]: maximal runs of word
    characters, and every other code unit that is not white space. *)
Definition flush_word (cur : jsstring) : list jsstring :=
  match cur with [] => [] | _ => [rev cur] end.

Fixpoint match_words (s : jsstring) (cur : jsstring) : list jsstring :=
  match s with
  | [] => flush_word cur
  | c :: s' =>
      if is_word_char c then match_words s' (c :: cur)
      else flush_word cur
           ++ (if is_white_space c then [] else [[c]])
           ++ match_words s' []
  end.

End JS.

Import JS.

(* ================================================================== *)
(** ** 1. CharacterTokenizer                                            *)
(* ================================================================== *)

Definition PAD : jsstring := str "<PAD>".
Definition UNK : jsstring := str "<UNK>".
Definition START : jsstring := str "<START>".
Definition END_ : jsstring := str "<END>".

(** The four assignments under [// Add special tokens]. *)
Definition add_special_tokens (vocab : obj) : obj :=
  obj_set END_ (VNum 3)
    (obj_set START (VNum 2)
       (obj_set UNK (VNum 1)
          (obj_set PAD (VNum 0) vocab))).

(** [let index = 4; items.forEach(item => { vocab[item] = index; index++ })]. *)
Definition assign_ids (items : list jsstring) (vocab : obj) (index : Z)
  : obj * Z :=
  fold_left
    (fun st item => (obj_set item (VNum (snd st)) (fst st), snd st + 1))
    items (vocab, index).

Module CharacterTokenizer.

Record t := mk {
  vocab : obj;
  reverseVocab : obj;
  vocabSize : Z
}.

(** [constructor()]. *)
Definition new : t := mk [] [] 0.

(** [texts.forEach(text => { for (const char of text) uniqueChars.add(char) })]. *)
Definition collect_chars (texts : list jsstring) : list jsstring :=
  fold_left
    (fun set text => fold_left (fun s char => set_add char s) (code_points text) set)
    texts [].

Definition buildVocabulary (this : t) (texts : list jsstring) : t :=
  let uniqueChars := collect_chars texts in
  let vocab1 := add_special_tokens (vocab this) in
  let vocab2 := fst (assign_ids uniqueChars vocab1 4) in
  mk vocab2 (reverse_of vocab2) (keys_length vocab2).

Definition encode (this : t) (text : jsstring) : list jsval :=
  map (fun char => js_or (obj_get (vocab this) char) (obj_get (vocab this) UNK))
      (code_points text).

Definition decode (this : t) (tokens : list jsval) : jsstring :=
  join []
    (map (fun token =>
            to_string (js_or (obj_get (reverseVocab this) (to_string token))
                             (VStr UNK)))
         tokens).

End CharacterTokenizer.

(* ================================================================== *)
(** ** 2. WordTokenizer                                                 *)
(* ================================================================== *)

Module WordTokenizer.

Record t := mk {
  vocab : obj;
  reverseVocab : obj;
  maxVocabSize : Z;
  vocabSize : Z
}.

(** [constructor(maxVocabSize = 10000)]. *)
Definition new (maxVocabSize : Z) : t := mk [] [] maxVocabSize 0.

(** The comparator [(a, b) => b[1] - a[1]], NaN read as [+0]. *)
Definition by_frequency (a b : jsstring * jsval) : Z :=
  match js_sub (snd b) (snd a) with
  | Some z => z
  | None => 0
  end.

Section WithCaseMapping.

(** [String.prototype.toLowerCase]: the Unicode case mapping of the
    runtime, which the source does not contain. *)
Variable toLowerCase : jsstring -> jsstring.

(** [text.toLowerCase().match(/\w+|[^\w\s]/g) || []]. *)
Definition words_of (text : jsstring) : list jsstring :=
  match_words (toLowerCase text) [].

(** [wordFrequency[word] = (wordFrequency[word] || 0) + 1]. *)
Definition count_word (wordFrequency : obj) (word : jsstring) : obj :=
  obj_set word
    (js_add (js_or (obj_get wordFrequency word) (VNum 0)) (VNum 1))
    wordFrequency.

Definition count_words (texts : list jsstring) : obj :=
  fold_left
    (fun wordFrequency text => fold_left count_word (words_of text) wordFrequency)
    texts [].

Definition buildVocabulary (this : t) (texts : list jsstring) : t :=
  let wordFrequency := count_words texts in
  let sortedWords :=
    slice0 (js_sort by_frequency wordFrequency) (maxVocabSize this - 4) in
  let vocab1 := add_special_tokens (vocab this) in
  let vocab2 := fst (assign_ids (map fst sortedWords) vocab1 4) in
  mk vocab2 (reverse_of vocab2) (maxVocabSize this) (keys_length vocab2).

Definition encode (this : t) (text : jsstring) : list jsval :=
  map (fun word => js_or (obj_get (vocab this) word) (obj_get (vocab this) UNK))
      (words_of text).

End WithCaseMapping.

Definition decode (this : t) (tokens : list jsval) : jsstring :=
  join (str " ")
    (map (fun token =>
            to_string (js_or (obj_get (reverseVocab this) (to_string token))
                             (VStr UNK)))
         tokens).

End WordTokenizer.

(* ================================================================== *)
(** ** 3. SimpleBPETokenizer                                            *)
(* ================================================================== *)

Module SimpleBPETokenizer.

Record t := mk {
  numMerges : Z;
  vocab : obj;
  merges : obj;
  reverseVocab : obj
}.

(** [constructor(numMerges = 100)]. *)
Definition new (numMerges : Z) : t := mk numMerges [] [] [].

(** A [Map] from pair strings to counts, in insertion order. *)
Definition pair_map := list (jsstring * jsval).

Fixpoint map_get (m : pair_map) (k : jsstring) : jsval :=
  match m with
  | [] => VUndef
  | (k', v) :: m' => if str_eqb k' k then v else map_get m' k
  end.

Fixpoint map_set (k : jsstring) (v : jsval) (m : pair_map) : pair_map :=
  match m with
  | [] => [(k, v)]
  | (k', v') :: m' =>
      if str_eqb k' k then (k', v) :: m' else (k', v') :: map_set k v m'
  end.

(** The keys [word[i] + ' ' + word[i + 1]] for [i < word.length - 1]. *)
Fixpoint pairs_of_word (word : jsstring) : list jsstring :=
  match word with
  | a :: word' =>
      match word' with
      | b :: _ => [a; 32%N; b] :: pairs_of_word word'
      | [] => []
      end
  | [] => []
  end.

Definition getPairFrequencies (words : list jsstring) : pair_map :=
  fold_left
    (fun pairs word =>
       fold_left
         (fun pairs pair_ =>
            map_set pair_ (js_add (js_or (map_get pairs pair_) (VNum 0)) (VNum 1)) pairs)
         (pairs_of_word word) pairs)
    words [].

(** The comparator [(a, b) => b[1] - a[1]]. *)
Definition by_count (a b : jsstring * jsval) : Z :=
  match js_sub (snd b) (snd a) with
  | Some z => z
  | None => 0
  end.

(** [texts.flatMap(text => text.split(/\s+/).filter(w => w.length > 0))]. *)
Definition split_words (texts : list jsstring) : list jsstring :=
  flat_map
    (fun text =>
       filter (fun w => Nat.ltb 0 (List.length w)) (split_white_space text [] false))
    texts.

(** [words.forEach(word => { for (const char of word) chars.add(char) })]. *)
Definition collect_chars (words : list jsstring) : list jsstring :=
  fold_left
    (fun set word => fold_left (fun s char => set_add char s) (code_points word) set)
    words [].

(** The state of the [// Learn merges] loop. *)
Record learning := mkLearning {
  l_words : list jsstring;
  l_vocab : obj;
  l_merges : obj;
  l_vocabIndex : Z
}.

(** The loop [for (let i = 0; i < this.numMerges; i++)], [remaining]
    being the iterations left.  The sorted array is empty exactly when
    [pairs.size === 0]. *)
Fixpoint learn_merges (remaining : nat) (st : learning) : outcome learning :=
  match remaining with
  | O => Returns st
  | S remaining' =>
      let pairs := getPairFrequencies (l_words st) in
      match js_sort by_count pairs with
      | [] => Returns st
      | (mostFrequentPair, _) :: _ =>
          let newToken := first_plus_second mostFrequentPair in
          let vocab' := obj_set newToken (VNum (l_vocabIndex st)) (l_vocab st) in
          let merges' := obj_set mostFrequentPair (VStr newToken) (l_merges st) in
          bind
            (map_outcome
               (fun word =>
                  regexp_replace_all (first_plus_second mostFrequentPair) newToken word)
               (l_words st))
            (fun words' =>
               learn_merges remaining'
                 (mkLearning words' vocab' merges' (l_vocabIndex st + 1)))
      end
  end.

Definition buildVocabulary (this : t) (texts : list jsstring) : outcome t :=
  let words := split_words texts in
  let chars := collect_chars words in
  let '(vocab0, vocabIndex) := assign_ids chars (vocab this) 0 in
  bind
    (learn_merges (Z.to_nat (numMerges this))
       (mkLearning words vocab0 (merges this) vocabIndex))
    (fun st =>
       Returns (mk (numMerges this) (l_vocab st) (l_merges st)
                   (reverse_of (l_vocab st)))).

(** The loop [for (const [pair, merged] of Object.entries(this.merges))]. *)
Fixpoint apply_merges (entries : list (jsstring * jsval)) (result : jsstring)
  : outcome jsstring :=
  match entries with
  | [] => Returns result
  | (pair_, merged) :: entries' =>
      bind (regexp_replace_all (first_plus_second pair_) (to_string merged) result)
           (apply_merges entries')
  end.

Definition encode (this : t) (text : jsstring) : outcome (list jsval) :=
  bind (apply_merges (merges this) text)
       (fun result =>
          Returns (map (fun char => js_or (obj_get (vocab this) char) (VNum 0))
                       (code_points result))).

Definition decode (this : t) (tokens : list jsval) : jsstring :=
  join []
    (map (fun token =>
            to_string (js_or (obj_get (reverseVocab this) (to_string token))
                             (VStr (str "?"))))
         tokens).

End SimpleBPETokenizer.

(* ================================================================== *)
(** ** Vocabulary of the specification                                  *)
(* ================================================================== *)

(** A run of assignments [o[k] = v], and a run of definitions. *)
Definition set_all (writes : list (jsstring * jsval)) (o : obj) : obj :=
  fold_left (fun o e => obj_set (fst e) (snd e) o) writes o.

Definition define_all (writes : list (jsstring * jsval)) (o : obj) : obj :=
  fold_left (fun o e => obj_define (fst e) (snd e) o) writes o.

(** The [Set] both vocabulary builders fill: every unit of every text,
    added in turn. *)
Definition collect {T : Type} (units : T -> list jsstring)
  (ts : list T) (s0 : list jsstring) : list jsstring :=
  fold_left (fun set t => fold_left (fun s c => set_add c s) (units t) set) ts s0.

(** An assignment that is not one to [__proto__]. *)
Definition settable (e : jsstring * jsval) : bool :=
  negb (str_eqb (fst e) proto_key).

Definition has_own (o : obj) (k : jsstring) : bool :=
  match own_lookup o k with Some _ => true | None => false end.

(** The ids [index], [index + 1], ... handed to [n] tokens. *)
Fixpoint ids_from (index : Z) (n : nat) : list jsval :=
  match n with
  | O => []
  | S n' => VNum index :: ids_from (index + 1) n'
  end.

(** The assignments [vocab[item] = index; index++] over [items]. *)
Definition id_writes (items : list jsstring) (index : Z)
  : list (jsstring * jsval) :=
  combine items (ids_from index (List.length items)).

Definition special_writes : list (jsstring * jsval) :=
  [(PAD, VNum 0); (UNK, VNum 1); (START, VNum 2); (END_, VNum 3)].

Definition reserved_tokens : list jsstring := [PAD; UNK; START; END_].

(** The four reserved tokens are present under their ids. *)
Definition reserved_present (vocab : obj) : Prop :=
  own_lookup vocab PAD = Some (VNum 0)
  /\ own_lookup vocab UNK = Some (VNum 1)
  /\ own_lookup vocab START = Some (VNum 2)
  /\ own_lookup vocab END_ = Some (VNum 3).

(** No token other than the reserved ones carries an id below 4. *)
Definition reserved_ids_kept (vocab : obj) : Prop :=
  forall k n,
    own_lookup vocab k = Some (VNum n) -> ~ In k reserved_tokens -> 4 <= n.

(** Token-to-id is injective. *)
Definition injective_vocab (vocab : obj) : Prop :=
  forall k1 k2 v,
    own_lookup vocab k1 = Some v -> own_lookup vocab k2 = Some v -> k1 = k2.

(** Id-to-token holds exactly the entries of token-to-id, turned
    around. *)
Definition exact_inverse (vocab reverseVocab : obj) : Prop :=
  forall key v,
    own_lookup reverseVocab key = Some v <->
    exists k n, own_lookup vocab k = Some (VNum n)
                /\ key = num_to_string n /\ v = VStr k.

(** The ids in use are [0 .. size - 1]. *)
Definition contiguous_ids (vocab : obj) : Prop :=
  forall n, (exists k, own_lookup vocab k = Some (VNum n))
            <-> 0 <= n < keys_length vocab.

Definition well_formed_vocabulary (vocab reverseVocab : obj) : Prop :=
  injective_vocab vocab
  /\ exact_inverse vocab reverseVocab
  /\ contiguous_ids vocab
  /\ reserved_ids_kept vocab.

(** What [encode] puts for one unit when nothing is inherited: the
    unit's id, else [fallback]. *)
Definition id_or (vocab : obj) (fallback : Z) (unit : jsstring) : jsval :=
  match own_lookup vocab unit with
  | Some v => v
  | None => VNum fallback
  end.

(** A match of [/\w+|[^\w\s]/]: word characters only, or one code
    unit. *)
Definition word_shape (w : jsstring) : Prop :=
  forallb is_word_char w = true \/ List.length w = 1%nat.


(** The vocabulary of a rebuild: the entries of the new build, over
    those of the state it started from. *)
Definition overlays (rebuilt fresh prior : obj) : Prop :=
  forall k, own_lookup rebuilt k =
            match own_lookup fresh k with
            | Some v => Some v
            | None => own_lookup prior k
            end.

(** A token of one code point, and one of several. *)
Definition single_character (token : jsstring) : Prop :=
  List.length (code_points token) = 1%nat.
Definition multi_character (token : jsstring) : Prop :=
  (1 < List.length (code_points token))%nat.

(** The ASCII part of the case mapping, to run the word tokenizer on
    ASCII inputs. *)
Definition ascii_lower (s : jsstring) : jsstring :=
  map (fun c => if in_range 65 90 c then (c + 32)%N else c) s.

(** The words [WordTokenizer.buildVocabulary] numbers from 4 on. *)
Definition word_items (toLowerCase : jsstring -> jsstring)
  (maxVocabSize : Z) (texts : list jsstring) : list jsstring :=
  map fst
    (slice0
       (js_sort WordTokenizer.by_frequency
          (WordTokenizer.count_words toLowerCase texts))
       (maxVocabSize - 4)).

(** What the learning loop leaves besides the words. *)
Definition learnt (st : SimpleBPETokenizer.learning) : obj * obj * Z :=
  (SimpleBPETokenizer.l_vocab st, SimpleBPETokenizer.l_merges st,
   SimpleBPETokenizer.l_vocabIndex st).

(** A key of the pair map: two code units around a space. *)
Definition pair_shape (p : jsstring) : Prop :=
  exists a b, p = [a; 32%N; b].

(** The pairs the [// Learn merges] loop selects, in order. *)
Fixpoint learned_pairs (remaining : nat) (words : list jsstring)
  : outcome (list jsstring) :=
  match remaining with
  | O => Returns []
  | S remaining' =>
      match js_sort SimpleBPETokenizer.by_count
              (SimpleBPETokenizer.getPairFrequencies words) with
      | [] => Returns []
      | (mostFrequentPair, _) :: _ =>
          bind
            (map_outcome
               (fun word =>
                  regexp_replace_all (first_plus_second mostFrequentPair)
                    (first_plus_second mostFrequentPair) word)
               words)
            (fun words' =>
               bind (learned_pairs remaining' words')
                    (fun ps => Returns (mostFrequentPair :: ps)))
      end
  end.

Definition merge_writes (ps : list jsstring) : list (jsstring * jsval) :=
  map (fun p => (p, VStr (first_plus_second p))) ps.

Definition token_writes (ps : list jsstring) (index : Z)
  : list (jsstring * jsval) :=
  combine (map first_plus_second ps) (ids_from index (List.length ps)).

(** The assignments to [this.vocab] of a BPE build that selects the
    pairs [ps]: the characters from 0 on, then the merged tokens. *)
Definition bpe_writes (texts : list jsstring) (ps : list jsstring)
  : list (jsstring * jsval) :=
  let chars := SimpleBPETokenizer.collect_chars
                 (SimpleBPETokenizer.split_words texts) in
  id_writes chars 0 ++ token_writes ps (Z.of_nat (List.length chars)).

(** The corpus of the scenario of the specification, and the state a
    new tokenizer with [numMerges = 1] is in after building on it. *)
Definition scenario_corpus : list jsstring := [str "ab ab ab"; str "ab cd"].

Definition scenario_built : SimpleBPETokenizer.t :=
  SimpleBPETokenizer.mk 1
    [(str "a", VNum 0); (str "b", VNum 1); (str "c", VNum 2);
     (str "d", VNum 3); (str "ab", VNum 4)]
    [(str "a b", VStr (str "ab"))]
    [(str "0", VStr (str "a")); (str "1", VStr (str "b"));
     (str "2", VStr (str "c")); (str "3", VStr (str "d"));
     (str "4", VStr (str "ab"))].

(** What [decode] writes for one token: the entry of [reverseVocab]
    under the token's property key, else the placeholder. *)
Definition decode_unit (reverseVocab : obj) (placeholder : jsstring)
  (token : jsval) : jsstring :=
  to_string (js_or (obj_get reverseVocab (to_string token)) (VStr placeholder)).

(** A unit as it comes back from [decode] after [encode]: itself when the
    vocabulary has it, else the text of the fallback. *)
Definition shown (vocab : obj) (fallback : jsstring) (unit : jsstring)
  : jsstring :=
  if has_own vocab unit then unit else fallback.

(** The elements of [l] not in [seen], each once, in the order of their
    first appearance. *)
Fixpoint first_seen (seen : list jsstring) (l : list jsstring)
  : list jsstring :=
  match l with
  | [] => []
  | x :: l' =>
      if existsb (str_eqb x) seen then first_seen seen l'
      else x :: first_seen (seen ++ [x]) l'
  end.

(** The code points of a corpus, in reading order. *)
Definition corpus_code_points (texts : list jsstring) : list jsstring :=
  List.concat (map code_points texts).

(** The word units of a corpus, in reading order. *)
Definition corpus_words (toLowerCase : jsstring -> jsstring)
  (texts : list jsstring) : list jsstring :=
  List.concat (map (WordTokenizer.words_of toLowerCase) texts).

(** How often [w] occurs in [l]. *)
Definition occurrences (w : jsstring) (l : list jsstring) : Z :=
  Z.of_nat (List.length (filter (str_eqb w) l)).

(** The count an object used as a counter holds for [w]; 0 when it
    holds none. *)
Definition counted (o : obj) (w : jsstring) : Z :=
  match own_lookup o w with
  | Some (VNum c) => c
  | _ => 0
  end.

(** Every entry of a counter is a positive number. *)
Definition positive_counts (o : obj) : Prop :=
  forall k v, own_lookup o k = Some v -> exists c, v = VNum c /\ 0 < c.

(** No unit of [l] is a property name inherited from [Object.prototype]. *)
Definition no_inherited_name (l : list jsstring) : bool :=
  forallb (fun w => negb (is_inherited_name w)) l.

(** One entry of a counter holds at least the count of another. *)
Definition no_less (a b : jsstring * jsval) : Prop :=
  exists ca cb, snd a = VNum ca /\ snd b = VNum cb /\ cb <= ca.

(** Every entry holds a number. *)
Definition numeric_entries (l : list (jsstring * jsval)) : Prop :=
  Forall (fun e => exists c, snd e = VNum c) l.

(** A code unit that is not white space. *)
Definition solid (c : N) : Prop := is_white_space c = false.

(** Words as the learning loop sees them: without white space. *)
Definition solid_words (words : list jsstring) : Prop :=
  Forall (Forall solid) words.

(** A key of the pair map made of two code units that are not white
    space. *)
Definition solid_pair (p : jsstring) : Prop :=
  exists a b, p = [a; 32%N; b] /\ solid a /\ solid b.

(** A code unit that stands for itself in a pattern: none of the
    characters [^ $ . * + ? ( ) [ \ |]. *)
Definition literal_unit (c : N) : bool := negb (one_of c "^$.*+?()[\|").

(** A corpus without regular-expression syntax characters. *)
Definition literal_corpus (texts : list jsstring) : bool :=
  forallb (forallb literal_unit) texts.

(** The adjacent pairs of the words of a corpus, as keys, in reading
    order. *)
Definition corpus_pairs (texts : list jsstring) : list jsstring :=
  List.concat
    (map SimpleBPETokenizer.pairs_of_word (SimpleBPETokenizer.split_words texts)).

(** The count a pair map holds for [k]; 0 when it holds none. *)
Definition pair_count (m : SimpleBPETokenizer.pair_map) (k : jsstring) : Z :=
  match SimpleBPETokenizer.map_get m k with
  | VNum c => c
  | _ => 0
  end.

(** Every entry of a pair map is a positive number. *)
Definition positive_pairs (m : SimpleBPETokenizer.pair_map) : Prop :=
  forall k v, In (k, v) m -> exists c, v = VNum c /\ 0 < c.

(** [pairs.set(pair, (pairs.get(pair) || 0) + 1)]. *)
Definition count_pair (pairs : SimpleBPETokenizer.pair_map) (pair_ : jsstring)
  : SimpleBPETokenizer.pair_map :=
  SimpleBPETokenizer.map_set pair_
    (js_add (js_or (SimpleBPETokenizer.map_get pairs pair_) (VNum 0)) (VNum 1))
    pairs.

(** How often [a] is immediately followed by [b] in a word, and in a
    list of words. *)
Fixpoint adjacent_count (a b : N) (word : jsstring) : Z :=
  match word with
  | x :: word' =>
      match word' with
      | y :: _ =>
          (if N.eqb a x && N.eqb b y then 1 else 0) + adjacent_count a b word'
      | [] => 0
      end
  | [] => 0
  end.

Definition total_adjacent (a b : N) (words : list jsstring) : Z :=
  fold_right (fun word acc => adjacent_count a b word + acc) 0 words.

(** The code points of the words of a corpus, in reading order. *)
Definition word_code_points (texts : list jsstring) : list jsstring :=
  List.concat (map code_points (SimpleBPETokenizer.split_words texts)).

(** A code unit that is neither white space nor regular-expression
    syntax. *)
Definition literal_solid (c : N) : Prop := literal_unit c = true /\ solid c.

(** The pair the learning loop selects on [words], if there is one. *)
Definition most_frequent_pair (words : list jsstring) : option jsstring :=
  match js_sort SimpleBPETokenizer.by_count
          (SimpleBPETokenizer.getPairFrequencies words) with
  | [] => None
  | (p, _) :: _ => Some p
  end.

(** Some word has at least two code units. *)
Definition has_pair (words : list jsstring) : bool :=
  existsb (fun w => Nat.leb 2 (List.length w)) words.

(** The pair the learning loop selects first, if any, is made of code
    units that stand for themselves in a pattern. *)
Definition literal_choice (words : list jsstring) : bool :=
  match most_frequent_pair words with
  | Some p => forallb literal_unit (first_plus_second p)
  | None => true
  end.

(** The merge table of a build whose learning loop selects [choice]. *)
Definition one_rule (choice : option jsstring) (numMerges : Z) : obj :=
  match choice with
  | Some p =>
      if Z.ltb 0 numMerges then [(p, VStr (first_plus_second p))] else []
  | None => []
  end.

(** The states a tokenizer can be in: newly constructed, or after some
    calls of [buildVocabulary] (for the BPE tokenizer: calls that
    returned). *)
Inductive character_state : CharacterTokenizer.t -> Prop :=
| character_new : character_state CharacterTokenizer.new
| character_built this texts :
    character_state this ->
    character_state (CharacterTokenizer.buildVocabulary this texts).

Inductive word_state (toLowerCase : jsstring -> jsstring)
  : WordTokenizer.t -> Prop :=
| word_new maxVocabSize :
    word_state toLowerCase (WordTokenizer.new maxVocabSize)
| word_built this texts :
    word_state toLowerCase this ->
    word_state toLowerCase (WordTokenizer.buildVocabulary toLowerCase this texts).

Inductive bpe_state : SimpleBPETokenizer.t -> Prop :=
| bpe_new numMerges : bpe_state (SimpleBPETokenizer.new numMerges)
| bpe_built this texts tk :
    bpe_state this ->
    SimpleBPETokenizer.buildVocabulary this texts = Returns tk ->
    bpe_state tk.

(** The code units of a text that are not white space. *)
Definition without_white_space (s : jsstring) : jsstring :=
  filter (fun c => negb (is_white_space c)) s.

(** The number of distinct word units of a corpus, the word "__proto__"
    apart. *)
Definition distinct_words (toLowerCase : jsstring -> jsstring)
  (texts : list jsstring) : Z :=
  Z.of_nat
    (List.length
       (filter (fun w => negb (str_eqb w proto_key))
          (first_seen [] (corpus_words toLowerCase texts)))).



(* ================================================================== *)
(** ** Facts about the runtime                                          *)
(* ================================================================== *)

(** The model on inputs whose results in Node are well known. *)
Section RuntimeExamples.

Example replace_star_baac :
  regexp_replace_all (str "a*") (str "X") (str "baac") = Returns (str "XbXXcX").
Proof. reflexivity. Qed.

Example replace_literal_is_identity :
  regexp_replace_all (str "ab") (str "ab") (str "abcab") = Returns (str "abcab").
Proof. reflexivity. Qed.

Example replace_dot_rewrites :
  regexp_replace_all (str "a.") (str "a.") (str "abcab") = Returns (str "a.ca.").
Proof. reflexivity. Qed.

Example regexp_open_parenthesis :
  regexp_replace_all (str "(a") (str "(a") (str "(a") = ThrowsSyntaxError.
Proof. reflexivity. Qed.

Example regexp_dangling_star :
  regexp_replace_all (str "*a") (str "*a") (str "*a") = ThrowsSyntaxError.
Proof. reflexivity. Qed.

Example split_white_space_edges :
  split_white_space (str " a  b ") [] false = [[]; str "a"; str "b"; []].
Proof. reflexivity. Qed.

Example match_words_punctuation :
  match_words (str "hey, it's x1!") []
  = [str "hey"; str ","; str "it"; str "'"; str "s"; str "x1"; str "!"].
Proof. reflexivity. Qed.

Example code_points_surrogates :
  code_points [97; 55357; 56832; 56832]%N = [[97]; [55357; 56832]; [56832]]%N.
Proof. reflexivity. Qed.

Example keys_order_indices_first :
  map fst (define_all [(str "b", VNum 0); (str "10", VNum 1);
                       (str "a", VNum 2); (str "9", VNum 3);
                       (str "01", VNum 4)] [])
  = [str "9"; str "10"; str "b"; str "a"; str "01"].
Proof. reflexivity. Qed.

Example inherited_constructor :
  js_or (obj_get [] (str "constructor")) (VNum 1) = VBuiltin (str "constructor")
  /\ js_add (js_or (obj_get [] (str "constructor")) (VNum 0)) (VNum 1)
     = VStr (str "function Object() { [native code] }1").
Proof. split; reflexivity. Qed.

Example zero_id_is_falsy : js_or (VNum 0) (VNum 7) = VNum 7.
Proof. reflexivity. Qed.

End RuntimeExamples.

Section ObjectFacts.

Lemma str_eqb_eq (a b : jsstring) : str_eqb a b = true <-> a = b.
Proof.
  revert b; induction a as [|x a IH]; intros [|y b]; simpl;
    try (split; (discriminate || reflexivity)).
  rewrite andb_true_iff, N.eqb_eq, IH.
  split; [intros [-> ->]; reflexivity | intros [= -> ->]; auto].
Qed.

Lemma str_eqb_refl (a : jsstring) : str_eqb a a = true.
Proof. apply str_eqb_eq; reflexivity. Qed.

Lemma str_eqb_neq (a b : jsstring) : str_eqb a b = false <-> a <> b.
Proof.
  rewrite <- str_eqb_eq. destruct (str_eqb a b); split; congruence.
Qed.

Lemma str_eqb_sym (a b : jsstring) : str_eqb a b = str_eqb b a.
Proof.
  destruct (str_eqb a b) eqn:E.
  - apply str_eqb_eq in E; subst; symmetry; apply str_eqb_refl.
  - apply str_eqb_neq in E. symmetry. apply str_eqb_neq. congruence.
Qed.

Lemma own_lookup_app (o o' : obj) (k : jsstring) :
  own_lookup (o ++ o') k =
  match own_lookup o k with Some v => Some v | None => own_lookup o' k end.
Proof.
  induction o as [|[k0 v0] o IH]; simpl; [reflexivity|].
  destruct (str_eqb k0 k); auto.
Qed.

Lemma own_lookup_update (k : jsstring) (v : jsval) (o : obj) (k' : jsstring) :
  own_lookup (obj_update k v o) k' =
  if str_eqb k k'
  then match own_lookup o k with Some _ => Some v | None => None end
  else own_lookup o k'.
Proof.
  induction o as [|[k0 v0] o IH]; simpl.
  - destruct (str_eqb k k'); reflexivity.
  - destruct (str_eqb k0 k) eqn:E0; simpl.
    + apply str_eqb_eq in E0; subst k0.
      destruct (str_eqb k k'); reflexivity.
    + destruct (str_eqb k0 k') eqn:E1.
      * apply str_eqb_eq in E1; subst k0.
        rewrite str_eqb_sym, E0. reflexivity.
      * apply IH.
Qed.

Lemma own_lookup_insert_index n k v o k' :
  own_lookup o k = None ->
  own_lookup (obj_insert_index n k v o) k' =
  if str_eqb k k' then Some v else own_lookup o k'.
Proof.
  induction o as [|[k0 v0] o IH]; simpl; intros Hk.
  - reflexivity.
  - destruct (str_eqb k0 k) eqn:E0; [discriminate|].
    destruct (array_index k0) as [n0|]; [destruct (N.ltb n0 n)|]; simpl;
      try reflexivity.
    destruct (str_eqb k0 k') eqn:E1.
    + apply str_eqb_eq in E1; subst k0. rewrite str_eqb_sym, E0. reflexivity.
    + apply IH, Hk.
Qed.

Lemma own_lookup_define k v o k' :
  own_lookup (obj_define k v o) k' =
  if str_eqb k k' then Some v else own_lookup o k'.
Proof.
  unfold obj_define. destruct (own_lookup o k) as [x|] eqn:E.
  - rewrite own_lookup_update, E. reflexivity.
  - destruct (array_index k) as [n|].
    + apply own_lookup_insert_index, E.
    + rewrite own_lookup_app. simpl.
      destruct (str_eqb k k') eqn:E'.
      * apply str_eqb_eq in E'; subst k'. rewrite E. reflexivity.
      * destruct (own_lookup o k'); reflexivity.
Qed.

Lemma own_lookup_set k v o k' :
  own_lookup (obj_set k v o) k' =
  if str_eqb k k' && negb (str_eqb k proto_key) then Some v
  else own_lookup o k'.
Proof.
  unfold obj_set. destruct (str_eqb k proto_key); simpl.
  - rewrite andb_false_r. reflexivity.
  - rewrite andb_true_r. apply own_lookup_define.
Qed.

Lemma own_lookup_None (o : obj) (k : jsstring) :
  own_lookup o k = None <-> ~ In k (map fst o).
Proof.
  induction o as [|[k0 v0] o IH]; simpl.
  - tauto.
  - destruct (str_eqb k0 k) eqn:E.
    + apply str_eqb_eq in E. split; [discriminate | tauto].
    + apply str_eqb_neq in E. rewrite IH. tauto.
Qed.

Lemma own_lookup_In (o : obj) (k : jsstring) (v : jsval) :
  own_lookup o k = Some v -> In (k, v) o.
Proof.
  induction o as [|[k0 v0] o IH]; simpl; [discriminate|].
  destruct (str_eqb k0 k) eqn:E.
  - apply str_eqb_eq in E. intros [= ->]. left; congruence.
  - auto.
Qed.

Lemma In_own_lookup (o : obj) (k : jsstring) (v : jsval) :
  NoDup (map fst o) -> In (k, v) o -> own_lookup o k = Some v.
Proof.
  induction o as [|[k0 v0] o IH]; simpl; [tauto|].
  intros Hnd [H|H]; inversion Hnd; subst.
  - injection H as -> ->. rewrite str_eqb_refl. reflexivity.
  - destruct (str_eqb k0 k) eqn:E; [|auto].
    apply str_eqb_eq in E; subst k0.
    exfalso. apply H2. apply (in_map fst) in H. exact H.
Qed.

(** Updating keeps the keys; a new key is added somewhere. *)
Lemma keys_update k v o : map fst (obj_update k v o) = map fst o.
Proof.
  induction o as [|[k0 v0] o IH]; simpl; [reflexivity|].
  destruct (str_eqb k0 k); simpl; congruence.
Qed.

Lemma insert_index_perm n k v o :
  Permutation (obj_insert_index n k v o) ((k, v) :: o).
Proof.
  induction o as [|[k0 v0] o IH]; simpl; [reflexivity|].
  destruct (array_index k0) as [n0|]; [destruct (N.ltb n0 n)|];
    try reflexivity.
  rewrite IH. apply perm_swap.
Qed.

Lemma define_fresh_perm k v o :
  own_lookup o k = None -> Permutation (obj_define k v o) ((k, v) :: o).
Proof.
  intros E. unfold obj_define. rewrite E.
  destruct (array_index k).
  - apply insert_index_perm.
  - symmetry. apply Permutation_cons_append.
Qed.

Lemma define_NoDup k v o :
  NoDup (map fst o) -> NoDup (map fst (obj_define k v o)).
Proof.
  intros Hnd. destruct (own_lookup o k) as [x|] eqn:E.
  - unfold obj_define. rewrite E, keys_update. exact Hnd.
  - apply (Permutation_NoDup
             (l := map fst ((k, v) :: o))).
    + symmetry. apply Permutation_map, define_fresh_perm, E.
    + simpl. constructor; [apply own_lookup_None, E | exact Hnd].
Qed.

Lemma define_length_fresh k v o :
  own_lookup o k = None -> List.length (obj_define k v o) = S (List.length o).
Proof.
  intros E. apply (Permutation_length (define_fresh_perm k v o E)).
Qed.

Lemma update_length k v o : List.length (obj_update k v o) = List.length o.
Proof.
  rewrite <- (length_map fst), keys_update, length_map. reflexivity.
Qed.

Lemma update_In k v o e : In e (obj_update k v o) -> e = (k, v) \/ In e o.
Proof.
  induction o as [|[k0 v0] o IH]; simpl; [tauto|].
  destruct (str_eqb k0 k) eqn:E; simpl.
  - apply str_eqb_eq in E; subst. intros [<-|H]; auto.
  - intros [<-|H]; auto. destruct (IH H); auto.
Qed.

Lemma define_In k v o e : In e (obj_define k v o) -> e = (k, v) \/ In e o.
Proof.
  unfold obj_define. destruct (own_lookup o k) eqn:E.
  - apply update_In.
  - destruct (array_index k).
    + intros H. apply (Permutation_in _ (insert_index_perm n k v o)) in H.
      destruct H; auto.
    + rewrite in_app_iff. simpl. intuition.
Qed.

Lemma set_In k v o e :
  In e (obj_set k v o) -> (e = (k, v) /\ k <> proto_key) \/ In e o.
Proof.
  unfold obj_set. destruct (str_eqb k proto_key) eqn:E; [auto|].
  apply str_eqb_neq in E. intros H. apply define_In in H. tauto.
Qed.

Lemma set_NoDup k v o : NoDup (map fst o) -> NoDup (map fst (obj_set k v o)).
Proof.
  unfold obj_set. destruct (str_eqb k proto_key); auto using define_NoDup.
Qed.

End ObjectFacts.

Section WriteFacts.

Lemma set_all_define_all W o : set_all W o = define_all (filter settable W) o.
Proof.
  revert o; induction W as [|[k v] W IH]; intros o; simpl; [reflexivity|].
  unfold set_all, define_all in *. unfold settable at 1, obj_set at 2. simpl.
  destruct (str_eqb k proto_key); simpl; apply IH.
Qed.

Lemma filter_settable_id W :
  (forall e, In e W -> fst e <> proto_key) -> filter settable W = W.
Proof.
  induction W as [|e W IH]; simpl; intros H; [reflexivity|].
  unfold settable at 1.
  destruct (str_eqb (fst e) proto_key) eqn:E; simpl.
  - apply str_eqb_eq in E. exfalso. apply (H e); auto.
  - f_equal. apply IH. intros; apply H; auto.
Qed.

Lemma define_all_In W o e : In e (define_all W o) -> In e W \/ In e o.
Proof.
  revert o; induction W as [|[k v] W IH]; intros o; simpl; [auto|].
  intros H. apply IH in H. destruct H as [H|H]; [auto|].
  apply define_In in H. destruct H; auto.
Qed.

Lemma set_all_In W o e : In e (set_all W o) -> In e W \/ In e o.
Proof.
  rewrite set_all_define_all. intros H. apply define_all_In in H.
  destruct H as [H|H]; [left|right; exact H].
  apply filter_In in H. apply H.
Qed.

Lemma define_all_NoDup W o :
  NoDup (map fst o) -> NoDup (map fst (define_all W o)).
Proof.
  revert o; induction W as [|[k v] W IH]; intros o H; simpl; [exact H|].
  apply IH, define_NoDup, H.
Qed.

Lemma set_all_NoDup W o :
  NoDup (map fst o) -> NoDup (map fst (set_all W o)).
Proof. rewrite set_all_define_all. apply define_all_NoDup. Qed.

Lemma define_all_lookup_notin W o k :
  ~ In k (map fst W) -> own_lookup (define_all W o) k = own_lookup o k.
Proof.
  revert o; induction W as [|[k0 v0] W IH]; intros o H; simpl; [reflexivity|].
  simpl in H. rewrite IH by tauto. rewrite own_lookup_define.
  destruct (str_eqb k0 k) eqn:E; [|reflexivity].
  apply str_eqb_eq in E. tauto.
Qed.

Lemma define_all_lookup_in W o k v :
  own_lookup (define_all W o) k = Some v ->
  In (k, v) W \/ own_lookup o k = Some v.
Proof.
  revert o; induction W as [|[k0 v0] W IH]; intros o; simpl; [auto|].
  intros H. apply IH in H. destruct H as [H|H]; [auto|].
  rewrite own_lookup_define in H.
  destruct (str_eqb k0 k) eqn:E; [|auto].
  apply str_eqb_eq in E. injection H as ->. left; left; congruence.
Qed.

Lemma set_all_lookup_in W o k v :
  own_lookup (set_all W o) k = Some v ->
  In (k, v) W \/ own_lookup o k = Some v.
Proof.
  rewrite set_all_define_all. intros H. apply define_all_lookup_in in H.
  destruct H as [H|H]; [left|right; exact H].
  apply filter_In in H. apply H.
Qed.

Lemma define_all_lookup_NoDup W o k v :
  NoDup (map fst W) -> In (k, v) W ->
  own_lookup (define_all W o) k = Some v.
Proof.
  revert o; induction W as [|[k0 v0] W IH]; intros o Hnd Hin; simpl.
  - destruct Hin.
  - inversion Hnd; subst. destruct Hin as [H|H].
    + injection H as -> ->.
      rewrite define_all_lookup_notin by assumption.
      rewrite own_lookup_define, str_eqb_refl. reflexivity.
    + apply IH; assumption.
Qed.

Lemma define_all_length W o :
  NoDup (map fst W) ->
  (forall k, In k (map fst W) -> own_lookup o k = None) ->
  List.length (define_all W o) = (List.length o + List.length W)%nat.
Proof.
  revert o; induction W as [|[k0 v0] W IH]; intros o Hnd Hfresh; simpl.
  - lia.
  - inversion Hnd; subst. rewrite IH; [| assumption |].
    + rewrite define_length_fresh; [lia|]. apply Hfresh. left; reflexivity.
    + intros k Hk. rewrite own_lookup_define.
      destruct (str_eqb k0 k) eqn:E.
      * apply str_eqb_eq in E; subst. tauto.
      * apply Hfresh. right; exact Hk.
Qed.

(** An object written from scratch under pairwise distinct keys holds
    exactly what was written. *)
Lemma fresh_writes W :
  NoDup (map fst W) ->
  (forall e, In e W -> fst e <> proto_key) ->
  (forall k v, own_lookup (set_all W []) k = Some v <-> In (k, v) W)
  /\ List.length (set_all W []) = List.length W
  /\ NoDup (map fst (set_all W [])).
Proof.
  intros Hnd Hp. rewrite set_all_define_all, filter_settable_id by exact Hp.
  repeat split.
  - intros H. apply define_all_lookup_in in H. destruct H; [assumption|discriminate].
  - apply define_all_lookup_NoDup, Hnd.
  - rewrite define_all_length; auto.
  - apply define_all_NoDup. constructor.
Qed.

(** The step that makes a rebuild an overlay. *)
Lemma overlays_set k v o o' p :
  overlays o o' p -> overlays (obj_set k v o) (obj_set k v o') p.
Proof.
  intros H k'. rewrite !own_lookup_set.
  destruct (str_eqb k k' && negb (str_eqb k proto_key)); [reflexivity|apply H].
Qed.

Lemma overlays_set_all W o o' p :
  overlays o o' p -> overlays (set_all W o) (set_all W o') p.
Proof.
  revert o o'; induction W as [|[k v] W IH]; intros o o' H; simpl; [exact H|].
  apply IH, overlays_set, H.
Qed.

Lemma overlays_start p : overlays p [] p.
Proof. intros k. reflexivity. Qed.

Lemma set_all_app W1 W2 o : set_all (W1 ++ W2) o = set_all W2 (set_all W1 o).
Proof. apply fold_left_app. Qed.

(** [ids_from]. *)
Lemma ids_from_length i n : List.length (ids_from i n) = n.
Proof. revert i; induction n; intros; simpl; auto. Qed.

Lemma ids_from_In i n v :
  In v (ids_from i n) <-> exists m, v = VNum m /\ i <= m < i + Z.of_nat n.
Proof.
  revert i; induction n as [|n IH]; intros i; simpl.
  - split; [tauto|]. intros (m & _ & H). lia.
  - rewrite IH. split.
    + intros [<-|(m & -> & H)]; [exists i | exists m]; split; auto; lia.
    + intros (m & -> & H). destruct (Z.eq_dec m i) as [->|Hne]; [auto|].
      right. exists m. split; auto. lia.
Qed.

Lemma ids_from_NoDup i n : NoDup (ids_from i n).
Proof.
  revert i; induction n as [|n IH]; intros i; simpl; constructor; [|apply IH].
  rewrite ids_from_In. intros (m & [= <-] & H). lia.
Qed.

Lemma ids_from_app i n m :
  ids_from i (n + m) = ids_from i n ++ ids_from (i + Z.of_nat n) m.
Proof.
  revert i; induction n as [|n IH]; intros i.
  - simpl. f_equal. lia.
  - cbn [Nat.add ids_from app]. rewrite IH. do 3 f_equal. lia.
Qed.

Lemma assign_ids_spec items vocab index :
  assign_ids items vocab index =
  (set_all (id_writes items index) vocab,
   index + Z.of_nat (List.length items)).
Proof.
  unfold assign_ids. revert vocab index.
  induction items as [|x items IH]; intros vocab index.
  - simpl. f_equal. lia.
  - unfold id_writes. cbn [fold_left List.length ids_from combine fst snd].
    rewrite IH. unfold set_all, id_writes. cbn [fold_left fst snd]. f_equal. lia.
Qed.

End WriteFacts.

Section StringFacts.

Lemma join_empty (l : list jsstring) : join [] l = List.concat l.
Proof.
  induction l as [|x l IH]; [reflexivity|].
  destruct l as [|y l]; [simpl; now rewrite app_nil_r|].
  change (x ++ [] ++ join [] (y :: l) = x ++ List.concat (y :: l)).
  rewrite IH. reflexivity.
Qed.

Lemma code_points_ind (P : jsstring -> Prop) :
  P [] ->
  (forall c, P [c]) ->
  (forall c d s, is_high_surrogate c && is_low_surrogate d = true ->
                 P s -> P (c :: d :: s)) ->
  (forall c d s, is_high_surrogate c && is_low_surrogate d = false ->
                 P (d :: s) -> P (c :: d :: s)) ->
  forall s, P s.
Proof.
  intros H0 H1 H2 H3 s.
  assert (G : forall n s, (List.length s <= n)%nat -> P s).
  { induction n as [|n IH]; intros [|c [|d r]] L; simpl in L; auto; try lia.
    destruct (is_high_surrogate c && is_low_surrogate d) eqn:E.
    - apply H2; [exact E|]. apply IH. lia.
    - apply H3; [exact E|]. apply IH. simpl. lia. }
  apply (G (List.length s)). lia.
Qed.

Lemma code_points_pair c d s :
  is_high_surrogate c && is_low_surrogate d = true ->
  code_points (c :: d :: s) = [c; d] :: code_points s.
Proof. intros E. simpl. rewrite E. reflexivity. Qed.

Lemma code_points_unit c d s :
  is_high_surrogate c && is_low_surrogate d = false ->
  code_points (c :: d :: s) = [c] :: code_points (d :: s).
Proof. intros E. cbn [code_points]. rewrite E. reflexivity. Qed.

Lemma concat_code_points (s : jsstring) : List.concat (code_points s) = s.
Proof.
  induction s as [|c|c d s E IH|c d s E IH] using code_points_ind.
  - reflexivity.
  - reflexivity.
  - rewrite code_points_pair by exact E. simpl. now rewrite IH.
  - rewrite code_points_unit by exact E.
    change (List.concat ([c] :: code_points (d :: s))) with
      (c :: List.concat (code_points (d :: s))).
    now rewrite IH.
Qed.

Lemma code_point_length (s cp : jsstring) :
  In cp (code_points s) -> (1 <= List.length cp <= 2)%nat.
Proof.
  induction s as [|c|c d s E IH|c d s E IH] using code_points_ind.
  - intros [].
  - intros [<-|[]]. simpl. lia.
  - rewrite code_points_pair by exact E. intros [<-|H]; [simpl; lia|auto].
  - rewrite code_points_unit by exact E. intros [<-|H]; [simpl; lia|auto].
Qed.

(** A property name inherited from [Object.prototype] has at least
    seven code units. *)
Lemma inherited_name_length (k : jsstring) :
  is_inherited_name k = true -> (7 <= List.length k)%nat.
Proof.
  unfold is_inherited_name, is_builtin_name. rewrite orb_true_iff.
  intros [H|H].
  - apply str_eqb_eq in H. subst. vm_compute. lia.
  - apply existsb_exists in H. destruct H as (x & Hx & E).
    apply str_eqb_eq in E. subst x. revert k Hx.
    apply Forall_forall. repeat constructor; vm_compute; lia.
Qed.

Lemma obj_get_own o k v : own_lookup o k = Some v -> obj_get o k = v.
Proof. unfold obj_get. now intros ->. Qed.

Lemma obj_get_absent o k :
  own_lookup o k = None -> is_inherited_name k = false -> obj_get o k = VUndef.
Proof.
  unfold obj_get, is_inherited_name. intros -> H.
  apply orb_false_iff in H. destruct H as [-> ->]. reflexivity.
Qed.

Lemma short_not_inherited k :
  (List.length k <= 2)%nat -> is_inherited_name k = false.
Proof.
  intros H. destruct (is_inherited_name k) eqn:E; [|reflexivity].
  apply inherited_name_length in E. lia.
Qed.

Lemma short_not_proto k : (List.length k <= 2)%nat -> k <> proto_key.
Proof. intros H ->. vm_compute in H. lia. Qed.

Lemma str_inj (a b : string) : str a = str b -> a = b.
Proof.
  unfold str. intros H.
  rewrite <- (string_of_list_ascii_of_string a),
          <- (string_of_list_ascii_of_string b).
  f_equal. revert H.
  generalize (list_ascii_of_string a) (list_ascii_of_string b).
  induction l as [|x l IH]; intros [|y l']; simpl; try discriminate; auto.
  intros [= Hxy Hl]. f_equal; [|auto].
  rewrite <- (ascii_N_embedding x), <- (ascii_N_embedding y). congruence.
Qed.

Lemma num_to_string_inj (n m : Z) : num_to_string n = num_to_string m -> n = m.
Proof.
  unfold num_to_string. intros H. apply str_inj in H.
  apply DecimalZ.to_int_inj.
  assert (G : Some (Z.to_int n) = Some (Z.to_int m))
    by (rewrite <- !NilEmpty.isi; congruence).
  congruence.
Qed.

(** The [Set] of the vocabulary builders. *)
Lemma set_add_In x s y : In y (set_add x s) <-> In y s \/ y = x.
Proof.
  unfold set_add. destruct (existsb (str_eqb x) s) eqn:E.
  - split; [auto|]. intros [H| ->]; [exact H|].
    apply existsb_exists in E. destruct E as (z & Hz & E).
    apply str_eqb_eq in E. now subst.
  - rewrite in_app_iff. simpl. intuition.
Qed.

Lemma set_add_NoDup x s : NoDup s -> NoDup (set_add x s).
Proof.
  intros H. unfold set_add. destruct (existsb (str_eqb x) s) eqn:E; [exact H|].
  apply NoDup_app; [exact H | repeat constructor; simpl; tauto |].
  intros a Ha [Hx|[]]. subst a.
  assert (existsb (str_eqb x) s = true); [|congruence].
  apply existsb_exists. exists x. split; [exact Ha | apply str_eqb_refl].
Qed.

Section Collect.
Context {T : Type} (units : T -> list jsstring).

Lemma add_all_In xs s y :
  In y (fold_left (fun s c => set_add c s) xs s) <-> In y s \/ In y xs.
Proof.
  revert s; induction xs as [|x xs IH]; intros s; simpl; [tauto|].
  rewrite IH, set_add_In. intuition.
Qed.

Lemma add_all_NoDup xs s :
  NoDup s -> NoDup (fold_left (fun s c => set_add c s) xs s).
Proof.
  revert s; induction xs as [|x xs IH]; intros s H; simpl; [exact H|].
  apply IH, set_add_NoDup, H.
Qed.

Lemma collect_In ts s0 y :
  In y (collect units ts s0) <-> In y s0 \/ exists t, In t ts /\ In y (units t).
Proof.
  unfold collect. revert s0; induction ts as [|t ts IH]; intros s0; simpl.
  - split; [auto|]. intros [H|(t & [] & _)]. exact H.
  - rewrite IH, add_all_In. split.
    + intros [[H|H]|(t' & H1 & H2)]; eauto.
    + intros [H|(t' & [<-|H1] & H2)]; eauto.
Qed.

Lemma collect_NoDup ts s0 : NoDup s0 -> NoDup (collect units ts s0).
Proof.
  unfold collect. revert s0; induction ts as [|t ts IH]; intros s0 H; simpl.
  - exact H.
  - apply IH, add_all_NoDup, H.
Qed.
End Collect.

End StringFacts.

Section VocabularyFacts.

Lemma add_special_tokens_writes o :
  add_special_tokens o = set_all special_writes o.
Proof. reflexivity. Qed.

Lemma combine_fst {A B} (l : list A) (l' : list B) :
  List.length l = List.length l' -> map fst (combine l l') = l.
Proof.
  revert l'; induction l as [|x l IH]; intros [|y l'] H; simpl in *;
    try discriminate; auto.
  f_equal. apply IH. lia.
Qed.

Lemma combine_snd {A B} (l : list A) (l' : list B) :
  List.length l = List.length l' -> map snd (combine l l') = l'.
Proof.
  revert l'; induction l as [|x l IH]; intros [|y l'] H; simpl in *;
    try discriminate; auto.
  f_equal. apply IH. lia.
Qed.

Lemma combine_partner {A B} (l : list A) (l' : list B) x :
  List.length l = List.length l' -> In x l -> exists y, In (x, y) (combine l l').
Proof.
  revert l'; induction l as [|a l IH]; intros [|b l'] H Hin; simpl in *;
    try discriminate; try tauto.
  destruct Hin as [->|Hin]; [eauto|].
  destruct (IH l') as [y Hy]; [lia|exact Hin|eauto].
Qed.

Lemma NoDup_snd_inj {A B} (W : list (A * B)) k1 k2 v :
  NoDup (map snd W) -> In (k1, v) W -> In (k2, v) W -> k1 = k2.
Proof.
  induction W as [|[k0 v0] W IH]; simpl; [tauto|].
  intros Hnd H1 H2. inversion Hnd; subst.
  destruct H1 as [H1|H1], H2 as [H2|H2].
  - congruence.
  - injection H1 as -> ->. exfalso. apply H3.
    apply (in_map snd) in H2. exact H2.
  - injection H2 as -> ->. exfalso. apply H3.
    apply (in_map snd) in H1. exact H1.
  - auto.
Qed.

Lemma id_writes_fst items index : map fst (id_writes items index) = items.
Proof. apply combine_fst. now rewrite ids_from_length. Qed.

Lemma id_writes_snd items index :
  map snd (id_writes items index) = ids_from index (List.length items).
Proof. apply combine_snd. now rewrite ids_from_length. Qed.

Lemma exact_inverse_reverse_of V :
  NoDup (map fst V) ->
  (forall e, In e V -> exists n, snd e = VNum n) ->
  injective_vocab V ->
  exact_inverse V (reverse_of V).
Proof.
  intros Hnd Hnum Hinj.
  assert (HR : NoDup (map fst (map swap_entry V))).
  { rewrite map_map. apply NoDup_map_NoDup_ForallPairs.
    - intros [k1 v1] [k2 v2] H1 H2 E. simpl in E.
      destruct (Hnum _ H1) as [n1 E1], (Hnum _ H2) as [n2 E2].
      simpl in E1, E2. subst v1 v2. simpl in E.
      apply num_to_string_inj in E. subst n2.
      f_equal. apply (Hinj k1 k2 (VNum n1)); apply In_own_lookup; assumption.
    - apply (NoDup_map_inv fst), Hnd. }
  intros key v. unfold reverse_of, from_entries.
  change (fold_left _ (map swap_entry V) [])
    with (define_all (map swap_entry V) []).
  split.
  - intros H. apply define_all_lookup_in in H.
    destruct H as [H|H]; [|discriminate].
    apply in_map_iff in H. destruct H as ([k x] & E & Hin).
    destruct (Hnum _ Hin) as [n En]. simpl in En. subst x.
    injection E as <- <-. exists k, n. repeat split.
    apply In_own_lookup; assumption.
  - intros (k & n & H & -> & ->).
    apply define_all_lookup_NoDup; [exact HR|].
    apply in_map_iff. exists (k, VNum n). split; [reflexivity|].
    apply own_lookup_In, H.
Qed.

(** A vocabulary built from scratch: the reserved tokens, then [items]
    numbered from 4. *)
Section FreshVocabulary.
Variable items : list jsstring.
Hypothesis items_NoDup : NoDup items.
Hypothesis items_plain :
  forall x, In x items ->
            x <> proto_key /\ ~ In x reserved_tokens.

Let V := fst (assign_ids items (add_special_tokens []) 4).
Let W := special_writes ++ id_writes items 4.

Lemma fresh_vocab_writes : V = set_all W [].
Proof.
  unfold V, W. rewrite assign_ids_spec, add_special_tokens_writes. simpl fst.
  rewrite set_all_app. reflexivity.
Qed.

Lemma fresh_vocab_keys : map fst W = reserved_tokens ++ items.
Proof. unfold W. rewrite map_app, id_writes_fst. reflexivity. Qed.

Lemma fresh_vocab_values :
  map snd W = ids_from 0 (4 + List.length items).
Proof.
  unfold W. rewrite map_app, id_writes_snd, ids_from_app. reflexivity.
Qed.

Lemma fresh_vocab_keys_NoDup : NoDup (map fst W).
Proof.
  rewrite fresh_vocab_keys. apply NoDup_app.
  - repeat constructor; simpl; intuition discriminate.
  - exact items_NoDup.
  - intros a Ha Hb. apply (items_plain a Hb). exact Ha.
Qed.

Lemma fresh_vocab_keys_plain : forall e, In e W -> fst e <> proto_key.
Proof.
  intros e He. apply (in_map fst) in He. rewrite fresh_vocab_keys in He.
  apply in_app_or in He. destruct He as [He|He].
  - simpl in He. intros E. rewrite E in He. intuition discriminate.
  - apply (items_plain _ He).
Qed.

Lemma fresh_vocab_lookup k v : own_lookup V k = Some v <-> In (k, v) W.
Proof.
  rewrite fresh_vocab_writes.
  apply fresh_writes; [apply fresh_vocab_keys_NoDup | apply fresh_vocab_keys_plain].
Qed.

Lemma fresh_vocab_size : keys_length V = 4 + Z.of_nat (List.length items).
Proof.
  unfold keys_length. rewrite fresh_vocab_writes.
  destruct (fresh_writes W fresh_vocab_keys_NoDup fresh_vocab_keys_plain)
    as (_ & -> & _).
  unfold W. rewrite length_app. unfold id_writes.
  rewrite length_combine, ids_from_length, Nat.min_id. simpl List.length. lia.
Qed.

Lemma fresh_vocab_keys_unique : NoDup (map fst V).
Proof.
  rewrite fresh_vocab_writes.
  apply fresh_writes; [apply fresh_vocab_keys_NoDup | apply fresh_vocab_keys_plain].
Qed.

Lemma fresh_vocab_numbers e : In e V -> exists n, snd e = VNum n.
Proof.
  intros He. destruct e as [k v].
  apply In_own_lookup in He; [|apply fresh_vocab_keys_unique].
  apply fresh_vocab_lookup in He. apply (in_map snd) in He.
  rewrite fresh_vocab_values in He. cbn [snd] in He.
  apply ids_from_In in He. destruct He as (m & -> & _).
  exists m. reflexivity.
Qed.

Lemma fresh_vocab_injective : injective_vocab V.
Proof.
  intros k1 k2 v H1 H2. apply fresh_vocab_lookup in H1, H2.
  apply (NoDup_snd_inj W k1 k2 v); auto.
  rewrite fresh_vocab_values. apply ids_from_NoDup.
Qed.

Lemma fresh_vocab_contiguous : contiguous_ids V.
Proof.
  intros n. rewrite fresh_vocab_size. split.
  - intros (k & H). apply fresh_vocab_lookup in H.
    apply (in_map snd) in H. rewrite fresh_vocab_values in H. cbn [snd] in H.
    apply ids_from_In in H. destruct H as (m & [= <-] & H). lia.
  - intros H.
    assert (Hin : In (VNum n) (map snd W)).
    { rewrite fresh_vocab_values. apply ids_from_In. exists n. split; auto. lia. }
    apply in_map_iff in Hin. destruct Hin as ([k v] & E & Hin).
    simpl in E. subst v. exists k. apply fresh_vocab_lookup, Hin.
Qed.

Lemma fresh_vocab_inverse : exact_inverse V (reverse_of V).
Proof.
  apply exact_inverse_reverse_of.
  - apply fresh_vocab_keys_unique.
  - apply fresh_vocab_numbers.
  - apply fresh_vocab_injective.
Qed.

Lemma fresh_vocab_classify k n :
  own_lookup V k = Some (VNum n) ->
  (In k items /\ 4 <= n) \/ In (k, VNum n) special_writes.
Proof.
  intros H. apply fresh_vocab_lookup in H. unfold W in H.
  apply in_app_or in H. destruct H as [H|H]; [right; exact H|left].
  split.
  - apply (in_map fst) in H. rewrite id_writes_fst in H. exact H.
  - apply in_combine_r in H. apply ids_from_In in H.
    destruct H as (m & [= <-] & H). lia.
Qed.
End FreshVocabulary.

End VocabularyFacts.

Section ReservedFacts.

Lemma reserved_size o : reserved_present o -> 4 <= keys_length o.
Proof.
  intros (H0 & H1 & H2 & H3). unfold keys_length.
  assert (L : (List.length reserved_tokens <= List.length (map fst o))%nat).
  { apply NoDup_incl_length.
    - repeat constructor; simpl; intuition discriminate.
    - intros k [<-|[<-|[<-|[<-|[]]]]];
        match goal with
        | H : own_lookup o ?k = Some ?v |- In ?k _ =>
            apply own_lookup_In in H; apply (in_map fst) in H; exact H
        end. }
  rewrite length_map in L. simpl in L. lia.
Qed.

Lemma reserved_after_special o : reserved_present (add_special_tokens o).
Proof.
  unfold reserved_present, add_special_tokens.
  repeat split; rewrite !own_lookup_set; reflexivity.
Qed.

Lemma reserved_after_assign items o index :
  (forall x, In x items -> ~ In x reserved_tokens) ->
  reserved_present o ->
  reserved_present (fst (assign_ids items o index)).
Proof.
  intros Hitems (H0 & H1 & H2 & H3).
  rewrite assign_ids_spec. cbn [fst].
  assert (G : forall k, In k reserved_tokens ->
                        own_lookup (set_all (id_writes items index) o) k
                        = own_lookup o k).
  { intros k Hk. rewrite set_all_define_all.
    apply define_all_lookup_notin. intros Hin.
    apply in_map_iff in Hin. destruct Hin as (e & <- & He).
    apply filter_In in He. destruct He as [He _].
    apply (in_map fst) in He. rewrite id_writes_fst in He.
    apply (Hitems _ He), Hk. }
  unfold reserved_present.
  rewrite !G by (simpl; tauto). auto.
Qed.

Lemma short_plain x :
  (List.length x <= 2)%nat -> x <> proto_key /\ ~ In x reserved_tokens.
Proof.
  intros H. split.
  - apply short_not_proto, H.
  - intros [<-|[<-|[<-|[<-|[]]]]]; vm_compute in H; lia.
Qed.

End ReservedFacts.

Section CharacterFacts.

Lemma character_items_NoDup texts :
  NoDup (CharacterTokenizer.collect_chars texts).
Proof. apply collect_NoDup. constructor. Qed.

Lemma character_items_short texts x :
  In x (CharacterTokenizer.collect_chars texts) ->
  (1 <= List.length x <= 2)%nat.
Proof.
  intros H. apply collect_In in H. destruct H as [[]|(t & _ & H)].
  apply (code_point_length _ _ H).
Qed.

Lemma character_items_plain texts x :
  In x (CharacterTokenizer.collect_chars texts) ->
  x <> proto_key /\ ~ In x reserved_tokens.
Proof.
  intros H. apply short_plain. apply character_items_short in H. lia.
Qed.

(** One unit through [encode], for a vocabulary whose corpus tokens
    have non-zero ids and whose [<UNK>] is 1. *)
Lemma encode_unit vocab unit :
  own_lookup vocab UNK = Some (VNum 1) ->
  (forall n, own_lookup vocab unit = Some (VNum n) -> n <> 0) ->
  (forall v, own_lookup vocab unit = Some v -> exists n, v = VNum n) ->
  is_inherited_name unit = false ->
  js_or (obj_get vocab unit) (obj_get vocab UNK) = id_or vocab 1 unit.
Proof.
  intros Hunk Hnz Hnum Hinh. unfold id_or.
  destruct (own_lookup vocab unit) as [v|] eqn:E.
  - rewrite (obj_get_own _ _ _ E).
    destruct (Hnum v eq_refl) as [n ->].
    unfold js_or. simpl. specialize (Hnz n eq_refl).
    destruct (Z.eqb_spec n 0); [contradiction|reflexivity].
  - rewrite (obj_get_absent _ _ E Hinh). unfold js_or. simpl.
    apply obj_get_own, Hunk.
Qed.

End CharacterFacts.

Section SortFacts.
Context {A : Type} (cmp : A -> A -> Z).

Lemma sort_insert_perm x l : Permutation (sort_insert cmp x l) (x :: l).
Proof.
  induction l as [|y l IH]; simpl; [reflexivity|].
  destruct (Z.leb (cmp y x) 0); [|reflexivity].
  rewrite IH. apply perm_swap.
Qed.

Lemma js_sort_perm l : Permutation (js_sort cmp l) l.
Proof.
  unfold js_sort.
  assert (G : forall acc, Permutation
              (fold_left (fun acc x => sort_insert cmp x acc) l acc)
              (l ++ acc)).
  { induction l as [|x l IH]; intros acc; simpl; [reflexivity|].
    rewrite IH, sort_insert_perm. symmetry. apply Permutation_middle. }
  rewrite G, app_nil_r. reflexivity.
Qed.

Lemma slice0_firstn (l : list A) e : exists n, slice0 l e = firstn n l.
Proof. unfold slice0. eauto. Qed.
End SortFacts.

Section WordFacts.
Variable toLowerCase : jsstring -> jsstring.

Lemma flush_word_shape cur w :
  forallb is_word_char cur = true -> In w (flush_word cur) -> word_shape w.
Proof.
  unfold flush_word. destruct cur as [|c cur]; [intros _ []|].
  intros H [<-|[]]. left.
  apply forallb_forall. intros x Hx. apply in_rev in Hx.
  rewrite forallb_forall in H. apply H, Hx.
Qed.

Lemma match_words_shape s cur w :
  forallb is_word_char cur = true -> In w (match_words s cur) -> word_shape w.
Proof.
  revert cur; induction s as [|c s IH]; intros cur Hcur; simpl.
  - apply flush_word_shape, Hcur.
  - destruct (is_word_char c) eqn:E.
    + apply IH. simpl. now rewrite E, Hcur.
    + rewrite !in_app_iff. intros [H|[H|H]].
      * apply (flush_word_shape cur); assumption.
      * destruct (is_white_space c); [destruct H|].
        destruct H as [<-|[]]. right; reflexivity.
      * apply (IH []); [reflexivity|exact H].
Qed.

Lemma words_of_shape text w :
  In w (WordTokenizer.words_of toLowerCase text) -> word_shape w.
Proof. apply match_words_shape. reflexivity. Qed.

Lemma reserved_not_word x : In x reserved_tokens -> ~ word_shape x.
Proof.
  intros [<-|[<-|[<-|[<-|[]]]]] [H|H]; vm_compute in H; discriminate.
Qed.

(** The keys of [wordFrequency]. *)
Lemma count_word_keys o w k :
  In k (map fst (WordTokenizer.count_word o w)) ->
  (k = w /\ k <> proto_key) \/ In k (map fst o).
Proof.
  unfold WordTokenizer.count_word. intros H.
  apply in_map_iff in H. destruct H as (e & <- & He).
  apply set_In in He. destruct He as [[-> Hp]|He]; [left; auto|right].
  apply in_map, He.
Qed.

Lemma count_words_keys texts k :
  In k (map fst (WordTokenizer.count_words toLowerCase texts)) ->
  k <> proto_key /\ word_shape k.
Proof.
  unfold WordTokenizer.count_words.
  assert (G : forall o,
             (forall k, In k (map fst o) -> k <> proto_key /\ word_shape k) ->
             forall k,
               In k (map fst
                       (fold_left
                          (fun wf text =>
                             fold_left WordTokenizer.count_word
                               (WordTokenizer.words_of toLowerCase text) wf)
                          texts o)) ->
               k <> proto_key /\ word_shape k).
  { induction texts as [|text texts IH]; intros o Ho; simpl; [exact Ho|].
    apply IH.
    assert (F : forall ws o,
               (forall w, In w ws -> word_shape w) ->
               (forall k, In k (map fst o) -> k <> proto_key /\ word_shape k) ->
               forall k, In k (map fst (fold_left WordTokenizer.count_word ws o)) ->
                         k <> proto_key /\ word_shape k).
    { induction ws as [|w ws IHw]; intros o' Hws Ho'; simpl; [exact Ho'|].
      apply IHw; [intros; apply Hws; simpl; auto|].
      intros k' Hk'. apply count_word_keys in Hk'.
      destruct Hk' as [[-> Hp]|Hk']; [|auto].
      split; [exact Hp|]. apply Hws. simpl; auto. }
    apply F; [|exact Ho]. intros w. apply words_of_shape. }
  apply G. intros k' [].
Qed.

Lemma count_words_NoDup texts :
  NoDup (map fst (WordTokenizer.count_words toLowerCase texts)).
Proof.
  unfold WordTokenizer.count_words.
  assert (G : forall o, NoDup (map fst o) ->
             NoDup (map fst
                      (fold_left
                         (fun wf text =>
                            fold_left WordTokenizer.count_word
                              (WordTokenizer.words_of toLowerCase text) wf)
                         texts o))).
  { induction texts as [|text texts IH]; intros o Ho; simpl; [exact Ho|].
    apply IH. generalize (WordTokenizer.words_of toLowerCase text).
    intros ws. revert o Ho.
    induction ws as [|w ws IHw]; intros o Ho; simpl; [exact Ho|].
    apply IHw. apply set_NoDup, Ho. }
  apply G. constructor.
Qed.

Lemma firstn_In {B} n (l : list B) x : In x (firstn n l) -> In x l.
Proof.
  intros H. rewrite <- (firstn_skipn n l). apply in_or_app. auto.
Qed.

Lemma firstn_NoDup {B} n (l : list B) : NoDup l -> NoDup (firstn n l).
Proof.
  revert n; induction l as [|x l IH]; intros [|n] H; simpl;
    try constructor.
  - inversion H; subst. intros Hin. apply firstn_In in Hin. contradiction.
  - inversion H; subst. auto.
Qed.

Lemma word_items_sub maxVocabSize texts x :
  In x (word_items toLowerCase maxVocabSize texts) ->
  In x (map fst (WordTokenizer.count_words toLowerCase texts)).
Proof.
  unfold word_items. intros H.
  destruct (slice0_firstn
              (js_sort WordTokenizer.by_frequency
                 (WordTokenizer.count_words toLowerCase texts))
              (maxVocabSize - 4)) as [n E].
  rewrite E in H. rewrite <- firstn_map in H. apply firstn_In in H.
  revert H. apply Permutation_in, Permutation_map, js_sort_perm.
Qed.

Lemma word_items_NoDup maxVocabSize texts :
  NoDup (word_items toLowerCase maxVocabSize texts).
Proof.
  unfold word_items.
  destruct (slice0_firstn
              (js_sort WordTokenizer.by_frequency
                 (WordTokenizer.count_words toLowerCase texts))
              (maxVocabSize - 4)) as [n E].
  rewrite E, <- firstn_map. apply firstn_NoDup.
  apply (Permutation_NoDup
           (l := map fst (WordTokenizer.count_words toLowerCase texts))).
  - symmetry. apply Permutation_map, js_sort_perm.
  - apply count_words_NoDup.
Qed.

Lemma word_items_plain maxVocabSize texts x :
  In x (word_items toLowerCase maxVocabSize texts) ->
  x <> proto_key /\ ~ In x reserved_tokens.
Proof.
  intros H. apply word_items_sub, count_words_keys in H.
  destruct H as [Hp Hs]. split; [exact Hp|].
  intros Hr. apply (reserved_not_word x Hr Hs).
Qed.

End WordFacts.

Section RegExpFacts.

Lemma compile_modelled source :
  (List.length source <= 2)%nat -> compile source <> Unmodelled.
Proof.
  destruct source as [|c1 [|c2 [|c3 r]]]; simpl; intros L; try lia;
    unfold compile;
    repeat match goal with
      | |- context [if ?b then _ else _] => destruct b
      | |- context [match single_of ?x with _ => _ end] => destruct (single_of x)
      | |- context [match quantifier_of ?x with _ => _ end] =>
          destruct (quantifier_of x)
      end; discriminate.
Qed.

Lemma first_plus_second_pair a b :
  (List.length (first_plus_second [a; 32%N; b]) <= 2)%nat.
Proof.
  unfold first_plus_second. simpl.
  destruct (N.eqb a 32), (N.eqb b 32); simpl; lia.
Qed.

Lemma first_plus_second_short p :
  pair_shape p -> (List.length (first_plus_second p) <= 2)%nat.
Proof. intros (a & b & ->). apply first_plus_second_pair. Qed.

Lemma replace_modelled source template subject :
  (List.length source <= 2)%nat ->
  regexp_replace_all source template subject <> Unmodelled.
Proof.
  intros L. unfold regexp_replace_all.
  pose proof (compile_modelled source L).
  destruct (compile source); simpl; congruence.
Qed.

Lemma replace_returns source template subject :
  (exists d, compile source = Returns d) ->
  exists r, regexp_replace_all source template subject = Returns r.
Proof.
  intros [d E]. unfold regexp_replace_all. rewrite E. simpl. eauto.
Qed.

Lemma replace_returns_inv source template subject r :
  regexp_replace_all source template subject = Returns r ->
  exists d, compile source = Returns d.
Proof.
  unfold regexp_replace_all. destruct (compile source); simpl;
    try discriminate. eauto.
Qed.

Lemma map_outcome_modelled {A B} (f : A -> outcome B) l :
  (forall x, f x <> Unmodelled) -> map_outcome f l <> Unmodelled.
Proof.
  intros Hf. induction l as [|x l IH]; simpl; [discriminate|].
  specialize (Hf x). destruct (f x); simpl; try congruence.
  destruct (map_outcome f l); simpl; congruence.
Qed.

Lemma map_outcome_head {A B} (f : A -> outcome B) x l ys :
  map_outcome f (x :: l) = Returns ys -> exists y, f x = Returns y.
Proof.
  simpl. destruct (f x); simpl; try discriminate. eauto.
Qed.

End RegExpFacts.

Section PairFacts.
Import SimpleBPETokenizer.

Lemma map_set_keys k v m x :
  In x (map fst (map_set k v m)) -> x = k \/ In x (map fst m).
Proof.
  induction m as [|[k0 v0] m IH]; simpl.
  - intros [<-|[]]; auto.
  - destruct (str_eqb k0 k) eqn:E; simpl.
    + tauto.
    + intros [<-|H]; auto. destruct (IH H); auto.
Qed.

Lemma pairs_of_word_shape word p : In p (pairs_of_word word) -> pair_shape p.
Proof.
  induction word as [|a word IH]; simpl; [tauto|].
  destruct word as [|b word]; [intros []|].
  intros [<-|H]; [exists a, b; reflexivity | auto].
Qed.

Lemma pair_frequencies_shape words p :
  In p (map fst (getPairFrequencies words)) -> pair_shape p.
Proof.
  unfold getPairFrequencies.
  assert (G : forall m,
             (forall p, In p (map fst m) -> pair_shape p) ->
             forall p,
               In p (map fst
                 (fold_left
                    (fun pairs word =>
                       fold_left
                         (fun pairs pair_ =>
                            map_set pair_
                              (js_add (js_or (map_get pairs pair_) (VNum 0))
                                 (VNum 1)) pairs)
                         (pairs_of_word word) pairs)
                    words m)) -> pair_shape p).
  { induction words as [|w words IH]; intros m Hm; simpl; [exact Hm|].
    apply IH.
    pose proof (pairs_of_word_shape w) as Hw. revert m Hm Hw.
    generalize (pairs_of_word w). intros ps.
    induction ps as [|q ps IHp]; intros m Hm Hw; simpl; [exact Hm|].
    apply IHp; [|intros; apply Hw; simpl; auto].
    intros x Hx. apply map_set_keys in Hx. destruct Hx as [->|Hx]; [|auto].
    apply Hw. simpl; auto. }
  apply G. intros x [].
Qed.

Lemma most_frequent_shape words p v rest :
  js_sort by_count (getPairFrequencies words) = (p, v) :: rest ->
  pair_shape p.
Proof.
  intros E. apply (pair_frequencies_shape words).
  apply (Permutation_in (l := map fst (js_sort by_count (getPairFrequencies words)))).
  - apply Permutation_map, js_sort_perm.
  - rewrite E. simpl. auto.
Qed.

Lemma most_frequent_words words e rest :
  js_sort by_count (getPairFrequencies words) = e :: rest -> words <> [].
Proof. intros E ->. discriminate E. Qed.

End PairFacts.

Section LearningFacts.
Import SimpleBPETokenizer.

Lemma token_writes_fst ps index :
  map fst (token_writes ps index) = map first_plus_second ps.
Proof.
  unfold token_writes. apply combine_fst.
  now rewrite ids_from_length, length_map.
Qed.

Lemma token_writes_snd ps index :
  map snd (token_writes ps index) = ids_from index (List.length ps).
Proof.
  unfold token_writes. apply combine_snd.
  now rewrite ids_from_length, length_map.
Qed.

(** The loop writes the vocabulary and the merge table but never reads
    them: what it leaves is a run of assignments on what it found. *)
Lemma learn_merges_writes remaining st :
  bind (learn_merges remaining st) (fun st' => Returns (learnt st'))
  = bind (learned_pairs remaining (l_words st))
      (fun ps =>
         Returns (set_all (token_writes ps (l_vocabIndex st)) (l_vocab st),
                  set_all (merge_writes ps) (l_merges st),
                  l_vocabIndex st + Z.of_nat (List.length ps))).
Proof.
  revert st. induction remaining as [|n IH]; intros st.
  - simpl. unfold learnt. now rewrite Z.add_0_r.
  - cbn [learn_merges learned_pairs].
    destruct (js_sort by_count (getPairFrequencies (l_words st)))
      as [|[p v] rest].
    + simpl. unfold learnt. now rewrite Z.add_0_r.
    + destruct (map_outcome _ (l_words st)) as [words'| |]; simpl;
        try reflexivity.
      rewrite IH. cbn [l_words l_vocab l_merges l_vocabIndex].
      destruct (learned_pairs n words') as [ps| |]; simpl; try reflexivity.
      do 2 f_equal. lia.
Qed.

Lemma buildVocabulary_writes this texts :
  buildVocabulary this texts
  = bind (learned_pairs (Z.to_nat (numMerges this)) (split_words texts))
      (fun ps =>
         let chars := collect_chars (split_words texts) in
         let V := set_all
                    (id_writes chars 0
                     ++ token_writes ps (Z.of_nat (List.length chars)))
                    (vocab this) in
         Returns (mk (numMerges this) V
                     (set_all (merge_writes ps) (merges this))
                     (reverse_of V))).
Proof.
  unfold buildVocabulary. rewrite assign_ids_spec.
  set (st := mkLearning _ _ _ _).
  pose proof (learn_merges_writes (Z.to_nat (numMerges this)) st) as H.
  destruct (learn_merges (Z.to_nat (numMerges this)) st) as [st'| |];
    destruct (learned_pairs (Z.to_nat (numMerges this)) (l_words st))
      as [ps| |] eqn:E; simpl in H; try discriminate;
    unfold st in E; cbn [l_words] in E; rewrite E; simpl; try reflexivity.
  injection H as H1 H2 H3. unfold st in *.
  cbn [l_words l_vocab l_merges l_vocabIndex] in *.
  rewrite set_all_app. rewrite ?Z.add_0_l in H1. rewrite H1, H2. reflexivity.
Qed.

(** Every pair the loop selects is a key of the pair map, and the
    pattern built from it compiled. *)
Lemma learned_pairs_sound remaining words ps :
  learned_pairs remaining words = Returns ps ->
  forall p, In p ps ->
            pair_shape p /\ exists d, compile (first_plus_second p) = Returns d.
Proof.
  revert words ps. induction remaining as [|n IH]; intros words ps.
  - simpl. intros [= <-] p [].
  - cbn [learned_pairs].
    destruct (js_sort by_count (getPairFrequencies words))
      as [|[q v] rest] eqn:E.
    + intros [= <-] p [].
    + destruct (map_outcome _ words) as [words'| |] eqn:M; simpl;
        try discriminate.
      destruct (learned_pairs n words') as [ps'| |] eqn:L; simpl;
        try discriminate.
      intros [= <-] p [<-|Hp].
      * split; [apply (most_frequent_shape _ _ _ _ E)|].
        destruct words as [|w words];
          [exfalso; apply (most_frequent_words _ _ _ E); reflexivity|].
        apply map_outcome_head in M. destruct M as [y My].
        apply (replace_returns_inv _ _ _ _ My).
      * apply (IH words' ps' L p Hp).
Qed.

Lemma learned_pairs_modelled remaining words :
  learned_pairs remaining words <> Unmodelled.
Proof.
  revert words. induction remaining as [|n IH]; intros words.
  - discriminate.
  - cbn [learned_pairs].
    destruct (js_sort by_count (getPairFrequencies words))
      as [|[q v] rest] eqn:E; [discriminate|].
    pose proof (map_outcome_modelled
                  (fun word => regexp_replace_all (first_plus_second q)
                                 (first_plus_second q) word) words) as M.
    destruct (map_outcome _ words) as [words'| |]; simpl.
    + specialize (IH words').
      destruct (learned_pairs n words'); simpl; congruence.
    + discriminate.
    + exfalso. apply M; [|reflexivity].
      intros x. apply replace_modelled, first_plus_second_short.
      apply (most_frequent_shape _ _ _ _ E).
Qed.

(** The build stays within the modelled fragment of the runtime:
    every pattern it hands to [RegExp] has at most two code units. *)
Lemma buildVocabulary_modelled this texts :
  buildVocabulary this texts <> Unmodelled.
Proof.
  rewrite buildVocabulary_writes.
  pose proof (learned_pairs_modelled (Z.to_nat (numMerges this))
                (split_words texts)) as M.
  destruct (learned_pairs _ _); simpl; congruence.
Qed.

(** Without characters there is nothing to learn. *)
Lemma no_chars_no_pairs remaining words :
  collect_chars words = [] -> learned_pairs remaining words = Returns [].
Proof.
  intros H.
  assert (Hw : forall w, In w words -> w = []).
  { intros w Hw. destruct w as [|c w]; [reflexivity|exfalso].
    assert (Hc : exists cp, In cp (code_points (c :: w))).
    { simpl. destruct w as [|d w]; [eexists; left; reflexivity|].
      destruct (is_high_surrogate c && is_low_surrogate d);
        eexists; left; reflexivity. }
    destruct Hc as [cp Hcp].
    assert (Hin : In cp (collect_chars words)).
    { apply (collect_In code_points). right. eauto. }
    rewrite H in Hin. destruct Hin. }
  assert (Hp : getPairFrequencies words = []).
  { unfold getPairFrequencies. clear H.
    assert (G : forall m : pair_map,
               fold_left
                 (fun pairs word =>
                    fold_left
                      (fun pairs pair_ =>
                         map_set pair_
                           (js_add (js_or (map_get pairs pair_) (VNum 0))
                              (VNum 1)) pairs)
                      (pairs_of_word word) pairs)
                 words m = m).
    { induction words as [|w words IH]; intros m; simpl; [reflexivity|].
      rewrite (Hw w) by (simpl; auto). simpl.
      apply IH. intros; apply Hw; simpl; auto. }
    apply G. }
  destruct remaining; simpl; [reflexivity|]. rewrite Hp. reflexivity.
Qed.

End LearningFacts.

Section BPEFacts.
Import SimpleBPETokenizer.

Lemma code_point_single s cp :
  In cp (code_points s) -> single_character cp.
Proof.
  unfold single_character.
  induction s as [|c|c d s E IH|c d s E IH] using code_points_ind.
  - intros [].
  - intros [<-|[]]. reflexivity.
  - rewrite code_points_pair by exact E. intros [<-|H]; [|auto].
    rewrite code_points_pair by exact E. reflexivity.
  - rewrite code_points_unit by exact E. intros [<-|H]; [reflexivity|auto].
Qed.

Lemma built_inv this texts tk :
  buildVocabulary this texts = Returns tk ->
  exists ps,
    learned_pairs (Z.to_nat (numMerges this)) (split_words texts) = Returns ps
    /\ tk = mk (numMerges this)
              (set_all (bpe_writes texts ps) (vocab this))
              (set_all (merge_writes ps) (merges this))
              (reverse_of (set_all (bpe_writes texts ps) (vocab this))).
Proof.
  rewrite buildVocabulary_writes.
  destruct (learned_pairs _ _) as [ps| |]; simpl; try discriminate.
  intros [= <-]. exists ps. split; reflexivity.
Qed.

Lemma bpe_writes_values texts ps :
  map snd (bpe_writes texts ps)
  = ids_from 0 (List.length (collect_chars (split_words texts))
                + List.length ps).
Proof.
  unfold bpe_writes.
  rewrite map_app, id_writes_snd, token_writes_snd, ids_from_app.
  reflexivity.
Qed.

Lemma bpe_chars_single texts x :
  In x (collect_chars (split_words texts)) -> single_character x.
Proof.
  intros H. apply (collect_In code_points) in H.
  destruct H as [[]|(w & _ & H)]. apply (code_point_single _ _ H).
Qed.

Lemma bpe_writes_keys_short remaining texts ps k :
  learned_pairs remaining (split_words texts) = Returns ps ->
  In k (map fst (bpe_writes texts ps)) -> (List.length k <= 2)%nat.
Proof.
  intros L. unfold bpe_writes.
  rewrite map_app, id_writes_fst, token_writes_fst, in_app_iff.
  intros [H|H].
  - apply (collect_In code_points) in H.
    destruct H as [[]|(w & _ & H)]. apply code_point_length in H. lia.
  - apply in_map_iff in H. destruct H as (p & <- & Hp).
    apply first_plus_second_short.
    apply (learned_pairs_sound _ _ _ L p Hp).
Qed.

Section Built.
Variables (n : Z) (texts : list jsstring) (tk : t).
Hypothesis built : buildVocabulary (new n) texts = Returns tk.

Lemma built_fresh :
  exists ps,
    learned_pairs (Z.to_nat n) (split_words texts) = Returns ps
    /\ vocab tk = set_all (bpe_writes texts ps) []
    /\ merges tk = set_all (merge_writes ps) []
    /\ reverseVocab tk = reverse_of (vocab tk).
Proof.
  destruct (built_inv _ _ _ built) as (ps & L & ->).
  exists ps. repeat split. exact L.
Qed.

Lemma bpe_lookup_written k v :
  own_lookup (vocab tk) k = Some v ->
  exists ps, learned_pairs (Z.to_nat n) (split_words texts) = Returns ps
             /\ In (k, v) (bpe_writes texts ps).
Proof.
  destruct built_fresh as (ps & L & -> & _). intros H.
  apply set_all_lookup_in in H. destruct H as [H|H]; [eauto|discriminate].
Qed.

Lemma bpe_keys_unique : NoDup (map fst (vocab tk)).
Proof.
  destruct built_fresh as (ps & L & -> & _).
  apply set_all_NoDup. constructor.
Qed.

Lemma bpe_numbers e : In e (vocab tk) -> exists i, snd e = VNum i.
Proof.
  destruct built_fresh as (ps & L & E & _). rewrite E. intros H.
  apply set_all_In in H. destruct H as [H|[]].
  apply (in_map snd) in H. rewrite bpe_writes_values in H.
  apply ids_from_In in H. destruct H as (m & -> & _). eauto.
Qed.

Lemma bpe_injective : injective_vocab (vocab tk).
Proof.
  intros k1 k2 v H1 H2.
  destruct (bpe_lookup_written _ _ H1) as (ps & L & I1).
  destruct (bpe_lookup_written _ _ H2) as (ps' & L' & I2).
  assert (ps' = ps) by congruence. subst ps'.
  apply (NoDup_snd_inj (bpe_writes texts ps) k1 k2 v); auto.
  rewrite bpe_writes_values. apply ids_from_NoDup.
Qed.

Lemma bpe_inverse : exact_inverse (vocab tk) (reverseVocab tk).
Proof.
  destruct built_fresh as (ps & L & E & E' & ->).
  apply exact_inverse_reverse_of.
  - apply bpe_keys_unique.
  - apply bpe_numbers.
  - apply bpe_injective.
Qed.

Lemma bpe_keys_short k v :
  own_lookup (vocab tk) k = Some v -> (List.length k <= 2)%nat.
Proof.
  intros H. destruct (bpe_lookup_written _ _ H) as (ps & L & I).
  apply (bpe_writes_keys_short _ _ _ _ L). apply (in_map fst) in I. exact I.
Qed.

(** Id 0 goes to the first character and to nothing else. *)
Lemma bpe_zero_single tok :
  own_lookup (vocab tk) tok = Some (VNum 0) -> single_character tok.
Proof.
  intros H. destruct (bpe_lookup_written _ _ H) as (ps & L & I).
  unfold bpe_writes in I. apply in_app_or in I. destruct I as [I|I].
  - apply (in_map fst) in I. rewrite id_writes_fst in I.
    apply (bpe_chars_single _ _ I).
  - exfalso. pose proof I as I'.
    apply (in_map snd) in I. rewrite token_writes_snd in I. cbn [snd] in I.
    apply ids_from_In in I. destruct I as (m & [= <-] & Hm).
    assert (E : collect_chars (split_words texts) = []).
    { destruct (collect_chars (split_words texts)); [reflexivity|].
      simpl List.length in Hm. lia. }
    rewrite (no_chars_no_pairs _ _ E) in L. injection L as <-.
    destruct I'.
Qed.

Lemma bpe_merges_compile :
  forall e, In e (merges tk) ->
            exists d, compile (first_plus_second (fst e)) = Returns d.
Proof.
  destruct built_fresh as (ps & L & _ & -> & _). intros e H.
  apply set_all_In in H. destruct H as [H|[]].
  apply in_map_iff in H. destruct H as (p & <- & Hp). simpl.
  apply (learned_pairs_sound _ _ _ L p Hp).
Qed.
End Built.

Lemma apply_merges_returns entries text :
  (forall e, In e entries ->
             exists d, compile (first_plus_second (fst e)) = Returns d) ->
  exists result, apply_merges entries text = Returns result.
Proof.
  revert text. induction entries as [|[p m] entries IH]; intros text H; simpl.
  - eauto.
  - destruct (replace_returns (first_plus_second p) (to_string m) text)
      as [r ->].
    + apply (H (p, m)). simpl; auto.
    + simpl. apply IH. intros e He. apply H. simpl; auto.
Qed.

(** One character through [encode]. *)
Lemma bpe_encode_unit V cp :
  (forall v, own_lookup V cp = Some v -> exists i, v = VNum i) ->
  is_inherited_name cp = false ->
  js_or (obj_get V cp) (VNum 0) = id_or V 0 cp.
Proof.
  intros Hnum Hinh. unfold id_or.
  destruct (own_lookup V cp) as [v|] eqn:E.
  - rewrite (obj_get_own _ _ _ E). destruct (Hnum v eq_refl) as [i ->].
    unfold js_or. simpl. destruct (Z.eqb_spec i 0); [subst|]; reflexivity.
  - rewrite (obj_get_absent _ _ E Hinh). reflexivity.
Qed.

End BPEFacts.

Section CharacterVocabulary.
Variable texts : list jsstring.

Let tk := CharacterTokenizer.buildVocabulary CharacterTokenizer.new texts.
Let items := CharacterTokenizer.collect_chars texts.

Lemma character_well_formed :
  well_formed_vocabulary (CharacterTokenizer.vocab tk)
    (CharacterTokenizer.reverseVocab tk).
Proof.
  pose proof (character_items_NoDup texts) as Hnd.
  pose proof (character_items_plain texts) as Hpl.
  split; [|split; [|split]].
  - apply (fresh_vocab_injective items Hnd Hpl).
  - apply (fresh_vocab_inverse items Hnd Hpl).
  - apply (fresh_vocab_contiguous items Hnd Hpl).
  - intros k n H Hr.
    destruct (fresh_vocab_classify items Hnd Hpl k n H) as [[_ G]|G];
      [exact G|].
    exfalso. apply Hr. apply (in_map fst) in G. exact G.
Qed.

(** A code point of the vocabulary has a number from 4 on. *)
Lemma character_code_point_id s cp v :
  In cp (code_points s) ->
  own_lookup (CharacterTokenizer.vocab tk) cp = Some v ->
  exists n, v = VNum n /\ 4 <= n.
Proof.
  intros Hcp H.
  pose proof (character_items_NoDup texts) as Hnd.
  pose proof (character_items_plain texts) as Hpl.
  assert (Hv : exists n, v = VNum n).
  { apply own_lookup_In in H.
    apply (fresh_vocab_numbers items Hnd Hpl) in H. exact H. }
  destruct Hv as [n ->]. exists n. split; [reflexivity|].
  destruct (fresh_vocab_classify items Hnd Hpl cp n H) as [[_ G]|G];
    [exact G|].
  exfalso. apply code_point_length in Hcp.
  apply (in_map fst) in G.
  assert (L : (List.length cp <= 2)%nat) by lia.
  apply (proj2 (short_plain cp L)). exact G.
Qed.

Lemma character_unk :
  own_lookup (CharacterTokenizer.vocab tk) UNK = Some (VNum 1).
Proof.
  pose proof (character_items_NoDup texts) as Hnd.
  pose proof (character_items_plain texts) as Hpl.
  apply (fresh_vocab_lookup items Hnd Hpl). right; left; reflexivity.
Qed.

Lemma character_encode text :
  CharacterTokenizer.encode tk text
  = map (id_or (CharacterTokenizer.vocab tk) 1) (code_points text).
Proof.
  unfold CharacterTokenizer.encode. apply map_ext_in. intros cp Hcp.
  apply encode_unit.
  - apply character_unk.
  - intros n H. destruct (character_code_point_id _ _ _ Hcp H) as (m & [= <-] & G).
    lia.
  - intros v H. destruct (character_code_point_id _ _ _ Hcp H) as (m & -> & _).
    eauto.
  - apply short_not_inherited. apply code_point_length in Hcp. lia.
Qed.

Lemma character_decode_unit s cp :
  In cp (code_points s) ->
  has_own (CharacterTokenizer.vocab tk) cp = true ->
  to_string
    (js_or (obj_get (CharacterTokenizer.reverseVocab tk)
              (to_string (id_or (CharacterTokenizer.vocab tk) 1 cp)))
       (VStr UNK)) = cp.
Proof.
  intros Hcp Hown. unfold has_own, id_or in *.
  destruct (own_lookup (CharacterTokenizer.vocab tk) cp) as [v|] eqn:E;
    [|discriminate].
  destruct (character_code_point_id _ _ _ Hcp E) as (n & -> & Hn).
  assert (R : own_lookup (CharacterTokenizer.reverseVocab tk)
                (num_to_string n) = Some (VStr cp)).
  { apply (proj1 (proj2 character_well_formed)). exists cp, n. auto. }
  cbn [to_string]. rewrite (obj_get_own _ _ _ R).
  apply code_point_length in Hcp.
  destruct cp; [simpl in Hcp; lia|reflexivity].
Qed.
End CharacterVocabulary.

Section WordVocabulary.
Variable toLowerCase : jsstring -> jsstring.
Variables (maxVocabSize : Z) (texts : list jsstring).

Let tk :=
  WordTokenizer.buildVocabulary toLowerCase
    (WordTokenizer.new maxVocabSize) texts.
Let items := word_items toLowerCase maxVocabSize texts.

Lemma word_well_formed :
  well_formed_vocabulary (WordTokenizer.vocab tk) (WordTokenizer.reverseVocab tk).
Proof.
  pose proof (word_items_NoDup toLowerCase maxVocabSize texts) as Hnd.
  pose proof (word_items_plain toLowerCase maxVocabSize texts) as Hpl.
  split; [|split; [|split]].
  - apply (fresh_vocab_injective items Hnd Hpl).
  - apply (fresh_vocab_inverse items Hnd Hpl).
  - apply (fresh_vocab_contiguous items Hnd Hpl).
  - intros k n H Hr.
    destruct (fresh_vocab_classify items Hnd Hpl k n H) as [[_ G]|G];
      [exact G|].
    exfalso. apply Hr. apply (in_map fst) in G. exact G.
Qed.

Lemma word_unit_id w v :
  word_shape w ->
  own_lookup (WordTokenizer.vocab tk) w = Some v ->
  exists n, v = VNum n /\ 4 <= n.
Proof.
  intros Hw H.
  pose proof (word_items_NoDup toLowerCase maxVocabSize texts) as Hnd.
  pose proof (word_items_plain toLowerCase maxVocabSize texts) as Hpl.
  assert (Hv : exists n, v = VNum n).
  { apply own_lookup_In in H.
    apply (fresh_vocab_numbers items Hnd Hpl) in H. exact H. }
  destruct Hv as [n ->]. exists n. split; [reflexivity|].
  destruct (fresh_vocab_classify items Hnd Hpl w n H) as [[_ G]|G];
    [exact G|].
  exfalso. apply (in_map fst) in G. apply (reserved_not_word w G Hw).
Qed.

Lemma word_unk : own_lookup (WordTokenizer.vocab tk) UNK = Some (VNum 1).
Proof.
  pose proof (word_items_NoDup toLowerCase maxVocabSize texts) as Hnd.
  pose proof (word_items_plain toLowerCase maxVocabSize texts) as Hpl.
  apply (fresh_vocab_lookup items Hnd Hpl). right; left; reflexivity.
Qed.

Lemma word_encode text :
  forallb (fun w => negb (is_inherited_name w))
    (WordTokenizer.words_of toLowerCase text) = true ->
  WordTokenizer.encode toLowerCase tk text
  = map (id_or (WordTokenizer.vocab tk) 1)
      (WordTokenizer.words_of toLowerCase text).
Proof.
  intros Hplain. unfold WordTokenizer.encode. apply map_ext_in. intros w Hw.
  pose proof (words_of_shape toLowerCase text w Hw) as Hs.
  apply encode_unit.
  - apply word_unk.
  - intros n H. destruct (word_unit_id _ _ Hs H) as (m & [= <-] & G). lia.
  - intros v H. destruct (word_unit_id _ _ Hs H) as (m & -> & _). eauto.
  - rewrite forallb_forall in Hplain. specialize (Hplain w Hw).
    now apply negb_true_iff in Hplain.
Qed.
End WordVocabulary.

Section ValidIds.

Lemma ascii_lower_idempotent s : ascii_lower (ascii_lower s) = ascii_lower s.
Proof.
  unfold ascii_lower. rewrite map_map. apply map_ext. intros c.
  unfold in_range.
  destruct (N.leb 65 c && N.leb c 90)%N eqn:E; [|now rewrite E].
  apply andb_true_iff in E. destruct E as [E1 E2].
  apply N.leb_le in E1, E2.
  assert (F : (N.leb (c + 32) 90 = false)%N) by (apply N.leb_gt; lia).
  rewrite F, andb_false_r. reflexivity.
Qed.
End ValidIds.

Section Rebuild.

Lemma character_rebuild this texts :
  overlays
    (CharacterTokenizer.vocab (CharacterTokenizer.buildVocabulary this texts))
    (CharacterTokenizer.vocab
       (CharacterTokenizer.buildVocabulary CharacterTokenizer.new texts))
    (CharacterTokenizer.vocab this).
Proof.
  unfold CharacterTokenizer.buildVocabulary. cbn [CharacterTokenizer.vocab].
  rewrite !assign_ids_spec, !add_special_tokens_writes. cbn [fst].
  apply overlays_set_all, overlays_set_all, overlays_start.
Qed.

Lemma word_rebuild toLowerCase this texts :
  overlays
    (WordTokenizer.vocab (WordTokenizer.buildVocabulary toLowerCase this texts))
    (WordTokenizer.vocab
       (WordTokenizer.buildVocabulary toLowerCase
          (WordTokenizer.new (WordTokenizer.maxVocabSize this)) texts))
    (WordTokenizer.vocab this).
Proof.
  unfold WordTokenizer.buildVocabulary.
  cbn [WordTokenizer.vocab WordTokenizer.maxVocabSize WordTokenizer.new].
  rewrite !assign_ids_spec, !add_special_tokens_writes. cbn [fst].
  apply overlays_set_all, overlays_set_all, overlays_start.
Qed.

Lemma bpe_rebuild this texts tk :
  SimpleBPETokenizer.buildVocabulary this texts = Returns tk ->
  exists fresh,
    SimpleBPETokenizer.buildVocabulary
      (SimpleBPETokenizer.new (SimpleBPETokenizer.numMerges this)) texts
    = Returns fresh
    /\ overlays (SimpleBPETokenizer.vocab tk) (SimpleBPETokenizer.vocab fresh)
         (SimpleBPETokenizer.vocab this)
    /\ overlays (SimpleBPETokenizer.merges tk) (SimpleBPETokenizer.merges fresh)
         (SimpleBPETokenizer.merges this).
Proof.
  intros H. destruct (built_inv _ _ _ H) as (ps & L & ->).
  rewrite buildVocabulary_writes.
  cbn [SimpleBPETokenizer.numMerges SimpleBPETokenizer.new
       SimpleBPETokenizer.vocab SimpleBPETokenizer.merges].
  rewrite L. simpl bind. eexists. split; [reflexivity|].
  cbn [SimpleBPETokenizer.vocab SimpleBPETokenizer.merges].
  split; apply overlays_set_all, overlays_start.
Qed.

End Rebuild.

(* ================================================================== *)
(** ** The claims                                                       *)
(* ================================================================== *)

(** C1, the scenario of the specification: on the corpus
    ["ab ab ab", "ab cd"] with [numMerges = 1] the pair ('a','b') has
    frequency 4 against 1 for ('c','d'), the one learned rule merges it
    into "ab", which receives id 4; but [encode("ab")] returns the two
    ids [0, 1] of 'a' and 'b', not the single id of "ab". *)
Theorem C1_scenario_encode_returns_two_ids :
  SimpleBPETokenizer.buildVocabulary (SimpleBPETokenizer.new 1) scenario_corpus
  = Returns scenario_built
  /\ SimpleBPETokenizer.getPairFrequencies
       (SimpleBPETokenizer.split_words scenario_corpus)
     = [(str "a b", VNum 4); (str "c d", VNum 1)]
  /\ SimpleBPETokenizer.merges scenario_built = [(str "a b", VStr (str "ab"))]
  /\ own_lookup (SimpleBPETokenizer.vocab scenario_built) (str "ab")
     = Some (VNum 4)
  /\ SimpleBPETokenizer.encode scenario_built (str "ab")
     = Returns [VNum 0; VNum 1].
Proof. repeat split; vm_compute; reflexivity. Qed.

(** C2, counterexample: the vocabulary a [SimpleBPETokenizer] builds
    from the empty corpus has no entry at all, so fewer than 4. *)
Lemma C2_bpe_empty_corpus_has_no_entries :
  exists tk,
    SimpleBPETokenizer.buildVocabulary (SimpleBPETokenizer.new 100) []
    = Returns tk
    /\ ~ (4 <= keys_length (SimpleBPETokenizer.vocab tk)).
Proof.
  exists (SimpleBPETokenizer.mk 100 [] [] []).
  split; [vm_compute; reflexivity | vm_compute; intros H; apply H; reflexivity].
Qed.

(** C2, amended: after [buildVocabulary], whatever the corpus and the
    state before, the vocabulary of a [CharacterTokenizer] and of a
    [WordTokenizer] holds PAD=0, UNK=1, START=2, END=3 and so at least
    4 entries, which is what [vocabSize] counts; a [SimpleBPETokenizer]
    has no reserved token in its vocabulary, which is empty for the
    empty corpus. *)
Theorem C2_reserved_tokens_present
  (toLowerCase : jsstring -> jsstring)
  (ct : CharacterTokenizer.t) (wt : WordTokenizer.t) (numMerges : Z)
  (texts : list jsstring) :
  (let built := CharacterTokenizer.buildVocabulary ct texts in
   reserved_present (CharacterTokenizer.vocab built)
   /\ 4 <= keys_length (CharacterTokenizer.vocab built)
   /\ CharacterTokenizer.vocabSize built
      = keys_length (CharacterTokenizer.vocab built))
  /\ (let built := WordTokenizer.buildVocabulary toLowerCase wt texts in
      reserved_present (WordTokenizer.vocab built)
      /\ 4 <= keys_length (WordTokenizer.vocab built)
      /\ WordTokenizer.vocabSize built = keys_length (WordTokenizer.vocab built))
  /\ (forall built,
        SimpleBPETokenizer.buildVocabulary (SimpleBPETokenizer.new numMerges) texts
        = Returns built ->
        forall r, In r reserved_tokens ->
                  own_lookup (SimpleBPETokenizer.vocab built) r = None)
  /\ SimpleBPETokenizer.buildVocabulary (SimpleBPETokenizer.new numMerges) []
     = Returns (SimpleBPETokenizer.mk numMerges [] [] []).
Proof.
  assert (C : reserved_present
                (CharacterTokenizer.vocab
                   (CharacterTokenizer.buildVocabulary ct texts))).
  { apply reserved_after_assign; [|apply reserved_after_special].
    intros x Hx. apply (character_items_plain texts x Hx). }
  assert (D : reserved_present
                (WordTokenizer.vocab
                   (WordTokenizer.buildVocabulary toLowerCase wt texts))).
  { apply reserved_after_assign; [|apply reserved_after_special].
    intros x Hx.
    apply (word_items_plain toLowerCase (WordTokenizer.maxVocabSize wt) texts x Hx). }
  split; [|split; [|split]].
  - cbv zeta. split; [exact C|]. split; [apply reserved_size, C | reflexivity].
  - cbv zeta. split; [exact D|]. split; [apply reserved_size, D | reflexivity].
  - intros built Hb r Hr.
    destruct (own_lookup (SimpleBPETokenizer.vocab built) r) as [v|] eqn:E;
      [exfalso|reflexivity].
    apply (bpe_keys_short _ _ _ Hb) in E.
    apply (proj2 (short_plain r E)). exact Hr.
  - unfold SimpleBPETokenizer.buildVocabulary. simpl.
    destruct (Z.to_nat numMerges); reflexivity.
Qed.

(** C2 at the scenario corpus: the built BPE vocabulary has no PAD. *)
Lemma C2_reserved_tokens_present_witness :
  own_lookup (SimpleBPETokenizer.vocab scenario_built) PAD = None.
Proof.
  apply (proj1 (proj2 (proj2
           (C2_reserved_tokens_present ascii_lower CharacterTokenizer.new
              (WordTokenizer.new 10000) 1 scenario_corpus)))).
  - vm_compute. reflexivity.
  - simpl. auto.
Defined.

(** C3, counterexample: a [CharacterTokenizer] built on ["xy"] and then
    on ["a"] has the code points of "xa" in its vocabulary, 'x' from the
    first build and 'a' from the second, both under the id 4;
    [reverseVocab] keeps one text for the id, and
    [decode(encode("xa"))] is "aa". *)
Lemma C3_character_rebuilt_round_trip_differs :
  let tk := CharacterTokenizer.buildVocabulary
              (CharacterTokenizer.buildVocabulary CharacterTokenizer.new
                 [str "xy"])
              [str "a"] in
  forallb (has_own (CharacterTokenizer.vocab tk)) (code_points (str "xa"))
  = true
  /\ CharacterTokenizer.decode tk (CharacterTokenizer.encode tk (str "xa"))
     = str "aa".
Proof. vm_compute. split; reflexivity. Qed.

(** C3, amended: for a new [CharacterTokenizer] after one call of
    [buildVocabulary], on any corpus, and every text whose code points
    are all keys of the built vocabulary, [decode(encode(text))] is
    [text]. *)
Theorem C3_character_decode_encode
  (texts : list jsstring) (text : jsstring) :
  let tk := CharacterTokenizer.buildVocabulary CharacterTokenizer.new texts in
  forallb (has_own (CharacterTokenizer.vocab tk)) (code_points text) = true ->
  CharacterTokenizer.decode tk (CharacterTokenizer.encode tk text) = text.
Proof.
  intros tk H. unfold CharacterTokenizer.decode.
  unfold tk. rewrite character_encode, join_empty, map_map.
  rewrite <- (concat_code_points text) at 2. f_equal.
  rewrite <- (map_id (code_points text)) at 2.
  apply map_ext_in. intros cp Hcp.
  apply (character_decode_unit texts text cp Hcp).
  rewrite forallb_forall in H. apply H, Hcp.
Qed.

(** C3 on the corpus ["Hey There", "I am 1"] and the text "They are 1". *)
Lemma C3_character_decode_encode_witness :
  let tk := CharacterTokenizer.buildVocabulary CharacterTokenizer.new
              [str "Hey There"; str "I am 1"] in
  CharacterTokenizer.decode tk (CharacterTokenizer.encode tk (str "They are 1"))
  = str "They are 1".
Proof.
  apply (C3_character_decode_encode [str "Hey There"; str "I am 1"]
           (str "They are 1")).
  vm_compute. reflexivity.
Defined.

(** C4, counterexample: a [SimpleBPETokenizer] numbers its characters
    from 0, so the corpus character 'a' receives the id 0 that is
    reserved for PAD. *)
Lemma C4_bpe_character_receives_reserved_id :
  exists tk,
    SimpleBPETokenizer.buildVocabulary (SimpleBPETokenizer.new 0) [str "a"]
    = Returns tk
    /\ own_lookup (SimpleBPETokenizer.vocab tk) (str "a") = Some (VNum 0)
    /\ ~ reserved_ids_kept (SimpleBPETokenizer.vocab tk).
Proof.
  exists (SimpleBPETokenizer.mk 0 [(str "a", VNum 0)] []
            [(str "0", VStr (str "a"))]).
  split; [vm_compute; reflexivity|]. split; [vm_compute; reflexivity|].
  intros H. specialize (H (str "a") 0 eq_refl).
  assert (G : 4 <= 0); [|lia].
  apply H. vm_compute. intuition discriminate.
Qed.

(** C4, amended: the vocabulary a new [CharacterTokenizer] or
    [WordTokenizer] builds from any corpus has an injective
    token-to-id mapping, an id-to-token mapping that is its exact
    inverse, the ids 0 .. size-1, and no id below 4 on a token that is
    not reserved; the vocabulary a new [SimpleBPETokenizer] builds has
    an injective token-to-id mapping and an id-to-token mapping that is
    its exact inverse. *)
Theorem C4_vocabulary_invariants
  (toLowerCase : jsstring -> jsstring) (maxVocabSize numMerges : Z)
  (texts : list jsstring) :
  (let tk := CharacterTokenizer.buildVocabulary CharacterTokenizer.new texts in
   well_formed_vocabulary (CharacterTokenizer.vocab tk)
     (CharacterTokenizer.reverseVocab tk))
  /\ (let tk := WordTokenizer.buildVocabulary toLowerCase
                  (WordTokenizer.new maxVocabSize) texts in
      well_formed_vocabulary (WordTokenizer.vocab tk)
        (WordTokenizer.reverseVocab tk))
  /\ (forall tk,
        SimpleBPETokenizer.buildVocabulary (SimpleBPETokenizer.new numMerges) texts
        = Returns tk ->
        injective_vocab (SimpleBPETokenizer.vocab tk)
        /\ exact_inverse (SimpleBPETokenizer.vocab tk)
             (SimpleBPETokenizer.reverseVocab tk)).
Proof.
  split; [|split].
  - apply character_well_formed.
  - apply word_well_formed.
  - intros tk H. split.
    + apply (bpe_injective _ _ _ H).
    + apply (bpe_inverse _ _ _ H).
Qed.

(** C4 at the scenario corpus, for the BPE tokenizer. *)
Lemma C4_vocabulary_invariants_witness :
  injective_vocab (SimpleBPETokenizer.vocab scenario_built)
  /\ exact_inverse (SimpleBPETokenizer.vocab scenario_built)
       (SimpleBPETokenizer.reverseVocab scenario_built).
Proof.
  apply (proj2 (proj2 (C4_vocabulary_invariants ascii_lower 10000 1
                         scenario_corpus))).
  vm_compute. reflexivity.
Defined.




(** C6: [buildVocabulary] of a [SimpleBPETokenizer] throws a
    [SyntaxError] on the corpus ["(a"]: the most frequent pair is
    ('(','a'), and [new RegExp("(a", 'g')] is not a regular
    expression.  The default [numMerges] is 100. *)
Theorem C6_bpe_build_throws_on_parenthesis :
  SimpleBPETokenizer.buildVocabulary (SimpleBPETokenizer.new 100) [str "(a"]
  = ThrowsSyntaxError.
Proof. vm_compute. reflexivity. Qed.

(** C7, counterexample: a [CharacterTokenizer] built on ["xy"] and then
    on ["a"] is not in the state a new one built on ["a"] is in: it
    still maps 'x' and 'y', and counts 7 tokens against 5. *)
Lemma C7_character_rebuild_differs :
  CharacterTokenizer.buildVocabulary
    (CharacterTokenizer.buildVocabulary CharacterTokenizer.new [str "xy"])
    [str "a"]
  <> CharacterTokenizer.buildVocabulary CharacterTokenizer.new [str "a"].
Proof.
  intros H. apply (f_equal CharacterTokenizer.vocabSize) in H.
  vm_compute in H. discriminate H.
Qed.

(** C7, amended: after [buildVocabulary] with corpus A and then with
    corpus B, every token that a single build with B on a new tokenizer
    defines has the id of that single build, and every other token
    keeps the id it had after A; for a [SimpleBPETokenizer] the same
    holds of the merge table, and the single build returns whenever
    the rebuild does. *)
Theorem C7_rebuild_overlays
  (toLowerCase : jsstring -> jsstring) (maxVocabSize numMerges : Z)
  (A B : list jsstring) :
  (let after_A := CharacterTokenizer.buildVocabulary CharacterTokenizer.new A in
   overlays
     (CharacterTokenizer.vocab (CharacterTokenizer.buildVocabulary after_A B))
     (CharacterTokenizer.vocab
        (CharacterTokenizer.buildVocabulary CharacterTokenizer.new B))
     (CharacterTokenizer.vocab after_A))
  /\ (let after_A := WordTokenizer.buildVocabulary toLowerCase
                       (WordTokenizer.new maxVocabSize) A in
      overlays
        (WordTokenizer.vocab
           (WordTokenizer.buildVocabulary toLowerCase after_A B))
        (WordTokenizer.vocab
           (WordTokenizer.buildVocabulary toLowerCase
              (WordTokenizer.new maxVocabSize) B))
        (WordTokenizer.vocab after_A))
  /\ (forall after_A after_B,
        SimpleBPETokenizer.buildVocabulary (SimpleBPETokenizer.new numMerges) A
        = Returns after_A ->
        SimpleBPETokenizer.buildVocabulary after_A B = Returns after_B ->
        exists fresh,
          SimpleBPETokenizer.buildVocabulary (SimpleBPETokenizer.new numMerges) B
          = Returns fresh
          /\ overlays (SimpleBPETokenizer.vocab after_B)
               (SimpleBPETokenizer.vocab fresh)
               (SimpleBPETokenizer.vocab after_A)
          /\ overlays (SimpleBPETokenizer.merges after_B)
               (SimpleBPETokenizer.merges fresh)
               (SimpleBPETokenizer.merges after_A)).
Proof.
  split; [|split].
  - apply character_rebuild.
  - apply (word_rebuild toLowerCase
             (WordTokenizer.buildVocabulary toLowerCase
                (WordTokenizer.new maxVocabSize) A) B).
  - intros after_A after_B HA HB.
    destruct (built_inv _ _ _ HA) as (ps & _ & E).
    assert (N : SimpleBPETokenizer.numMerges after_A = numMerges)
      by (rewrite E; reflexivity).
    destruct (bpe_rebuild after_A B after_B HB) as (fresh & F & G).
    rewrite N in F. exists fresh. split; [exact F | exact G].
Qed.

(** C7 for the BPE tokenizer of the scenario, rebuilt on ["xy"]: 'x', 'y'
    and "xy" take the ids 0, 1, 2 of the single build, while 'c', 'd' and
    "ab" keep 2, 3 and 4. *)
Lemma C7_rebuild_overlays_witness :
  exists fresh,
    SimpleBPETokenizer.buildVocabulary (SimpleBPETokenizer.new 1) [str "xy"]
    = Returns fresh
    /\ overlays
         (SimpleBPETokenizer.vocab
            (SimpleBPETokenizer.mk 1
               [(str "a", VNum 0); (str "b", VNum 1); (str "c", VNum 2);
                (str "d", VNum 3); (str "ab", VNum 4); (str "x", VNum 0);
                (str "y", VNum 1); (str "xy", VNum 2)]
               [(str "a b", VStr (str "ab")); (str "x y", VStr (str "xy"))]
               [(str "0", VStr (str "x")); (str "1", VStr (str "y"));
                (str "2", VStr (str "xy")); (str "3", VStr (str "d"));
                (str "4", VStr (str "ab"))]))
         (SimpleBPETokenizer.vocab fresh)
         (SimpleBPETokenizer.vocab scenario_built)
    /\ overlays
         (SimpleBPETokenizer.merges
            (SimpleBPETokenizer.mk 1
               [(str "a", VNum 0); (str "b", VNum 1); (str "c", VNum 2);
                (str "d", VNum 3); (str "ab", VNum 4); (str "x", VNum 0);
                (str "y", VNum 1); (str "xy", VNum 2)]
               [(str "a b", VStr (str "ab")); (str "x y", VStr (str "xy"))]
               [(str "0", VStr (str "x")); (str "1", VStr (str "y"));
                (str "2", VStr (str "xy")); (str "3", VStr (str "d"));
                (str "4", VStr (str "ab"))]))
         (SimpleBPETokenizer.merges fresh)
         (SimpleBPETokenizer.merges scenario_built).
Proof.
  apply (proj2 (proj2 (C7_rebuild_overlays ascii_lower 100 1
                         scenario_corpus [str "xy"])) scenario_built).
  - vm_compute. reflexivity.
  - vm_compute. reflexivity.
Defined.

(** C8, counterexample: the scenario tokenizer built once more, on
    ["xy"], keeps 'c' under the id 2 of the first build and gives the
    merged token "xy" the id 2 as well: [encode("cxy")] returns
    [2, 0, 1], and 2 is the id of a token of two characters. *)
Lemma C8_bpe_rebuilt_encode_returns_merged_id :
  SimpleBPETokenizer.buildVocabulary (SimpleBPETokenizer.new 1) scenario_corpus
  = Returns scenario_built
  /\ exists tk,
       SimpleBPETokenizer.buildVocabulary scenario_built [str "xy"]
       = Returns tk
       /\ SimpleBPETokenizer.encode tk (str "cxy")
          = Returns [VNum 2; VNum 0; VNum 1]
       /\ own_lookup (SimpleBPETokenizer.vocab tk) (str "xy") = Some (VNum 2)
       /\ multi_character (str "xy").
Proof.
  split; [vm_compute; reflexivity|].
  eexists. split; [vm_compute; reflexivity|].
  split; [vm_compute; reflexivity|].
  split; [vm_compute; reflexivity|]. vm_compute. lia.
Qed.

(** C8, amended: for a new [SimpleBPETokenizer] whose one call of
    [buildVocabulary] returned and every text, [encode] returns, and
    every id it returns is 0 or the id of a token of one character; no
    token of several characters has an id that [encode] returns. *)
Theorem C8_bpe_encode_returns_character_ids
  (numMerges : Z) (texts : list jsstring) (tk : SimpleBPETokenizer.t)
  (text : jsstring) :
  SimpleBPETokenizer.buildVocabulary (SimpleBPETokenizer.new numMerges) texts
  = Returns tk ->
  exists ids,
    SimpleBPETokenizer.encode tk text = Returns ids
    /\ forall v, In v ids ->
         exists i,
           v = VNum i
           /\ (i = 0
               \/ exists c, single_character c
                            /\ own_lookup (SimpleBPETokenizer.vocab tk) c
                               = Some (VNum i))
           /\ forall token,
                multi_character token ->
                own_lookup (SimpleBPETokenizer.vocab tk) token <> Some (VNum i).
Proof.
  intros H.
  destruct (apply_merges_returns (SimpleBPETokenizer.merges tk) text
              (bpe_merges_compile _ _ _ H)) as [result Hr].
  exists (map (id_or (SimpleBPETokenizer.vocab tk) 0) (code_points result)).
  split.
  - unfold SimpleBPETokenizer.encode. rewrite Hr. simpl bind. f_equal.
    apply map_ext_in. intros cp Hcp. apply bpe_encode_unit.
    + intros v Hv. apply own_lookup_In in Hv.
      apply (bpe_numbers _ _ _ H) in Hv. exact Hv.
    + apply short_not_inherited. apply code_point_length in Hcp. lia.
  - intros v Hv. apply in_map_iff in Hv. destruct Hv as (cp & <- & Hcp).
    pose proof (code_point_single _ _ Hcp) as Hs.
    unfold id_or.
    destruct (own_lookup (SimpleBPETokenizer.vocab tk) cp) as [x|] eqn:E.
    + pose proof (own_lookup_In _ _ _ E) as Hin.
      apply (bpe_numbers _ _ _ H) in Hin. destruct Hin as [i Hi].
      simpl in Hi. subst x. exists i. split; [reflexivity|]. split.
      * right. exists cp. split; assumption.
      * intros token Hm Ht.
        assert (token = cp) by (apply (bpe_injective _ _ _ H _ _ _ Ht E)).
        subst token. unfold multi_character, single_character in *. lia.
    + exists 0. split; [reflexivity|]. split; [left; reflexivity|].
      intros token Hm Ht. apply (bpe_zero_single _ _ _ H) in Ht.
      unfold multi_character, single_character in *. lia.
Qed.

(** C8 at the scenario tokenizer and the text "abba cab". *)
Lemma C8_bpe_encode_returns_character_ids_witness :
  exists ids,
    SimpleBPETokenizer.encode scenario_built (str "abba cab") = Returns ids
    /\ forall v, In v ids ->
         exists i,
           v = VNum i
           /\ (i = 0
               \/ exists c, single_character c
                            /\ own_lookup (SimpleBPETokenizer.vocab scenario_built) c
                               = Some (VNum i))
           /\ forall token,
                multi_character token ->
                own_lookup (SimpleBPETokenizer.vocab scenario_built) token
                <> Some (VNum i).
Proof.
  apply (C8_bpe_encode_returns_character_ids 1 scenario_corpus scenario_built
           (str "abba cab")).
  vm_compute. reflexivity.
Defined.

(** C9: a [WordTokenizer] built on the empty corpus encodes
    "constructor" as the function its vocabulary object inherits from
    [Object.prototype] under that name: neither the UNK id 1 nor an
    id from 4 on, and not a number. *)
Theorem C9_word_encode_returns_inherited_function
  (toLowerCase : jsstring -> jsstring) :
  toLowerCase (str "constructor") = str "constructor" ->
  WordTokenizer.encode toLowerCase
    (WordTokenizer.buildVocabulary toLowerCase (WordTokenizer.new 10000) [])
    (str "constructor")
  = [VBuiltin (str "constructor")].
Proof.
  intros H. unfold WordTokenizer.encode, WordTokenizer.words_of.
  rewrite H. vm_compute. reflexivity.
Qed.

(** C9 with the ASCII case mapping. *)
Lemma C9_word_encode_returns_inherited_function_witness :
  WordTokenizer.encode ascii_lower
    (WordTokenizer.buildVocabulary ascii_lower (WordTokenizer.new 10000) [])
    (str "constructor")
  = [VBuiltin (str "constructor")].
Proof.
  apply (C9_word_encode_returns_inherited_function ascii_lower).
  vm_compute. reflexivity.
Defined.

(** C10: for a [WordTokenizer] in any state and every text,
    [encode(text)] is [encode(text.toLowerCase())], lower-casing a
    lower-cased string changing nothing. *)
Theorem C10_word_encode_ignores_case
  (toLowerCase : jsstring -> jsstring) :
  (forall s, toLowerCase (toLowerCase s) = toLowerCase s) ->
  forall (this : WordTokenizer.t) (text : jsstring),
    WordTokenizer.encode toLowerCase this text
    = WordTokenizer.encode toLowerCase this (toLowerCase text).
Proof.
  intros idem this text.
  unfold WordTokenizer.encode, WordTokenizer.words_of.
  rewrite idem. reflexivity.
Qed.

(** C10 with the ASCII case mapping, on "HEY there". *)
Lemma C10_word_encode_ignores_case_witness :
  let tk := WordTokenizer.buildVocabulary ascii_lower (WordTokenizer.new 100)
              [str "Hey There, hey you"] in
  WordTokenizer.encode ascii_lower tk (str "HEY there")
  = WordTokenizer.encode ascii_lower tk (ascii_lower (str "HEY there")).
Proof.
  apply (C10_word_encode_ignores_case ascii_lower ascii_lower_idempotent).
Defined.

(* ================================================================== *)
(** ** Further properties of the tokenizers                             *)
(* ================================================================== *)

Section DecodeFacts.

Lemma num_to_string_head n :
  exists c rest, num_to_string n = c :: rest /\ (c < 58)%N.
Proof.
  unfold num_to_string. destruct n as [|p|p]; simpl.
  - eexists _, _. split; [reflexivity|]. vm_compute. reflexivity.
  - pose proof (DecimalPos.Unsigned.to_uint_nonnil p) as Hp.
    destruct (Pos.to_uint p); try contradiction; simpl;
      (eexists _, _; split; [reflexivity | vm_compute; reflexivity]).
  - eexists _, _. split; [reflexivity|]. vm_compute. reflexivity.
Qed.

Lemma inherited_name_head k :
  is_inherited_name k = true -> exists c rest, k = c :: rest /\ (95 <= c)%N.
Proof.
  unfold is_inherited_name, is_builtin_name. rewrite orb_true_iff.
  intros [H|H].
  - apply str_eqb_eq in H. subst. eexists _, _. split; [reflexivity|].
    vm_compute. discriminate.
  - apply existsb_exists in H. destruct H as (x & Hx & E).
    apply str_eqb_eq in E. subst x. revert k Hx.
    apply Forall_forall.
    repeat constructor;
      (eexists _, _; split; [reflexivity | vm_compute; discriminate]).
Qed.

Lemma number_key_not_inherited n : is_inherited_name (num_to_string n) = false.
Proof.
  destruct (is_inherited_name (num_to_string n)) eqn:E; [|reflexivity].
  apply inherited_name_head in E. destruct E as (c & rest & E & Hc).
  destruct (num_to_string_head n) as (c' & rest' & E' & Hc').
  rewrite E in E'. injection E' as -> _. lia.
Qed.

Lemma decode_unit_known V R placeholder k n :
  exact_inverse V R ->
  own_lookup V k = Some (VNum n) -> k <> [] ->
  decode_unit R placeholder (VNum n) = k.
Proof.
  intros Hinv Hk Hne. unfold decode_unit. cbn [to_string].
  assert (E : own_lookup R (num_to_string n) = Some (VStr k)).
  { apply Hinv. exists k, n. auto. }
  rewrite (obj_get_own _ _ _ E). destruct k; [contradiction|reflexivity].
Qed.

Lemma decode_unit_unknown V R placeholder n :
  exact_inverse V R ->
  (forall k, own_lookup V k <> Some (VNum n)) ->
  decode_unit R placeholder (VNum n) = placeholder.
Proof.
  intros Hinv Hno. unfold decode_unit. cbn [to_string].
  assert (E : own_lookup R (num_to_string n) = None).
  { destruct (own_lookup R (num_to_string n)) as [v|] eqn:E; [|reflexivity].
    apply Hinv in E. destruct E as (k & m & Hk & Hm & _).
    apply num_to_string_inj in Hm. subst m. exfalso. apply (Hno k Hk). }
  rewrite (obj_get_absent _ _ E (number_key_not_inherited n)).
  unfold js_or. simpl. reflexivity.
Qed.

Lemma join_space_app a b :
  a <> [] -> b <> [] ->
  join (str " ") (a ++ b) = join (str " ") a ++ str " " ++ join (str " ") b.
Proof.
  intros Ha Hb. induction a as [|x a IH]; [contradiction|].
  destruct a as [|y a].
  - destruct b as [|z b]; [contradiction|]. reflexivity.
  - change (join (str " ") ((x :: y :: a) ++ b))
      with (x ++ str " " ++ join (str " ") ((y :: a) ++ b)).
    rewrite IH by discriminate.
    change (join (str " ") (x :: y :: a))
      with (x ++ str " " ++ join (str " ") (y :: a)).
    now rewrite <- !app_assoc.
Qed.

Lemma match_words_nonempty s cur w : In w (match_words s cur) -> w <> [].
Proof.
  assert (F : forall cur w, In w (flush_word cur) -> w <> []).
  { intros [|c cur'] w'; simpl; [tauto|]. intros [<-|[]] E.
    apply (f_equal (@List.length N)) in E.
    rewrite length_app in E. simpl in E. lia. }
  revert cur; induction s as [|c s IH]; intros cur; simpl.
  - apply F.
  - destruct (is_word_char c).
    + apply IH.
    + rewrite !in_app_iff. intros [H|[H|H]].
      * apply (F _ _ H).
      * destruct (is_white_space c); [destruct H|].
        destruct H as [<-|[]]. discriminate.
      * apply (IH _ H).
Qed.

(** The keys of a vocabulary built from scratch are the reserved tokens
    and the items, none of them empty when no item is. *)
Lemma fresh_vocab_key_nonempty items k n :
  NoDup items ->
  (forall x, In x items -> x <> proto_key /\ ~ In x reserved_tokens) ->
  (forall x, In x items -> x <> []) ->
  own_lookup (fst (assign_ids items (add_special_tokens []) 4)) k
  = Some (VNum n) ->
  k <> [].
Proof.
  intros Hnd Hpl Hne H.
  destruct (fresh_vocab_classify items Hnd Hpl k n H) as [[G _]|G].
  - apply Hne, G.
  - apply (in_map fst) in G. simpl in G.
    intros ->. intuition discriminate.
Qed.

Lemma character_key_nonempty texts k n :
  own_lookup
    (CharacterTokenizer.vocab
       (CharacterTokenizer.buildVocabulary CharacterTokenizer.new texts)) k
  = Some (VNum n) -> k <> [].
Proof.
  apply (fresh_vocab_key_nonempty (CharacterTokenizer.collect_chars texts)).
  - apply character_items_NoDup.
  - apply character_items_plain.
  - intros x Hx E. apply character_items_short in Hx. subst. simpl in Hx. lia.
Qed.

Lemma word_key_nonempty toLowerCase maxVocabSize texts k n :
  own_lookup
    (WordTokenizer.vocab
       (WordTokenizer.buildVocabulary toLowerCase
          (WordTokenizer.new maxVocabSize) texts)) k
  = Some (VNum n) -> k <> [].
Proof.
  apply (fresh_vocab_key_nonempty (word_items toLowerCase maxVocabSize texts)).
  - apply word_items_NoDup.
  - apply word_items_plain.
  - intros x Hx. apply word_items_sub in Hx.
    assert (G : forall texts' o,
               (forall k, In k (map fst o) -> k <> []) ->
               forall k, In k (map fst
                   (fold_left
                      (fun wf text =>
                         fold_left (WordTokenizer.count_word)
                           (WordTokenizer.words_of toLowerCase text) wf)
                      texts' o)) -> k <> []).
    { induction texts' as [|text texts' IH]; intros o Ho; simpl; [exact Ho|].
      apply IH.
      assert (F : forall ws o',
                 (forall w, In w ws -> w <> []) ->
                 (forall k, In k (map fst o') -> k <> []) ->
                 forall k,
                   In k (map fst (fold_left WordTokenizer.count_word ws o')) ->
                   k <> []).
      { induction ws as [|w ws IHw]; intros o' Hws Ho'; simpl; [exact Ho'|].
        apply IHw; [intros; apply Hws; simpl; auto|].
        intros k' Hk'. apply count_word_keys in Hk'.
        destruct Hk' as [[-> _]|Hk']; [apply Hws; simpl; auto | auto]. }
      apply F; [|exact Ho]. intros w. apply match_words_nonempty. }
    apply (G texts []); [intros k' []|exact Hx].
Qed.

End DecodeFacts.

Section FirstSeenFacts.

Lemma add_all_first_seen l s0 :
  fold_left (fun s c => set_add c s) l s0 = s0 ++ first_seen s0 l.
Proof.
  revert s0; induction l as [|x l IH]; intros s0; simpl.
  - now rewrite app_nil_r.
  - unfold set_add at 2. destruct (existsb (str_eqb x) s0).
    + apply IH.
    + rewrite IH, <- app_assoc. reflexivity.
Qed.

Lemma collect_concat {T} (units : T -> list jsstring) ts s0 :
  collect units ts s0
  = fold_left (fun s c => set_add c s) (List.concat (map units ts)) s0.
Proof.
  unfold collect. revert s0; induction ts as [|t ts IH]; intros s0; simpl.
  - reflexivity.
  - rewrite fold_left_app. apply IH.
Qed.

Lemma collect_first_seen {T} (units : T -> list jsstring) ts :
  collect units ts [] = first_seen [] (List.concat (map units ts)).
Proof. rewrite collect_concat, add_all_first_seen. reflexivity. Qed.

Lemma id_writes_nth items index i x :
  nth_error items i = Some x ->
  In (x, VNum (index + Z.of_nat i)) (id_writes items index).
Proof.
  unfold id_writes. revert index i.
  induction items as [|y items IH]; intros index [|i]; simpl;
    try discriminate.
  - intros [= ->]. left. f_equal. f_equal. lia.
  - intros H. right.
    replace (index + Z.pos (Pos.of_succ_nat i)) with (index + 1 + Z.of_nat i)
      by lia.
    apply IH, H.
Qed.

End FirstSeenFacts.

(** X1: whatever the text, [decode(encode(text))] of a new
    [CharacterTokenizer] after one call of [buildVocabulary] is the
    text with every code point that the vocabulary lacks replaced by
    the five characters "<UNK>", and every other code point
    unchanged. *)
Theorem X1_character_round_trip_marks_unknown
  (texts : list jsstring) (text : jsstring) :
  let tk := CharacterTokenizer.buildVocabulary CharacterTokenizer.new texts in
  CharacterTokenizer.decode tk (CharacterTokenizer.encode tk text)
  = List.concat (map (shown (CharacterTokenizer.vocab tk) UNK) (code_points text)).
Proof.
  intros tk. unfold CharacterTokenizer.decode, tk.
  rewrite character_encode, join_empty, map_map. f_equal.
  apply map_ext_in. intros cp Hcp. unfold shown.
  destruct (has_own _ cp) eqn:E.
  - apply (character_decode_unit texts text cp Hcp E).
  - unfold has_own in E. unfold id_or.
    destruct (own_lookup _ cp); [discriminate|].
    apply (decode_unit_known _ _ UNK UNK 1
             (proj1 (proj2 (character_well_formed texts)))
             (character_unk texts)).
    discriminate.
Qed.

(** X2: a new [CharacterTokenizer] after one call of
    [buildVocabulary] decodes a list of ids piece by piece; an id that
    a token carries decodes to that token (the reserved ids to the
    texts "<PAD>", "<UNK>", "<START>", "<END>"), and a number outside
    [0, vocabSize) decodes to "<UNK>". *)
Theorem X2_character_decode_ids (texts : list jsstring) :
  let tk := CharacterTokenizer.buildVocabulary CharacterTokenizer.new texts in
  (forall a b,
      CharacterTokenizer.decode tk (a ++ b)
      = CharacterTokenizer.decode tk a ++ CharacterTokenizer.decode tk b)
  /\ (forall k n,
        own_lookup (CharacterTokenizer.vocab tk) k = Some (VNum n) ->
        CharacterTokenizer.decode tk [VNum n] = k)
  /\ (forall n,
        ~ (0 <= n < CharacterTokenizer.vocabSize tk) ->
        CharacterTokenizer.decode tk [VNum n] = UNK).
Proof.
  intros tk.
  pose proof (character_well_formed texts) as (_ & Hinv & Hcont & _).
  fold tk in Hinv, Hcont.
  split; [|split].
  - intros a b. unfold CharacterTokenizer.decode.
    rewrite !join_empty, map_app, concat_app. reflexivity.
  - intros k n H.
    apply (decode_unit_known _ _ UNK k n Hinv H).
    apply (character_key_nonempty texts k n H).
  - intros n Hn.
    apply (decode_unit_unknown _ _ UNK n Hinv).
    intros k Hk. apply Hn. apply Hcont. exists k. exact Hk.
Qed.

Lemma X2_character_decode_ids_witness :
  let tk := CharacterTokenizer.buildVocabulary CharacterTokenizer.new
              [str "ab"] in
  CharacterTokenizer.decode tk [VNum 5] = str "b"
  /\ CharacterTokenizer.decode tk [VNum 6] = UNK.
Proof.
  split.
  - apply (proj1 (proj2 (X2_character_decode_ids [str "ab"]))).
    vm_compute. reflexivity.
  - apply (proj2 (proj2 (X2_character_decode_ids [str "ab"]))).
    vm_compute. intros [_ H]. discriminate H.
Defined.

(** X3: a [CharacterTokenizer] numbers the distinct code points of the
    corpus in the order of their first appearance: the i-th one (from 0)
    has id 4 + i, and [vocabSize] is 4 plus their number. *)
Theorem X3_character_ids_in_first_seen_order (texts : list jsstring) :
  let tk := CharacterTokenizer.buildVocabulary CharacterTokenizer.new texts in
  let seen := first_seen [] (corpus_code_points texts) in
  (forall i x,
      nth_error seen i = Some x ->
      own_lookup (CharacterTokenizer.vocab tk) x = Some (VNum (4 + Z.of_nat i)))
  /\ CharacterTokenizer.vocabSize tk = 4 + Z.of_nat (List.length seen).
Proof.
  intros tk seen.
  assert (E : CharacterTokenizer.collect_chars texts = seen).
  { apply (collect_first_seen code_points). }
  pose proof (character_items_NoDup texts) as Hnd.
  pose proof (character_items_plain texts) as Hpl.
  split.
  - intros i x Hx.
    apply (fresh_vocab_lookup _ Hnd Hpl). apply in_or_app. right.
    apply id_writes_nth. rewrite E. exact Hx.
  - unfold tk. cbn [CharacterTokenizer.vocabSize CharacterTokenizer.buildVocabulary].
    rewrite <- E. apply (fresh_vocab_size _ Hnd Hpl).
Qed.

Lemma X3_character_ids_in_first_seen_order_witness :
  own_lookup
    (CharacterTokenizer.vocab
       (CharacterTokenizer.buildVocabulary CharacterTokenizer.new
          [str "ab"; str "ca"])) (str "c")
  = Some (VNum (4 + Z.of_nat 2)).
Proof.
  apply (proj1 (X3_character_ids_in_first_seen_order [str "ab"; str "ca"]) 2%nat).
  vm_compute. reflexivity.
Defined.

Section CountingFacts.
Variable toLowerCase : jsstring -> jsstring.

Lemma count_words_flat texts :
  WordTokenizer.count_words toLowerCase texts
  = fold_left WordTokenizer.count_word (corpus_words toLowerCase texts) [].
Proof.
  unfold WordTokenizer.count_words, corpus_words.
  generalize (@nil (jsstring * jsval)).
  induction texts as [|t texts IH]; intros o; simpl; [reflexivity|].
  rewrite fold_left_app. apply IH.
Qed.

Lemma inherited_false_proto w : is_inherited_name w = false -> w <> proto_key.
Proof.
  unfold is_inherited_name. intros H E. subst.
  rewrite str_eqb_refl in H. discriminate.
Qed.

Lemma count_word_step o w :
  is_inherited_name w = false -> positive_counts o ->
  positive_counts (WordTokenizer.count_word o w)
  /\ forall k, counted (WordTokenizer.count_word o w) k
               = counted o k + (if str_eqb w k then 1 else 0).
Proof.
  intros Hw Hpos.
  assert (Hset : forall k,
             own_lookup (WordTokenizer.count_word o w) k
             = if str_eqb w k then Some (VNum (counted o w + 1))
               else own_lookup o k).
  { intros k. unfold WordTokenizer.count_word. rewrite own_lookup_set.
    pose proof (inherited_false_proto w Hw) as Hp.
    apply str_eqb_neq in Hp. rewrite Hp, andb_true_r.
    destruct (str_eqb w k); [|reflexivity].
    f_equal. unfold counted.
    destruct (own_lookup o w) as [v|] eqn:E.
    - rewrite (obj_get_own _ _ _ E).
      destruct (Hpos w v E) as (c & -> & Hc).
      unfold js_or. simpl. destruct (Z.eqb_spec c 0); [lia|reflexivity].
    - rewrite (obj_get_absent _ _ E Hw). reflexivity. }
  split.
  - intros k v H. rewrite Hset in H.
    destruct (str_eqb w k); [|apply (Hpos k v H)].
    injection H as <-. eexists. split; [reflexivity|].
    unfold counted. destruct (own_lookup o w) as [x|] eqn:E; [|lia].
    destruct (Hpos w x E) as (c & -> & Hc). lia.
  - intros k. unfold counted at 1. rewrite Hset.
    destruct (str_eqb w k) eqn:E.
    + apply str_eqb_eq in E. subst k. reflexivity.
    + fold (counted o k). lia.
Qed.

Lemma count_all ws o :
  no_inherited_name ws = true -> positive_counts o ->
  positive_counts (fold_left WordTokenizer.count_word ws o)
  /\ forall k, counted (fold_left WordTokenizer.count_word ws o) k
               = counted o k + occurrences k ws.
Proof.
  revert o. induction ws as [|w ws IH]; intros o Hws Hpos; simpl.
  - split; [exact Hpos|]. intros k. unfold occurrences. simpl. lia.
  - unfold no_inherited_name in Hws. simpl in Hws.
    apply andb_true_iff in Hws. destruct Hws as [Hw Hws].
    apply negb_true_iff in Hw.
    destruct (count_word_step o w Hw Hpos) as [Hpos' Hc].
    destruct (IH _ Hws Hpos') as [Hpos'' Hc'].
    split; [exact Hpos''|]. intros k. rewrite Hc', Hc.
    unfold occurrences. simpl. rewrite (str_eqb_sym k w).
    destruct (str_eqb w k); simpl; lia.
Qed.

Lemma positive_counts_nil : positive_counts [].
Proof. intros k v H. discriminate H. Qed.

Lemma count_words_counts texts :
  no_inherited_name (corpus_words toLowerCase texts) = true ->
  positive_counts (WordTokenizer.count_words toLowerCase texts)
  /\ forall w, counted (WordTokenizer.count_words toLowerCase texts) w
               = occurrences w (corpus_words toLowerCase texts).
Proof.
  intros H. rewrite count_words_flat.
  destruct (count_all _ [] H positive_counts_nil) as [P C].
  split; [exact P|]. intros w. rewrite C. reflexivity.
Qed.

End CountingFacts.

(** X4: when no word unit of the corpus is a property name inherited
    from [Object.prototype], [wordFrequency] holds for every word unit
    exactly the number of its occurrences in the lower-cased corpus, and
    no entry for a word that does not occur. *)
Theorem X4_word_frequency_counts_occurrences
  (toLowerCase : jsstring -> jsstring) (texts : list jsstring) (w : jsstring) :
  no_inherited_name (corpus_words toLowerCase texts) = true ->
  own_lookup (WordTokenizer.count_words toLowerCase texts) w
  = if Z.eqb (occurrences w (corpus_words toLowerCase texts)) 0 then None
    else Some (VNum (occurrences w (corpus_words toLowerCase texts))).
Proof.
  intros H. destruct (count_words_counts toLowerCase texts H) as [P C].
  specialize (C w). unfold counted in C.
  destruct (own_lookup _ w) as [v|] eqn:E.
  - destruct (P w v E) as (c & -> & Hc). subst c.
    destruct (Z.eqb_spec (occurrences w (corpus_words toLowerCase texts)) 0);
      [lia|reflexivity].
  - rewrite <- C. reflexivity.
Qed.

Lemma X4_word_frequency_counts_occurrences_witness :
  own_lookup (WordTokenizer.count_words ascii_lower [str "Hey, hey you"; str "HEY"])
    (str "hey")
  = Some (VNum 3).
Proof.
  apply (X4_word_frequency_counts_occurrences ascii_lower
           [str "Hey, hey you"; str "HEY"] (str "hey")).
  vm_compute. reflexivity.
Defined.

Section SortedFacts.

Lemma Forall_perm {A} (P : A -> Prop) l l' :
  Permutation l l' -> Forall P l -> Forall P l'.
Proof.
  intros Hp H. rewrite Forall_forall in *. intros x Hx.
  apply H. apply (Permutation_in _ (Permutation_sym Hp) Hx).
Qed.

Lemma by_frequency_numeric a b ca cb :
  snd a = VNum ca -> snd b = VNum cb ->
  WordTokenizer.by_frequency a b = cb - ca.
Proof.
  intros Ha Hb. unfold WordTokenizer.by_frequency, js_sub. now rewrite Ha, Hb.
Qed.

Lemma sort_insert_descending x l :
  (exists c, snd x = VNum c) -> numeric_entries l ->
  StronglySorted no_less l ->
  StronglySorted no_less (sort_insert WordTokenizer.by_frequency x l).
Proof.
  intros [cx Hx] Hnum Hs. induction l as [|y l IH]; simpl.
  - repeat constructor.
  - inversion Hnum as [|? ? [cy Hy] Hnum']; subst.
    apply StronglySorted_inv in Hs. destruct Hs as [Hs Hall].
    rewrite (by_frequency_numeric y x cy cx Hy Hx).
    destruct (Z.leb_spec (cx - cy) 0).
    + constructor; [apply IH; assumption|].
      apply (Forall_perm _ (x :: l)).
      * symmetry. apply sort_insert_perm.
      * constructor; [|exact Hall]. exists cy, cx. repeat split; auto. lia.
    + constructor; [constructor; assumption|].
      constructor; [exists cx, cy; repeat split; auto; lia|].
      rewrite Forall_forall in Hall |- *. intros z Hz.
      destruct (Hall z Hz) as (c1 & c2 & E1 & E2 & L).
      exists cx, c2. repeat split; auto.
      rewrite Hy in E1. injection E1 as <-. lia.
Qed.

Lemma js_sort_descending l :
  numeric_entries l ->
  StronglySorted no_less (js_sort WordTokenizer.by_frequency l).
Proof.
  intros Hnum. unfold js_sort.
  assert (G : forall acc,
             numeric_entries acc -> StronglySorted no_less acc ->
             StronglySorted no_less
               (fold_left (fun acc x => sort_insert WordTokenizer.by_frequency x acc)
                  l acc)).
  { induction l as [|x l IH]; intros acc Hacc Hs; simpl; [exact Hs|].
    inversion Hnum as [|? ? Hx Hl]; subst.
    apply (IH Hl).
    - apply (Forall_perm _ (x :: acc)).
      + symmetry. apply sort_insert_perm.
      + constructor; assumption.
    - apply sort_insert_descending; assumption. }
  apply G; constructor.
Qed.

Lemma sorted_nth {A} (R : A -> A -> Prop) l i j a b :
  StronglySorted R l ->
  nth_error l i = Some a -> nth_error l j = Some b -> (i < j)%nat -> R a b.
Proof.
  intros Hs. revert i j. induction Hs as [|x l Hs IH Hall]; intros i j Ha Hb Hij.
  - destruct i; discriminate.
  - destruct j as [|j]; [lia|]. simpl in Hb.
    destruct i as [|i]; simpl in Ha.
    + injection Ha as <-. rewrite Forall_forall in Hall.
      apply Hall. apply (nth_error_In _ _ Hb).
    + apply (IH i j Ha Hb). lia.
Qed.

Lemma sorted_app {A} (R : A -> A -> Prop) l1 l2 a b :
  StronglySorted R (l1 ++ l2) -> In a l1 -> In b l2 -> R a b.
Proof.
  induction l1 as [|x l1 IH]; simpl; intros Hs Ha Hb; [destruct Ha|].
  apply StronglySorted_inv in Hs. destruct Hs as [Hs Hall].
  destruct Ha as [->|Ha]; [|auto].
  rewrite Forall_forall in Hall. apply Hall. apply in_or_app. auto.
Qed.

Lemma id_writes_In_nth items index x v :
  In (x, VNum v) (id_writes items index) ->
  exists i, nth_error items i = Some x /\ v = index + Z.of_nat i.
Proof.
  unfold id_writes. revert index.
  induction items as [|y items IH]; intros index; simpl; [tauto|].
  intros [H|H].
  - injection H as -> ->. exists 0%nat. split; [reflexivity|lia].
  - destruct (IH _ H) as (i & Hi & ->). exists (S i). split; [exact Hi|lia].
Qed.

End SortedFacts.

Section WordOrder.
Variable toLowerCase : jsstring -> jsstring.
Variables (maxVocabSize : Z) (texts : list jsstring).
Hypothesis plain_corpus :
  no_inherited_name (corpus_words toLowerCase texts) = true.

Let counts := WordTokenizer.count_words toLowerCase texts.
Let sorted := js_sort WordTokenizer.by_frequency counts.
Let tk :=
  WordTokenizer.buildVocabulary toLowerCase
    (WordTokenizer.new maxVocabSize) texts.

Lemma counts_numeric : numeric_entries counts.
Proof.
  apply Forall_forall. intros [k v] H.
  apply In_own_lookup in H; [|apply count_words_NoDup].
  destruct (proj1 (count_words_counts toLowerCase texts plain_corpus) k v H)
    as (c & -> & _).
  exists c. reflexivity.
Qed.

Lemma sorted_descending : StronglySorted no_less sorted.
Proof. apply js_sort_descending, counts_numeric. Qed.

Lemma sorted_entry_count e :
  In e sorted ->
  snd e = VNum (occurrences (fst e) (corpus_words toLowerCase texts)).
Proof.
  intros H. apply (Permutation_in _ (js_sort_perm _ counts)) in H.
  destruct e as [k v]. apply In_own_lookup in H; [|apply count_words_NoDup].
  pose proof (proj2 (count_words_counts toLowerCase texts plain_corpus) k) as C.
  unfold counted in C. fold counts in C. rewrite H in C.
  destruct (proj1 (count_words_counts toLowerCase texts plain_corpus) k v H)
    as (c & -> & _).
  simpl. now rewrite C.
Qed.

Lemma no_less_occurrences a b :
  In a sorted -> In b sorted -> no_less a b ->
  occurrences (fst b) (corpus_words toLowerCase texts)
  <= occurrences (fst a) (corpus_words toLowerCase texts).
Proof.
  intros Ha Hb (ca & cb & Ea & Eb & L).
  rewrite (sorted_entry_count a Ha) in Ea.
  rewrite (sorted_entry_count b Hb) in Eb.
  injection Ea as ->. injection Eb as ->. exact L.
Qed.

(** The kept entries are a prefix of the sorted ones. *)
Lemma kept_prefix :
  exists k, word_items toLowerCase maxVocabSize texts
            = map fst (firstn k sorted).
Proof.
  unfold word_items. fold counts. fold sorted.
  destruct (slice0_firstn sorted (maxVocabSize - 4)) as [k E].
  exists k. now rewrite E.
Qed.

Lemma word_id_position w n :
  own_lookup (WordTokenizer.vocab tk) w = Some (VNum n) -> 4 <= n ->
  exists k e,
    word_items toLowerCase maxVocabSize texts = map fst (firstn k sorted)
    /\ nth_error (firstn k sorted) (Z.to_nat (n - 4)) = Some e
    /\ fst e = w.
Proof.
  intros H Hn.
  pose proof (word_items_NoDup toLowerCase maxVocabSize texts) as Hnd.
  pose proof (word_items_plain toLowerCase maxVocabSize texts) as Hpl.
  apply (fresh_vocab_lookup _ Hnd Hpl) in H.
  apply in_app_or in H. destruct H as [H|H].
  - exfalso. simpl in H.
    destruct H as [H|[H|[H|[H|[]]]]]; injection H as _ E; lia.
  - apply id_writes_In_nth in H. destruct H as (i & Hi & ->).
    destruct kept_prefix as [k Ek]. exists k.
    rewrite Ek, nth_error_map in Hi.
    destruct (nth_error (firstn k sorted) i) as [e|] eqn:E; [|discriminate].
    exists e. replace (Z.to_nat (4 + Z.of_nat i - 4)) with i by lia.
    simpl in Hi. injection Hi as <-. auto.
Qed.

Lemma firstn_nth_error {A} k (l : list A) i e :
  nth_error (firstn k l) i = Some e -> nth_error l i = Some e.
Proof.
  rewrite nth_error_firstn. destruct (Nat.ltb i k); [auto|discriminate].
Qed.

Lemma word_ids_descend w1 w2 n1 n2 :
  own_lookup (WordTokenizer.vocab tk) w1 = Some (VNum n1) ->
  own_lookup (WordTokenizer.vocab tk) w2 = Some (VNum n2) ->
  4 <= n1 -> n1 <= n2 ->
  occurrences w2 (corpus_words toLowerCase texts)
  <= occurrences w1 (corpus_words toLowerCase texts).
Proof.
  intros H1 H2 L1 L2.
  destruct (word_id_position w1 n1 H1 L1) as (k & e1 & Ek & E1 & <-).
  destruct (word_id_position w2 n2 H2 ltac:(lia)) as (k' & e2 & Ek' & E2 & <-).
  apply firstn_nth_error in E1, E2.
  destruct (Z.eq_dec n1 n2) as [->|Hne].
  - rewrite E1 in E2. injection E2 as ->. lia.
  - apply no_less_occurrences.
    + apply (nth_error_In _ _ E1).
    + apply (nth_error_In _ _ E2).
    + apply (sorted_nth no_less sorted _ _ _ _ sorted_descending E1 E2). lia.
Qed.

Lemma word_dropped_least w w' n' :
  0 < occurrences w (corpus_words toLowerCase texts) ->
  own_lookup (WordTokenizer.vocab tk) w = None ->
  own_lookup (WordTokenizer.vocab tk) w' = Some (VNum n') -> 4 <= n' ->
  occurrences w (corpus_words toLowerCase texts)
  <= occurrences w' (corpus_words toLowerCase texts).
Proof.
  intros Hw Hno H' L'.
  destruct (word_id_position w' n' H' L') as (k & e' & Ek & E' & <-).
  pose proof (nth_error_In _ _ E') as Hin'.
  assert (Hc : In (w, VNum (occurrences w (corpus_words toLowerCase texts)))
                 sorted).
  { apply (Permutation_in _ (Permutation_sym (js_sort_perm _ counts))).
    apply own_lookup_In.
    pose proof (count_words_counts toLowerCase texts plain_corpus) as [P C].
    specialize (C w). unfold counted in C. fold counts in C.
    destruct (own_lookup counts w) as [v|] eqn:E; [|lia].
    destruct (P w v E) as (c & -> & _). now subst c. }
  rewrite <- (firstn_skipn k sorted) in Hc.
  apply in_app_or in Hc. destruct Hc as [Hc|Hc].
  - exfalso.
    pose proof (word_items_NoDup toLowerCase maxVocabSize texts) as Hnd.
    pose proof (word_items_plain toLowerCase maxVocabSize texts) as Hpl.
    assert (Hi : In w (word_items toLowerCase maxVocabSize texts)).
    { rewrite Ek. apply (in_map fst) in Hc. exact Hc. }
    destruct (combine_partner _ (ids_from 4 (List.length
                 (word_items toLowerCase maxVocabSize texts))) w
                ltac:(now rewrite ids_from_length) Hi) as [y Hy].
    assert (G : own_lookup (WordTokenizer.vocab tk) w = Some y).
    { apply (fresh_vocab_lookup _ Hnd Hpl). apply in_or_app. right. exact Hy. }
    rewrite Hno in G. discriminate.
  - pose proof (sorted_descending) as Hs.
    rewrite <- (firstn_skipn k sorted) in Hs.
    pose proof (sorted_app no_less _ _ _ _ Hs Hin' Hc) as R.
    change w with (fst (w, VNum (occurrences w (corpus_words toLowerCase texts)))).
    apply no_less_occurrences.
    + apply (firstn_In _ _ _ Hin').
    + rewrite <- (firstn_skipn k sorted). apply in_or_app. auto.
    + exact R.
Qed.

End WordOrder.

Section WordSize.

Lemma slice0_length {A} (l : list A) e :
  Z.of_nat (List.length (slice0 l e))
  = if Z.ltb e 0 then Z.max (Z.of_nat (List.length l) + e) 0
    else Z.min e (Z.of_nat (List.length l)).
Proof.
  unfold slice0. rewrite length_firstn.
  destruct (Z.ltb_spec e 0); lia.
Qed.

Lemma word_vocab_size toLowerCase maxVocabSize texts :
  WordTokenizer.vocabSize
    (WordTokenizer.buildVocabulary toLowerCase
       (WordTokenizer.new maxVocabSize) texts)
  = 4 + Z.of_nat (List.length (word_items toLowerCase maxVocabSize texts)).
Proof.
  apply (fresh_vocab_size _ (word_items_NoDup toLowerCase maxVocabSize texts)
           (word_items_plain toLowerCase maxVocabSize texts)).
Qed.

End WordSize.

(** X5: when no word unit of the corpus is a property name inherited
    from [Object.prototype], the ids of a [WordTokenizer] from 4 on
    follow descending frequency: a word with a smaller id occurs at
    least as often as one with a larger id, and a word of the corpus
    that [maxVocabSize] left out of the vocabulary occurs at most as
    often as every word that is in it. *)
Theorem X5_word_ids_follow_frequency
  (toLowerCase : jsstring -> jsstring) (maxVocabSize : Z)
  (texts : list jsstring) :
  no_inherited_name (corpus_words toLowerCase texts) = true ->
  let tk := WordTokenizer.buildVocabulary toLowerCase
              (WordTokenizer.new maxVocabSize) texts in
  let freq := fun w => occurrences w (corpus_words toLowerCase texts) in
  (forall w1 w2 n1 n2,
      own_lookup (WordTokenizer.vocab tk) w1 = Some (VNum n1) ->
      own_lookup (WordTokenizer.vocab tk) w2 = Some (VNum n2) ->
      4 <= n1 -> n1 <= n2 -> freq w2 <= freq w1)
  /\ (forall w w' n',
        0 < freq w ->
        own_lookup (WordTokenizer.vocab tk) w = None ->
        own_lookup (WordTokenizer.vocab tk) w' = Some (VNum n') -> 4 <= n' ->
        freq w <= freq w').
Proof.
  intros H tk freq. split.
  - apply (word_ids_descend toLowerCase maxVocabSize texts H).
  - apply (word_dropped_least toLowerCase maxVocabSize texts H).
Qed.

Lemma X5_word_ids_follow_frequency_witness :
  occurrences (str "a") (corpus_words ascii_lower [str "b a b c b a"])
  <= occurrences (str "b") (corpus_words ascii_lower [str "b a b c b a"])
  /\ occurrences (str "c") (corpus_words ascii_lower [str "b a b c b a"])
     <= occurrences (str "a") (corpus_words ascii_lower [str "b a b c b a"]).
Proof.
  split.
  - apply (proj1 (X5_word_ids_follow_frequency ascii_lower 6
                    [str "b a b c b a"] eq_refl) (str "b") (str "a") 4 5);
      vm_compute; (reflexivity || discriminate).
  - apply (proj2 (X5_word_ids_follow_frequency ascii_lower 6
                    [str "b a b c b a"] eq_refl) (str "c") (str "a") 5);
      vm_compute; (reflexivity || discriminate).
Defined.

Section WordDistinctFacts.

Lemma word_vocabulary_size_keys
  (toLowerCase : jsstring -> jsstring) (maxVocabSize : Z)
  (texts : list jsstring) :
  let tk := WordTokenizer.buildVocabulary toLowerCase
              (WordTokenizer.new maxVocabSize) texts in
  let distinct := keys_length (WordTokenizer.count_words toLowerCase texts) in
  (4 <= maxVocabSize ->
   WordTokenizer.vocabSize tk = 4 + Z.min (maxVocabSize - 4) distinct
   /\ WordTokenizer.vocabSize tk <= maxVocabSize)
  /\ (maxVocabSize < 4 ->
      WordTokenizer.vocabSize tk
      = 4 + Z.max (distinct + (maxVocabSize - 4)) 0).
Proof.
  intros tk distinct.
  assert (E : WordTokenizer.vocabSize tk
              = 4 + (if Z.ltb (maxVocabSize - 4) 0
                     then Z.max (distinct + (maxVocabSize - 4)) 0
                     else Z.min (maxVocabSize - 4) distinct)).
  { unfold tk. rewrite word_vocab_size. f_equal.
    unfold word_items. rewrite length_map, slice0_length.
    rewrite (Permutation_length (js_sort_perm _ _)). reflexivity. }
  split; intros H; rewrite E; destruct (Z.ltb_spec (maxVocabSize - 4) 0);
    lia.
Qed.

Lemma first_seen_fold l :
  first_seen [] l = fold_left (fun s c => set_add c s) l [].
Proof. now rewrite add_all_first_seen. Qed.

Lemma first_seen_distinct l :
  NoDup (first_seen [] l) /\ forall x, In x (first_seen [] l) <-> In x l.
Proof.
  rewrite first_seen_fold. split.
  - apply add_all_NoDup. constructor.
  - intros x. rewrite add_all_In. simpl. tauto.
Qed.

Lemma count_word_own o w k :
  own_lookup (WordTokenizer.count_word o w) k <> None
  <-> own_lookup o k <> None \/ (w = k /\ k <> proto_key).
Proof.
  unfold WordTokenizer.count_word. rewrite own_lookup_set.
  destruct (str_eqb w k) eqn:E1.
  - apply str_eqb_eq in E1. subst k.
    destruct (str_eqb w proto_key) eqn:E2; cbn [negb andb].
    + apply str_eqb_eq in E2. split; [tauto|]. intros [H|[_ H]]; tauto.
    + apply str_eqb_neq in E2. split; [auto|discriminate].
  - apply str_eqb_neq in E1. cbn [andb]. split; [tauto|].
    intros [H|[H _]]; [exact H|contradiction].
Qed.

Lemma count_all_own ws o k :
  own_lookup (fold_left WordTokenizer.count_word ws o) k <> None
  <-> own_lookup o k <> None \/ (In k ws /\ k <> proto_key).
Proof.
  revert o. induction ws as [|w ws IH]; intros o.
  - simpl. tauto.
  - cbn [fold_left]. rewrite IH, count_word_own. simpl.
    split.
    + intros [[H|[-> H]]|[H1 H2]]; auto.
    + intros [H|[[->|H1] H2]]; auto.
Qed.

(** The counter has one entry for every distinct word unit of the
    corpus, except that "__proto__" never becomes an entry. *)
Lemma count_words_distinct toLowerCase texts :
  keys_length (WordTokenizer.count_words toLowerCase texts)
  = distinct_words toLowerCase texts.
Proof.
  unfold keys_length, distinct_words. f_equal.
  rewrite <- (length_map fst (WordTokenizer.count_words toLowerCase texts)).
  apply Permutation_length, NoDup_Permutation.
  - apply count_words_NoDup.
  - apply NoDup_filter, first_seen_distinct.
  - intros k. rewrite filter_In, (proj2 (first_seen_distinct _)).
    rewrite count_words_flat.
    pose proof (count_all_own (corpus_words toLowerCase texts) [] k) as H.
    cbn [own_lookup] in H.
    split.
    + intros Hin.
      assert (Hown : own_lookup
                       (fold_left WordTokenizer.count_word
                          (corpus_words toLowerCase texts) []) k <> None).
      { intros E. apply own_lookup_None in E. contradiction. }
      apply H in Hown. destruct Hown as [Hown|[H1 H2]]; [congruence|].
      split; [exact H1|]. apply str_eqb_neq in H2. now rewrite H2.
    + intros [H1 H2].
      assert (Hn : k <> proto_key).
      { apply str_eqb_neq. now destruct (str_eqb k proto_key). }
      assert (Hown : own_lookup
                       (fold_left WordTokenizer.count_word
                          (corpus_words toLowerCase texts) []) k <> None)
        by (apply H; right; split; assumption).
      destruct (own_lookup
                  (fold_left WordTokenizer.count_word
                     (corpus_words toLowerCase texts) []) k) as [v|] eqn:E;
        [|congruence].
      apply own_lookup_In in E. apply (in_map fst) in E. exact E.
Qed.

End WordDistinctFacts.

(** X6: [vocabSize] of a new [WordTokenizer] after one call of
    [buildVocabulary] is 4 plus the number of kept words, counted
    against the distinct word units of the lower-cased corpus other
    than "__proto__" (which never becomes an entry of the counter):
    with [maxVocabSize >= 4] it is 4 + min(maxVocabSize - 4, number of
    those units) and so at most [maxVocabSize]; with
    [maxVocabSize < 4] the negative [slice] end drops only the last
    [4 - maxVocabSize] words, so the size is 4 + max(number of those
    units + maxVocabSize - 4, 0). *)
Theorem X6_word_vocabulary_size
  (toLowerCase : jsstring -> jsstring) (maxVocabSize : Z)
  (texts : list jsstring) :
  let tk := WordTokenizer.buildVocabulary toLowerCase
              (WordTokenizer.new maxVocabSize) texts in
  let distinct := distinct_words toLowerCase texts in
  (4 <= maxVocabSize ->
   WordTokenizer.vocabSize tk = 4 + Z.min (maxVocabSize - 4) distinct
   /\ WordTokenizer.vocabSize tk <= maxVocabSize)
  /\ (maxVocabSize < 4 ->
      WordTokenizer.vocabSize tk
      = 4 + Z.max (distinct + (maxVocabSize - 4)) 0).
Proof.
  intros tk distinct. unfold tk, distinct.
  rewrite <- count_words_distinct.
  apply word_vocabulary_size_keys.
Qed.

Lemma X6_word_vocabulary_size_witness :
  (let tk := WordTokenizer.buildVocabulary ascii_lower (WordTokenizer.new 100)
               [str "__proto__ __proto__ a b b"] in
   WordTokenizer.vocabSize tk
   = 4 + Z.min (100 - 4)
           (distinct_words ascii_lower [str "__proto__ __proto__ a b b"])
   /\ WordTokenizer.vocabSize tk <= 100)
  /\ (let tk := WordTokenizer.buildVocabulary ascii_lower (WordTokenizer.new 3)
                  [str "a b c d e f"] in
      WordTokenizer.vocabSize tk
      = 4 + Z.max (distinct_words ascii_lower [str "a b c d e f"] + (3 - 4)) 0).
Proof.
  split.
  - apply (proj1 (X6_word_vocabulary_size ascii_lower 100
                    [str "__proto__ __proto__ a b b"])).
    lia.
  - apply (proj2 (X6_word_vocabulary_size ascii_lower 3 [str "a b c d e f"])).
    lia.
Defined.

(** X7: for a new [WordTokenizer] after one call of [buildVocabulary]
    and a text none of whose word units is a property name inherited
    from [Object.prototype],
    [decode(encode(text))] is the lower-cased word units of the text
    joined by single spaces, each unit that the vocabulary lacks
    replaced by "<UNK>": the original spacing and letter case are not
    restored. *)
Theorem X7_word_round_trip
  (toLowerCase : jsstring -> jsstring) (maxVocabSize : Z)
  (texts : list jsstring) (text : jsstring) :
  no_inherited_name (WordTokenizer.words_of toLowerCase text) = true ->
  let tk := WordTokenizer.buildVocabulary toLowerCase
              (WordTokenizer.new maxVocabSize) texts in
  WordTokenizer.decode tk (WordTokenizer.encode toLowerCase tk text)
  = join (str " ")
      (map (shown (WordTokenizer.vocab tk) UNK)
         (WordTokenizer.words_of toLowerCase text)).
Proof.
  intros Hplain tk. unfold WordTokenizer.decode, tk.
  rewrite (word_encode toLowerCase maxVocabSize texts text Hplain), map_map.
  f_equal. apply map_ext_in. intros w Hw.
  pose proof (word_well_formed toLowerCase maxVocabSize texts) as (_ & Hinv & _).
  change (decode_unit
            (WordTokenizer.reverseVocab
               (WordTokenizer.buildVocabulary toLowerCase
                  (WordTokenizer.new maxVocabSize) texts)) UNK
            (id_or (WordTokenizer.vocab
                      (WordTokenizer.buildVocabulary toLowerCase
                         (WordTokenizer.new maxVocabSize) texts)) 1 w)
          = shown (WordTokenizer.vocab
                     (WordTokenizer.buildVocabulary toLowerCase
                        (WordTokenizer.new maxVocabSize) texts)) UNK w).
  unfold shown, has_own, id_or.
  destruct (own_lookup _ w) as [v|] eqn:E.
  - destruct (word_unit_id toLowerCase maxVocabSize texts w v
                (words_of_shape toLowerCase text w Hw) E) as (n & -> & _).
    apply (decode_unit_known _ _ UNK w n Hinv E).
    apply (match_words_nonempty _ _ _ Hw).
  - apply (decode_unit_known _ _ UNK UNK 1 Hinv
             (word_unk toLowerCase maxVocabSize texts)).
    discriminate.
Qed.

Lemma X7_word_round_trip_witness :
  let tk := WordTokenizer.buildVocabulary ascii_lower (WordTokenizer.new 100)
              [str "Hey there, you"] in
  WordTokenizer.decode tk (WordTokenizer.encode ascii_lower tk (str "HEY,  who?"))
  = str "hey , <UNK> <UNK>".
Proof.
  apply (X7_word_round_trip ascii_lower 100 [str "Hey there, you"]
           (str "HEY,  who?")).
  vm_compute. reflexivity.
Defined.

(** X8: a new [WordTokenizer] after one call of [buildVocabulary]
    decodes a list of ids by joining the pieces of the single ids with
    one space; an id that a token carries decodes to that token, and a
    number outside [0, vocabSize) decodes to "<UNK>". *)
Theorem X8_word_decode_ids
  (toLowerCase : jsstring -> jsstring) (maxVocabSize : Z)
  (texts : list jsstring) :
  let tk := WordTokenizer.buildVocabulary toLowerCase
              (WordTokenizer.new maxVocabSize) texts in
  (forall tokens,
      WordTokenizer.decode tk tokens
      = join (str " ") (map (fun token => WordTokenizer.decode tk [token]) tokens))
  /\ (forall k n,
        own_lookup (WordTokenizer.vocab tk) k = Some (VNum n) ->
        WordTokenizer.decode tk [VNum n] = k)
  /\ (forall n,
        ~ (0 <= n < WordTokenizer.vocabSize tk) ->
        WordTokenizer.decode tk [VNum n] = UNK).
Proof.
  intros tk.
  pose proof (word_well_formed toLowerCase maxVocabSize texts)
    as (_ & Hinv & Hcont & _).
  fold tk in Hinv, Hcont.
  split; [|split].
  - intros tokens. unfold WordTokenizer.decode. f_equal.
  - intros k n H.
    apply (decode_unit_known _ _ UNK k n Hinv H).
    apply (word_key_nonempty toLowerCase maxVocabSize texts k n H).
  - intros n Hn.
    apply (decode_unit_unknown _ _ UNK n Hinv).
    intros k Hk. apply Hn. apply Hcont. exists k. exact Hk.
Qed.

Lemma X8_word_decode_ids_witness :
  let tk := WordTokenizer.buildVocabulary ascii_lower (WordTokenizer.new 100)
              [str "a b"] in
  WordTokenizer.decode tk [VNum 5] = str "b"
  /\ WordTokenizer.decode tk [VNum (-1)] = UNK.
Proof.
  split.
  - apply (proj1 (proj2 (X8_word_decode_ids ascii_lower 100 [str "a b"]))).
    vm_compute. reflexivity.
  - apply (proj2 (proj2 (X8_word_decode_ids ascii_lower 100 [str "a b"]))).
    vm_compute. intros [H _]. apply H. reflexivity.
Defined.

Section SolidFacts.
Import SimpleBPETokenizer.

Lemma split_white_space_solid s cur in_run w :
  Forall solid cur ->
  In w (split_white_space s cur in_run) -> Forall solid w.
Proof.
  revert cur in_run. induction s as [|c s IH]; intros cur in_run Hcur; simpl.
  - intros [<-|[]]. apply Forall_rev, Hcur.
  - destruct (is_white_space c) eqn:E.
    + destruct in_run.
      * apply IH. constructor.
      * intros [<-|H]; [apply Forall_rev, Hcur|].
        revert H. apply IH. constructor.
    + apply IH. constructor; assumption.
Qed.

Lemma split_words_solid texts : solid_words (split_words texts).
Proof.
  apply Forall_forall. intros w H. unfold split_words in H.
  apply in_flat_map in H. destruct H as (text & _ & H).
  apply filter_In in H. destruct H as [H _].
  apply (split_white_space_solid _ _ _ _ (Forall_nil _) H).
Qed.

Lemma split_words_nonempty texts w : In w (split_words texts) -> w <> [].
Proof.
  unfold split_words. intros H. apply in_flat_map in H.
  destruct H as (text & _ & H). apply filter_In in H.
  destruct H as [_ H]. destruct w; [discriminate|discriminate].
Qed.

(** Replacing keeps white space out. *)
Lemma substitute_solid template matched before after :
  Forall solid template -> Forall solid matched ->
  Forall solid before -> Forall solid after ->
  Forall solid (substitute template matched before after).
Proof.
  intros Ht Hm Hb Ha.
  assert (G : forall n t, (List.length t <= n)%nat -> Forall solid t ->
                          Forall solid (substitute t matched before after)).
  { induction n as [|n IH]; intros t L H; destruct t as [|c t];
      try (cbn [substitute]; constructor; fail); [simpl in L; lia|].
    assert (L' : (List.length t <= n)%nat) by (simpl in L; lia).
    inversion H as [|? ? Hc Ht']; subst.
    cbn [substitute]. destruct (N.eqb c (ch "$")).
    - destruct t as [|d t]; [repeat constructor; exact Hc|].
      inversion Ht' as [|? ? Hd Ht'']; subst.
      assert (R : Forall solid (substitute t matched before after))
        by (apply IH; [simpl in L'; lia | exact Ht'']).
      destruct (N.eqb d (ch "$")); [constructor; [reflexivity|exact R]|].
      destruct (N.eqb d (ch "&")); [apply Forall_app; auto|].
      destruct (N.eqb d (ch "`")); [apply Forall_app; auto|].
      destruct (N.eqb d (ch "'")); [apply Forall_app; auto|].
      constructor; [exact Hc|]. apply IH; [exact L' | exact Ht'].
    - constructor; [exact Hc|]. apply IH; [exact L' | exact Ht']. }
  apply (G (List.length template)); auto.
Qed.

Lemma replace_loop_solid d template rest :
  Forall solid template ->
  forall before skip,
    Forall solid before -> Forall solid rest ->
    Forall solid (replace_loop d template before rest skip).
Proof.
  intros Ht. induction rest as [|c r IH]; intros before skip Hb Hr.
  - destruct skip; simpl; [|constructor].
    destruct (match_at d (hd_error before) []) as [n|]; [|constructor].
    apply Forall_app. split; [|destruct n; constructor].
    apply substitute_solid; auto.
    + rewrite firstn_nil. constructor.
    + apply Forall_rev, Hb.
    + rewrite skipn_nil. constructor.
  - inversion Hr as [|? ? Hc Hr']; subst.
    assert (Hb' : Forall solid (c :: before)) by (constructor; assumption).
    destruct skip as [|k]; cbn [replace_loop].
    + destruct (match_at d (hd_error before) (c :: r)) as [n|].
      * apply Forall_app. split.
        -- apply substitute_solid; auto.
           ++ apply Forall_forall. intros x Hx.
              rewrite Forall_forall in Hr. apply Hr.
              rewrite <- (firstn_skipn n (c :: r)). apply in_or_app. auto.
           ++ apply Forall_rev, Hb.
           ++ apply Forall_forall. intros x Hx.
              rewrite Forall_forall in Hr. apply Hr.
              rewrite <- (firstn_skipn n (c :: r)). apply in_or_app. auto.
        -- destruct n; [constructor; [exact Hc|]|]; apply IH; assumption.
      * constructor; [exact Hc|]. apply IH; assumption.
    + apply IH; assumption.
Qed.

Lemma replace_all_solid source template subject r :
  Forall solid template -> Forall solid subject ->
  regexp_replace_all source template subject = Returns r ->
  Forall solid r.
Proof.
  unfold regexp_replace_all. intros Ht Hs.
  destruct (compile source) as [d| |]; simpl; try discriminate.
  intros [= <-]. apply replace_loop_solid; auto.
Qed.

Lemma map_outcome_Forall {A B} (f : A -> outcome B) (P : A -> Prop)
  (Q : B -> Prop) l ys :
  (forall x y, P x -> f x = Returns y -> Q y) ->
  Forall P l -> map_outcome f l = Returns ys -> Forall Q ys.
Proof.
  intros Hf. revert ys. induction l as [|x l IH]; intros ys Hl; simpl.
  - intros [= <-]. constructor.
  - inversion Hl; subst.
    destruct (f x) as [y| |] eqn:E; simpl; try discriminate.
    destruct (map_outcome f l) as [ys'| |]; simpl; try discriminate.
    intros [= <-]. constructor; [apply (Hf x y); assumption | auto].
Qed.

(** The keys of the pair map are pairs of adjacent code units of the
    words. *)
Lemma pairs_of_word_solid word p :
  Forall solid word -> In p (pairs_of_word word) -> solid_pair p.
Proof.
  induction word as [|a word IH]; simpl; [tauto|].
  intros H. inversion H as [|? ? Ha Hw]; subst.
  destruct word as [|b word]; [intros []|].
  intros [<-|Hp]; [|auto].
  inversion Hw; subst. exists a, b. auto.
Qed.

Lemma pair_frequencies_from_words words p :
  In p (map fst (getPairFrequencies words)) ->
  exists w, In w words /\ In p (pairs_of_word w).
Proof.
  unfold getPairFrequencies.
  assert (G : forall m,
             (forall p, In p (map fst m) ->
                        exists w, In w words /\ In p (pairs_of_word w)) ->
             forall ws, incl ws words ->
             forall p,
               In p (map fst
                 (fold_left
                    (fun pairs word =>
                       fold_left
                         (fun pairs pair_ =>
                            map_set pair_
                              (js_add (js_or (map_get pairs pair_) (VNum 0))
                                 (VNum 1)) pairs)
                         (pairs_of_word word) pairs)
                    ws m)) ->
               exists w, In w words /\ In p (pairs_of_word w)).
  { intros m Hm ws. revert m Hm.
    induction ws as [|w ws IH]; intros m Hm Hincl; simpl; [exact Hm|].
    apply IH; [|intros x Hx; apply Hincl; simpl; auto].
    assert (Hw : In w words) by (apply Hincl; simpl; auto).
    assert (F : forall ps m',
               incl ps (pairs_of_word w) ->
               (forall p, In p (map fst m') ->
                          exists w, In w words /\ In p (pairs_of_word w)) ->
               forall p,
                 In p (map fst
                   (fold_left
                      (fun pairs pair_ =>
                         map_set pair_
                           (js_add (js_or (map_get pairs pair_) (VNum 0))
                              (VNum 1)) pairs)
                      ps m')) ->
                 exists w, In w words /\ In p (pairs_of_word w)).
    { induction ps as [|q ps IHp]; intros m' Hps Hm'; simpl; [exact Hm'|].
      apply IHp; [intros x Hx; apply Hps; simpl; auto|].
      intros x Hx. apply map_set_keys in Hx. destruct Hx as [->|Hx]; [|auto].
      exists w. split; [exact Hw|]. apply Hps. simpl; auto. }
    apply F; [apply incl_refl | exact Hm]. }
  apply (G [] (fun p H => match H with end) words (incl_refl _)).
Qed.

Lemma most_frequent_solid words p v rest :
  solid_words words ->
  js_sort by_count (getPairFrequencies words) = (p, v) :: rest ->
  solid_pair p.
Proof.
  intros Hs E.
  assert (Hin : In p (map fst (getPairFrequencies words))).
  { apply (Permutation_in (l := map fst (js_sort by_count (getPairFrequencies words)))).
    - apply Permutation_map, js_sort_perm.
    - rewrite E. simpl. auto. }
  apply pair_frequencies_from_words in Hin. destruct Hin as (w & Hw & Hp).
  unfold solid_words in Hs. rewrite Forall_forall in Hs.
  apply (pairs_of_word_solid w p (Hs w Hw) Hp).
Qed.

Lemma solid_not_space a : solid a -> N.eqb a 32 = false.
Proof.
  unfold solid. intros H. destruct (N.eqb_spec a 32) as [->|]; [|reflexivity].
  vm_compute in H. discriminate.
Qed.

Lemma solid_pair_token p :
  solid_pair p ->
  exists a b, p = [a; 32%N; b] /\ first_plus_second p = [a; b]
              /\ solid a /\ solid b.
Proof.
  intros (a & b & -> & Ha & Hb). exists a, b. repeat split; auto.
  unfold first_plus_second. simpl.
  rewrite (solid_not_space a Ha), (solid_not_space b Hb). reflexivity.
Qed.

Lemma learned_pairs_solid remaining words ps :
  solid_words words ->
  learned_pairs remaining words = Returns ps ->
  Forall solid_pair ps.
Proof.
  revert words ps. induction remaining as [|n IH]; intros words ps Hs.
  - simpl. intros [= <-]. constructor.
  - cbn [learned_pairs].
    destruct (js_sort by_count (getPairFrequencies words))
      as [|[q v] rest] eqn:E.
    + intros [= <-]. constructor.
    + pose proof (most_frequent_solid _ _ _ _ Hs E) as Hq.
      destruct (solid_pair_token q Hq) as (a & b & _ & Et & Ha & Hb).
      destruct (map_outcome _ words) as [words'| |] eqn:M; simpl;
        try discriminate.
      destruct (learned_pairs n words') as [ps'| |] eqn:L; simpl;
        try discriminate.
      intros [= <-]. constructor; [exact Hq|].
      apply (IH words' ps'); [|exact L].
      assert (HT : Forall solid (first_plus_second q))
        by (rewrite Et; repeat constructor; assumption).
      apply (map_outcome_Forall _ (Forall solid) (Forall solid) _ _
               (fun x y Hx Hy => replace_all_solid _ _ _ _ HT Hx Hy)
               Hs M).
Qed.

End SolidFacts.

Section BPETokenFacts.
Import SimpleBPETokenizer.

Lemma learned_pairs_length remaining words ps :
  learned_pairs remaining words = Returns ps ->
  (List.length ps <= remaining)%nat.
Proof.
  revert words ps. induction remaining as [|n IH]; intros words ps.
  - simpl. intros [= <-]. simpl. lia.
  - cbn [learned_pairs].
    destruct (js_sort by_count (getPairFrequencies words)) as [|[q v] rest].
    + intros [= <-]. simpl. lia.
    + destruct (map_outcome _ words) as [words'| |]; simpl; try discriminate.
      destruct (learned_pairs n words') as [ps'| |] eqn:L; simpl;
        try discriminate.
      intros [= <-]. simpl. specialize (IH _ _ L). lia.
Qed.

Lemma set_length_bound k v o :
  (List.length (obj_set k v o) <= S (List.length o))%nat.
Proof.
  unfold obj_set. destruct (str_eqb k proto_key); [lia|].
  destruct (own_lookup o k) eqn:E.
  - unfold obj_define. rewrite E, update_length. lia.
  - rewrite define_length_fresh by exact E. lia.
Qed.

Lemma set_all_length_bound W o :
  (List.length (set_all W o) <= List.length o + List.length W)%nat.
Proof.
  revert o. induction W as [|[k v] W IH]; intros o; simpl; [lia|].
  specialize (IH (obj_set k v o)).
  pose proof (set_length_bound k v o). simpl in *. lia.
Qed.

Lemma bpe_char_solid texts x :
  In x (collect_chars (split_words texts)) ->
  (1 <= List.length x <= 2)%nat /\ Forall solid x.
Proof.
  intros H. apply (collect_In code_points) in H.
  destruct H as [[]|(w & Hw & H)]. split.
  - apply (code_point_length _ _ H).
  - pose proof (split_words_solid texts) as Hs.
    unfold solid_words in Hs. rewrite Forall_forall in Hs.
    specialize (Hs w Hw). rewrite Forall_forall in Hs |- *.
    intros c Hc. apply Hs.
    rewrite <- (concat_code_points w). apply in_concat. eauto.
Qed.

Lemma bpe_key_solid n texts tk k v :
  buildVocabulary (new n) texts = Returns tk ->
  own_lookup (vocab tk) k = Some v ->
  (1 <= List.length k <= 2)%nat /\ Forall solid k.
Proof.
  intros Hb H.
  destruct (bpe_lookup_written _ _ _ Hb _ _ H) as (ps & L & I).
  unfold bpe_writes in I. apply in_app_or in I. destruct I as [I|I].
  - apply (in_map fst) in I. rewrite id_writes_fst in I.
    apply (bpe_char_solid _ _ I).
  - apply (in_map fst) in I. rewrite token_writes_fst in I. cbn [fst] in I.
    apply in_map_iff in I. destruct I as (p & <- & Hp).
    pose proof (learned_pairs_solid _ _ _ (split_words_solid texts) L) as Hs.
    rewrite Forall_forall in Hs.
    destruct (solid_pair_token p (Hs p Hp)) as (a & b & _ & -> & Ha & Hb').
    split; [simpl; lia | repeat constructor; assumption].
Qed.

Lemma bpe_key_nonempty n texts tk k v :
  buildVocabulary (new n) texts = Returns tk ->
  own_lookup (vocab tk) k = Some v -> k <> [].
Proof.
  intros Hb H E. destruct (bpe_key_solid _ _ _ _ _ Hb H) as [L _].
  subst. simpl in L. lia.
Qed.

End BPETokenFacts.

(** X9: in a built [SimpleBPETokenizer] every token of the vocabulary
    has one or two code units, none of them white space, whatever
    [numMerges] is; every merge rule maps a key "a b" to the two-unit
    text "ab"; and the merge table has at most max(numMerges, 0)
    rules. *)
Theorem X9_bpe_tokens_have_at_most_two_units
  (numMerges : Z) (texts : list jsstring) (tk : SimpleBPETokenizer.t) :
  SimpleBPETokenizer.buildVocabulary (SimpleBPETokenizer.new numMerges) texts
  = Returns tk ->
  (forall k v,
      own_lookup (SimpleBPETokenizer.vocab tk) k = Some v ->
      (1 <= List.length k <= 2)%nat /\ Forall solid k)
  /\ (forall p m,
        own_lookup (SimpleBPETokenizer.merges tk) p = Some m ->
        exists a b, p = [a; 32%N; b] /\ m = VStr [a; b] /\ solid a /\ solid b)
  /\ keys_length (SimpleBPETokenizer.merges tk) <= Z.max numMerges 0.
Proof.
  intros Hb. split; [|split].
  - intros k v H. apply (bpe_key_solid _ _ _ _ _ Hb H).
  - destruct (built_fresh _ _ _ Hb) as (ps & L & _ & -> & _).
    intros p m H. apply set_all_lookup_in in H.
    destruct H as [H|H]; [|discriminate].
    apply in_map_iff in H. destruct H as (q & E & Hq). injection E as <- <-.
    pose proof (learned_pairs_solid _ _ _ (split_words_solid texts) L) as Hs.
    rewrite Forall_forall in Hs.
    destruct (solid_pair_token q (Hs q Hq)) as (a & b & -> & -> & Ha & Hb').
    exists a, b. auto.
  - destruct (built_fresh _ _ _ Hb) as (ps & L & _ & -> & _).
    unfold keys_length.
    pose proof (set_all_length_bound (merge_writes ps) []) as B.
    assert (E : List.length (merge_writes ps) = List.length ps)
      by apply length_map.
    rewrite E in B. cbn [List.length] in B.
    pose proof (learned_pairs_length _ _ _ L). lia.
Qed.

Lemma X9_bpe_tokens_have_at_most_two_units_witness :
  (1 <= List.length (str "ab") <= 2)%nat /\ Forall solid (str "ab").
Proof.
  apply (proj1 (X9_bpe_tokens_have_at_most_two_units 1 scenario_corpus
                  scenario_built eq_refl) (str "ab") (VNum 4)).
  reflexivity.
Defined.

(** X10: a new [SimpleBPETokenizer] whose one call of
    [buildVocabulary] returned decodes a list of ids piece by piece,
    with no separator; an id that a token carries decodes to that
    token, and a number that no token carries decodes to "?". *)
Theorem X10_bpe_decode_ids
  (numMerges : Z) (texts : list jsstring) (tk : SimpleBPETokenizer.t) :
  SimpleBPETokenizer.buildVocabulary (SimpleBPETokenizer.new numMerges) texts
  = Returns tk ->
  (forall a b,
      SimpleBPETokenizer.decode tk (a ++ b)
      = SimpleBPETokenizer.decode tk a ++ SimpleBPETokenizer.decode tk b)
  /\ (forall k i,
        own_lookup (SimpleBPETokenizer.vocab tk) k = Some (VNum i) ->
        SimpleBPETokenizer.decode tk [VNum i] = k)
  /\ (forall i,
        (forall k, own_lookup (SimpleBPETokenizer.vocab tk) k <> Some (VNum i)) ->
        SimpleBPETokenizer.decode tk [VNum i] = str "?").
Proof.
  intros Hb. pose proof (bpe_inverse _ _ _ Hb) as Hinv.
  split; [|split].
  - intros a b. unfold SimpleBPETokenizer.decode.
    rewrite !join_empty, map_app, concat_app. reflexivity.
  - intros k i H.
    apply (decode_unit_known _ _ (str "?") k i Hinv H).
    apply (bpe_key_nonempty _ _ _ _ _ Hb H).
  - intros i H. apply (decode_unit_unknown _ _ (str "?") i Hinv H).
Qed.

Lemma X10_bpe_decode_ids_witness :
  SimpleBPETokenizer.decode scenario_built [VNum 4] = str "ab"
  /\ SimpleBPETokenizer.decode scenario_built [VNum 9] = str "?".
Proof.
  split.
  - apply (proj1 (proj2 (X10_bpe_decode_ids 1 scenario_corpus scenario_built
                           eq_refl)) (str "ab") 4).
    reflexivity.
  - apply (proj2 (proj2 (X10_bpe_decode_ids 1 scenario_corpus scenario_built
                           eq_refl)) 9).
    intros k H.
    apply own_lookup_In in H. vm_compute in H.
    repeat (destruct H as [H|H]; [discriminate H|]). exact H.
Defined.

Section LiteralFacts.

Lemma literal_unit_neq c k :
  literal_unit c = true -> literal_unit k = false -> N.eqb c k = false.
Proof.
  intros Hc Hk. destruct (N.eqb_spec c k) as [->|]; [congruence|reflexivity].
Qed.

Lemma literal_unit_single c :
  literal_unit c = true ->
  single_of c = SAtom (N.eqb c) /\ quantifier_of c = None.
Proof.
  intros H. unfold single_of, quantifier_of.
  rewrite (literal_unit_neq c (ch "^") H eq_refl),
          (literal_unit_neq c (ch "$") H eq_refl),
          (literal_unit_neq c (ch ".") H eq_refl),
          (literal_unit_neq c (ch "*") H eq_refl),
          (literal_unit_neq c (ch "+") H eq_refl),
          (literal_unit_neq c (ch "?") H eq_refl).
  destruct (one_of c "*+?()[\") eqn:E; [exfalso|auto].
  apply existsb_exists in E. destruct E as (k & Hk & E).
  apply N.eqb_eq in E. subst k.
  simpl in Hk.
  repeat (destruct Hk as [Hk|Hk];
          [rewrite <- Hk in H; vm_compute in H; discriminate H|]).
  exact Hk.
Qed.

Lemma compile_literal c1 c2 :
  literal_unit c1 = true -> literal_unit c2 = true ->
  compile [c1; c2]
  = Returns [[Atom (N.eqb c1) QOne; Atom (N.eqb c2) QOne]].
Proof.
  intros H1 H2. unfold compile.
  rewrite (literal_unit_neq c1 (ch "\") H1 eq_refl),
          (literal_unit_neq c1 (ch "(") H1 eq_refl),
          (literal_unit_neq c1 (ch "[") H1 eq_refl),
          (literal_unit_neq c1 (ch "|") H1 eq_refl),
          (literal_unit_neq c2 (ch "|") H2 eq_refl).
  destruct (literal_unit_single c1 H1) as [-> _].
  destruct (literal_unit_single c2 H2) as [-> ->].
  reflexivity.
Qed.

Lemma substitute_literal c1 c2 matched before after :
  literal_unit c1 = true ->
  substitute [c1; c2] matched before after = [c1; c2].
Proof.
  intros H1. cbn [substitute].
  rewrite (literal_unit_neq c1 (ch "$") H1 eq_refl).
  destruct (N.eqb c2 (ch "$")); reflexivity.
Qed.

Lemma match_at_literal c1 c2 prev rest :
  match_at [[Atom (N.eqb c1) QOne; Atom (N.eqb c2) QOne]] prev rest
  = match rest with
    | c :: d :: _ => if N.eqb c1 c && N.eqb c2 d then Some 2%nat else None
    | _ => None
    end.
Proof.
  destruct rest as [|c [|d r]]; cbn [match_at match_terms S_opt].
  - reflexivity.
  - destruct (N.eqb c1 c); reflexivity.
  - destruct (N.eqb c1 c); [|reflexivity].
    destruct (N.eqb c2 d); reflexivity.
Qed.

Lemma replace_loop_literal c1 c2 rest :
  literal_unit c1 = true ->
  forall before skip,
    replace_loop [[Atom (N.eqb c1) QOne; Atom (N.eqb c2) QOne]] [c1; c2]
      before rest skip
    = skipn skip rest.
Proof.
  intros H1. induction rest as [|c r IH]; intros before skip.
  - destruct skip; cbn [replace_loop]; [|reflexivity].
    rewrite match_at_literal. reflexivity.
  - destruct skip as [|k]; cbn [replace_loop]; [|apply IH].
    rewrite match_at_literal.
    destruct r as [|d r'].
    + rewrite IH. reflexivity.
    + destruct (N.eqb c1 c && N.eqb c2 d) eqn:E.
      * apply andb_true_iff in E. destruct E as [E1 E2].
        apply N.eqb_eq in E1, E2. subst c d.
        rewrite substitute_literal by exact H1. rewrite IH. reflexivity.
      * rewrite IH. reflexivity.
Qed.

Lemma replace_literal c1 c2 subject :
  literal_unit c1 = true -> literal_unit c2 = true ->
  regexp_replace_all [c1; c2] [c1; c2] subject = Returns subject.
Proof.
  intros H1 H2. unfold regexp_replace_all.
  rewrite (compile_literal c1 c2 H1 H2). simpl bind.
  rewrite (replace_loop_literal c1 c2 subject H1). reflexivity.
Qed.

Lemma map_outcome_id {A} (f : A -> outcome A) l :
  (forall x, In x l -> f x = Returns x) -> map_outcome f l = Returns l.
Proof.
  induction l as [|x l IH]; intros H; simpl; [reflexivity|].
  rewrite (H x) by (simpl; auto). simpl.
  rewrite IH by (intros; apply H; simpl; auto). reflexivity.
Qed.

End LiteralFacts.

Section PairCountFacts.
Import SimpleBPETokenizer.

Lemma map_get_set k v m k' :
  map_get (map_set k v m) k' = if str_eqb k k' then v else map_get m k'.
Proof.
  induction m as [|[k0 v0] m IH]; simpl.
  - destruct (str_eqb k k'); reflexivity.
  - destruct (str_eqb k0 k) eqn:E0; simpl.
    + apply str_eqb_eq in E0. subst k0. destruct (str_eqb k k'); reflexivity.
    + destruct (str_eqb k0 k') eqn:E1; [|apply IH].
      apply str_eqb_eq in E1. subst k0. rewrite str_eqb_sym, E0. reflexivity.
Qed.

Lemma map_set_In k v m e : In e (map_set k v m) -> e = (k, v) \/ In e m.
Proof.
  induction m as [|[k0 v0] m IH]; simpl.
  - intros [<-|[]]; auto.
  - destruct (str_eqb k0 k) eqn:E; simpl.
    + apply str_eqb_eq in E. subst k0. intros [<-|H]; auto.
    + intros [<-|H]; auto. destruct (IH H); auto.
Qed.

Lemma map_set_NoDup k v m :
  NoDup (map fst m) -> NoDup (map fst (map_set k v m)).
Proof.
  induction m as [|[k0 v0] m IH]; simpl; intros H.
  - repeat constructor. simpl. tauto.
  - inversion H; subst. destruct (str_eqb k0 k) eqn:E; simpl.
    + constructor; assumption.
    + constructor; [|auto]. intros Hin. apply map_set_keys in Hin.
      destruct Hin as [->|Hin]; [|contradiction].
      rewrite str_eqb_refl in E. discriminate.
Qed.

Lemma map_get_In m k v :
  NoDup (map fst m) -> In (k, v) m -> map_get m k = v.
Proof.
  induction m as [|[k0 v0] m IH]; simpl; [tauto|].
  intros Hnd [H|H]; inversion Hnd; subst.
  - injection H as -> ->. now rewrite str_eqb_refl.
  - destruct (str_eqb k0 k) eqn:E; [|auto].
    apply str_eqb_eq in E. subst k0. exfalso. apply H2.
    apply (in_map fst) in H. exact H.
Qed.

Lemma map_get_cases m k : map_get m k = VUndef \/ In (k, map_get m k) m.
Proof.
  induction m as [|[k0 v0] m IH]; simpl; [auto|].
  destruct (str_eqb k0 k) eqn:E.
  - apply str_eqb_eq in E. subst. auto.
  - destruct IH; auto.
Qed.

Lemma getPairFrequencies_flat words :
  getPairFrequencies words
  = fold_left count_pair (List.concat (map pairs_of_word words)) [].
Proof.
  unfold getPairFrequencies. generalize (@nil (jsstring * jsval)).
  induction words as [|w words IH]; intros m; simpl; [reflexivity|].
  rewrite fold_left_app. apply IH.
Qed.

Lemma count_pair_step m p :
  positive_pairs m ->
  positive_pairs (count_pair m p)
  /\ forall k, pair_count (count_pair m p) k
               = pair_count m k + (if str_eqb p k then 1 else 0).
Proof.
  intros Hpos.
  assert (V : js_add (js_or (map_get m p) (VNum 0)) (VNum 1)
              = VNum (pair_count m p + 1) /\ 0 <= pair_count m p).
  { unfold pair_count. destruct (map_get_cases m p) as [E|E].
    - rewrite E. split; [reflexivity|lia].
    - destruct (Hpos _ _ E) as (c & -> & Hc).
      unfold js_or. simpl. destruct (Z.eqb_spec c 0); [lia|].
      split; [reflexivity|lia]. }
  destruct V as [V V0]. split.
  - intros k v H. unfold count_pair in H. rewrite V in H.
    apply map_set_In in H. destruct H as [H|H]; [|apply (Hpos k v H)].
    injection H as _ ->. eexists. split; [reflexivity|lia].
  - intros k. unfold pair_count at 1. unfold count_pair.
    rewrite map_get_set, V.
    destruct (str_eqb p k) eqn:E.
    + apply str_eqb_eq in E. subst k. reflexivity.
    + fold (pair_count m k). lia.
Qed.

Lemma count_pairs_all ps m :
  positive_pairs m ->
  positive_pairs (fold_left count_pair ps m)
  /\ forall k, pair_count (fold_left count_pair ps m) k
               = pair_count m k + occurrences k ps.
Proof.
  revert m. induction ps as [|p ps IH]; intros m Hpos; simpl.
  - split; [exact Hpos|]. intros k. unfold occurrences. simpl. lia.
  - destruct (count_pair_step m p Hpos) as [Hpos' Hc].
    destruct (IH _ Hpos') as [Hpos'' Hc'].
    split; [exact Hpos''|]. intros k. rewrite Hc', Hc.
    unfold occurrences. simpl. rewrite (str_eqb_sym k p).
    destruct (str_eqb p k); simpl; lia.
Qed.

Lemma pair_frequencies_count words :
  positive_pairs (getPairFrequencies words)
  /\ forall k, pair_count (getPairFrequencies words) k
               = occurrences k (List.concat (map pairs_of_word words)).
Proof.
  rewrite getPairFrequencies_flat.
  destruct (count_pairs_all (List.concat (map pairs_of_word words)) [])
    as [P C]; [intros k v []|].
  split; [exact P|]. intros k. rewrite C. reflexivity.
Qed.

Lemma pair_frequencies_NoDup words :
  NoDup (map fst (getPairFrequencies words)).
Proof.
  rewrite getPairFrequencies_flat.
  generalize (List.concat (map pairs_of_word words)). intros ps.
  assert (G : forall m, NoDup (map fst m) ->
                        NoDup (map fst (fold_left count_pair ps m))).
  { induction ps as [|p ps IH]; intros m H; simpl; [exact H|].
    apply IH. apply map_set_NoDup, H. }
  apply G. constructor.
Qed.

Lemma pair_entry_count words e :
  In e (getPairFrequencies words) ->
  snd e = VNum (occurrences (fst e) (List.concat (map pairs_of_word words)))
  /\ 0 < occurrences (fst e) (List.concat (map pairs_of_word words)).
Proof.
  intros H. destruct e as [k v].
  pose proof (map_get_In _ _ _ (pair_frequencies_NoDup words) H) as G.
  destruct (pair_frequencies_count words) as [P C].
  specialize (C k). unfold pair_count in C. rewrite G in C.
  destruct (P k v H) as (c & -> & Hc). subst c. simpl. split; [reflexivity|lia].
Qed.

Lemma by_count_descending l :
  numeric_entries l -> StronglySorted no_less (js_sort by_count l).
Proof. apply js_sort_descending. Qed.

(** The entry the loop selects holds a highest count. *)
Lemma most_frequent_max words p v rest q :
  js_sort by_count (getPairFrequencies words) = (p, v) :: rest ->
  occurrences q (List.concat (map pairs_of_word words))
  <= occurrences p (List.concat (map pairs_of_word words)).
Proof.
  intros E.
  assert (Hnum : numeric_entries (getPairFrequencies words)).
  { apply Forall_forall. intros e He.
    destruct (pair_entry_count words e He) as [-> _]. eauto. }
  pose proof (by_count_descending _ Hnum) as Hs. rewrite E in Hs.
  apply StronglySorted_inv in Hs. destruct Hs as [_ Hall].
  assert (Hp : In (p, v) (getPairFrequencies words)).
  { apply (Permutation_in _ (js_sort_perm by_count _)). rewrite E. left; auto. }
  destruct (pair_entry_count words _ Hp) as [Ev Hpos]. simpl in Ev, Hpos.
  destruct (pair_frequencies_count words) as [P C].
  destruct (map_get_cases (getPairFrequencies words) q) as [G|G].
  - rewrite <- (C q). unfold pair_count. rewrite G. lia.
  - destruct (pair_entry_count words _ G) as [Eq _]. simpl in Eq.
    apply (Permutation_in _ (Permutation_sym (js_sort_perm by_count _))) in G.
    rewrite E in G. destruct G as [G|G].
    + injection G as -> _. lia.
    + rewrite Forall_forall in Hall.
      destruct (Hall _ G) as (ca & cb & Ea & Eb & L).
      simpl in Ea, Eb. rewrite Ev in Ea. rewrite Eq in Eb.
      injection Ea as <-. injection Eb as <-. exact L.
Qed.

Lemma pair_key_not_index p : pair_shape p -> array_index p = None.
Proof.
  intros (a & b & ->). unfold array_index. simpl.
  destruct (is_digit a); reflexivity.
Qed.

Lemma pair_key_not_proto p : pair_shape p -> p <> proto_key.
Proof.
  intros (a & b & ->) E. apply (f_equal (@List.length N)) in E.
  vm_compute in E. discriminate.
Qed.

(** Assignments under pair keys keep the first entry in front. *)
Lemma set_pair_keeps_head k v e o :
  pair_shape k ->
  exists v' o', obj_set k v (e :: o) = (fst e, v') :: o'.
Proof.
  intros Hk. destruct e as [k0 v0]. unfold obj_set.
  pose proof (pair_key_not_proto k Hk) as Hp. apply str_eqb_neq in Hp.
  rewrite Hp. unfold obj_define. simpl own_lookup.
  destruct (str_eqb k0 k) eqn:E.
  - simpl. rewrite E. eauto.
  - destruct (own_lookup o k) eqn:L.
    + simpl. rewrite E. eauto.
    + rewrite (pair_key_not_index k Hk). simpl. eauto.
Qed.

Lemma set_all_pairs_head W e o :
  (forall x, In x W -> pair_shape (fst x)) ->
  exists v' o', set_all W (e :: o) = (fst e, v') :: o'.
Proof.
  revert e o. induction W as [|[k v] W IH]; intros e o H; simpl.
  - destruct e. eauto.
  - destruct (set_pair_keeps_head k v e o) as (v' & o' & ->);
      [apply (H (k, v)); simpl; auto|].
    apply (IH (fst e, v') o'). intros x Hx. apply H. simpl; auto.
Qed.

Lemma merges_head ps p0 :
  Forall pair_shape (p0 :: ps) ->
  exists m rest, set_all (merge_writes (p0 :: ps)) [] = (p0, m) :: rest.
Proof.
  intros H. inversion H as [|? ? H0 Hps]; subst.
  simpl. unfold obj_set at 1.
  pose proof (pair_key_not_proto p0 H0) as Hp. apply str_eqb_neq in Hp.
  rewrite Hp. unfold obj_define. simpl own_lookup.
  rewrite (pair_key_not_index p0 H0). simpl app.
  destruct (set_all_pairs_head (merge_writes ps)
              (p0, VStr (first_plus_second p0)) []) as (m & rest & E).
  - intros x Hx. apply in_map_iff in Hx. destruct Hx as (q & <- & Hq).
    rewrite Forall_forall in Hps. apply Hps, Hq.
  - unfold set_all in E. simpl in E. eauto.
Qed.

End PairCountFacts.

Section AdjacentFacts.
Import SimpleBPETokenizer.

Lemma occurrences_app k l1 l2 :
  occurrences k (l1 ++ l2) = occurrences k l1 + occurrences k l2.
Proof.
  unfold occurrences. rewrite filter_app, length_app. lia.
Qed.

Lemma occurrences_cons k x l :
  occurrences k (x :: l) = (if str_eqb k x then 1 else 0) + occurrences k l.
Proof.
  unfold occurrences. cbn [filter].
  destruct (str_eqb k x); cbn [List.length]; lia.
Qed.

Lemma occurrences_pairs_of_word a b word :
  occurrences [a; 32%N; b] (pairs_of_word word) = adjacent_count a b word.
Proof.
  induction word as [|x word IH]; [reflexivity|].
  destruct word as [|y word]; [reflexivity|].
  change (pairs_of_word (x :: y :: word))
    with ([x; 32%N; y] :: pairs_of_word (y :: word)).
  rewrite occurrences_cons, IH.
  change (adjacent_count a b (x :: y :: word))
    with ((if N.eqb a x && N.eqb b y then 1 else 0)
          + adjacent_count a b (y :: word)).
  f_equal. simpl. destruct (N.eqb a x), (N.eqb b y); reflexivity.
Qed.

Lemma occurrences_pairs a b words :
  occurrences [a; 32%N; b] (List.concat (map pairs_of_word words))
  = total_adjacent a b words.
Proof.
  induction words as [|w words IH]; [reflexivity|].
  simpl. rewrite occurrences_app, occurrences_pairs_of_word, IH. reflexivity.
Qed.

End AdjacentFacts.

(** X11: [getPairFrequencies(words)] holds under the key "a b" the
    number of places, over all words, where the code unit a is
    immediately followed by b, and holds no entry when there is no such
    place. *)
Theorem X11_pair_frequencies_count_adjacent_units
  (words : list jsstring) (a b : N) :
  SimpleBPETokenizer.map_get (SimpleBPETokenizer.getPairFrequencies words)
    [a; 32%N; b]
  = if Z.eqb (total_adjacent a b words) 0 then VUndef
    else VNum (total_adjacent a b words).
Proof.
  destruct (pair_frequencies_count words) as [P C].
  specialize (C [a; 32%N; b]). rewrite occurrences_pairs in C.
  unfold pair_count in C.
  destruct (map_get_cases (SimpleBPETokenizer.getPairFrequencies words)
              [a; 32%N; b]) as [E|E].
  - rewrite E in C |- *. rewrite <- C. reflexivity.
  - destruct (P _ _ E) as (c & Ec & Hc). rewrite Ec in C |- *. subst c.
    destruct (Z.eqb_spec (total_adjacent a b words) 0); [lia|reflexivity].
Qed.

(** X12: the first rule of the merge table of a built
    [SimpleBPETokenizer] is for a pair of adjacent code units that is
    as frequent in the words of the corpus as any other pair, and
    occurs at least once. *)
Theorem X12_bpe_first_rule_is_most_frequent
  (numMerges : Z) (texts : list jsstring) (tk : SimpleBPETokenizer.t)
  (a b : N) (merged : jsval) (rest : obj) :
  SimpleBPETokenizer.buildVocabulary (SimpleBPETokenizer.new numMerges) texts
  = Returns tk ->
  SimpleBPETokenizer.merges tk = ([a; 32%N; b], merged) :: rest ->
  0 < total_adjacent a b (SimpleBPETokenizer.split_words texts)
  /\ forall a' b',
       total_adjacent a' b' (SimpleBPETokenizer.split_words texts)
       <= total_adjacent a b (SimpleBPETokenizer.split_words texts).
Proof.
  intros Hb Hm.
  destruct (built_fresh _ _ _ Hb) as (ps & L & _ & Em & _).
  rewrite Em in Hm.
  destruct ps as [|p0 ps]; [discriminate Hm|].
  pose proof (learned_pairs_sound _ _ _ L) as Hs.
  destruct (merges_head ps p0) as (m & rest' & E).
  { apply Forall_forall. intros p Hp. apply (Hs p Hp). }
  rewrite E in Hm. injection Hm as -> _ _.
  destruct (Z.to_nat numMerges) as [|n]; [discriminate L|].
  cbn [learned_pairs] in L.
  destruct (js_sort SimpleBPETokenizer.by_count
              (SimpleBPETokenizer.getPairFrequencies
                 (SimpleBPETokenizer.split_words texts)))
    as [|[q v] srest] eqn:S; [discriminate L|].
  assert (q = [a; 32%N; b]).
  { destruct (map_outcome _ _) as [w'| |]; simpl in L; try discriminate.
    destruct (learned_pairs n w') as [ps'| |]; simpl in L; try discriminate.
    now injection L as -> _. }
  subst q. split.
  - assert (Hin : In ([a; 32%N; b], v)
                    (SimpleBPETokenizer.getPairFrequencies
                       (SimpleBPETokenizer.split_words texts))).
    { apply (Permutation_in _ (js_sort_perm SimpleBPETokenizer.by_count _)).
      rewrite S. left; reflexivity. }
    destruct (pair_entry_count _ _ Hin) as [_ Hpos]. simpl in Hpos.
    now rewrite occurrences_pairs in Hpos.
  - intros a' b'.
    pose proof (most_frequent_max _ _ _ _ [a'; 32%N; b'] S) as M.
    now rewrite !occurrences_pairs in M.
Qed.

Lemma X12_bpe_first_rule_is_most_frequent_witness :
  0 < total_adjacent 97 98 (SimpleBPETokenizer.split_words scenario_corpus)
  /\ forall a' b',
       total_adjacent a' b' (SimpleBPETokenizer.split_words scenario_corpus)
       <= total_adjacent 97 98 (SimpleBPETokenizer.split_words scenario_corpus).
Proof.
  apply (X12_bpe_first_rule_is_most_frequent 1 scenario_corpus scenario_built
           97%N 98%N (VStr (str "ab")) []); reflexivity.
Defined.

Section LiteralCorpusFacts.
Import SimpleBPETokenizer.

Lemma split_white_space_Forall (P : N -> Prop) s cur in_run w :
  Forall P cur -> Forall P s ->
  In w (split_white_space s cur in_run) -> Forall P w.
Proof.
  revert cur in_run. induction s as [|c s IH]; intros cur in_run Hcur Hs; simpl.
  - intros [<-|[]]. apply Forall_rev, Hcur.
  - inversion Hs as [|? ? Hc Hs']; subst.
    destruct (is_white_space c).
    + destruct in_run.
      * apply IH; [constructor | exact Hs'].
      * intros [<-|H]; [apply Forall_rev, Hcur|].
        revert H. apply IH; [constructor | exact Hs'].
    + apply IH; [constructor; assumption | exact Hs'].
Qed.

Lemma literal_words texts :
  literal_corpus texts = true ->
  Forall (Forall literal_solid) (split_words texts).
Proof.
  intros H. apply Forall_forall. intros w Hw.
  pose proof (split_words_solid texts) as Hs.
  unfold solid_words in Hs. rewrite Forall_forall in Hs. specialize (Hs w Hw).
  unfold split_words in Hw. apply in_flat_map in Hw.
  destruct Hw as (text & Ht & Hw). apply filter_In in Hw. destruct Hw as [Hw _].
  assert (Hl : Forall (fun c => literal_unit c = true) w).
  { apply (split_white_space_Forall _ text [] false w); [constructor| |exact Hw].
    unfold literal_corpus in H. rewrite forallb_forall in H.
    specialize (H text Ht). apply Forall_forall. intros c Hc.
    rewrite forallb_forall in H. apply H, Hc. }
  rewrite Forall_forall in *. intros c Hc. split; auto.
Qed.

Lemma pairs_of_word_Forall (P : N -> Prop) word p :
  Forall P word -> In p (pairs_of_word word) ->
  exists a b, p = [a; 32%N; b] /\ P a /\ P b.
Proof.
  induction word as [|a word IH]; simpl; [tauto|].
  intros H. inversion H as [|? ? Ha Hw]; subst.
  destruct word as [|b word]; [intros []|].
  intros [<-|Hp]; [|auto].
  inversion Hw; subst. exists a, b. auto.
Qed.

Lemma most_frequent_literal words p :
  Forall (Forall literal_solid) words ->
  most_frequent_pair words = Some p ->
  exists a b, p = [a; 32%N; b] /\ first_plus_second p = [a; b]
              /\ literal_unit a = true /\ literal_unit b = true.
Proof.
  intros Hw E. unfold most_frequent_pair in E.
  destruct (js_sort by_count (getPairFrequencies words)) as [|[q v] rest] eqn:S;
    [discriminate|]. injection E as ->.
  assert (Hin : In p (map fst (getPairFrequencies words))).
  { apply (Permutation_in (l := map fst (js_sort by_count (getPairFrequencies words)))).
    - apply Permutation_map, js_sort_perm.
    - rewrite S. simpl. auto. }
  apply pair_frequencies_from_words in Hin. destruct Hin as (w & Hin & Hp).
  rewrite Forall_forall in Hw.
  destruct (pairs_of_word_Forall _ w p (Hw w Hin) Hp)
    as (a & b & -> & [La Sa] & [Lb Sb]).
  exists a, b. repeat split; auto.
  unfold first_plus_second. simpl.
  rewrite (solid_not_space a Sa), (solid_not_space b Sb). reflexivity.
Qed.

(** On words without syntax characters the merge step changes nothing,
    so the loop selects the same pair every time. *)
Lemma learned_pairs_literal words remaining :
  Forall (Forall literal_solid) words ->
  learned_pairs remaining words
  = Returns (match most_frequent_pair words with
             | Some p => repeat p remaining
             | None => []
             end).
Proof.
  intros Hw. induction remaining as [|n IH].
  - simpl. destruct (most_frequent_pair words); reflexivity.
  - pose proof (most_frequent_literal words) as Hl.
    unfold most_frequent_pair in *. cbn [learned_pairs].
    destruct (js_sort by_count (getPairFrequencies words)) as [|[p v] rest];
      [reflexivity|].
    destruct (Hl p Hw eq_refl) as (a & b & _ & -> & La & Lb).
    rewrite map_outcome_id by (intros; apply replace_literal; assumption).
    simpl bind. rewrite IH. reflexivity.
Qed.

Lemma apply_merges_literal entries text :
  (forall e, In e entries ->
             exists a b, first_plus_second (fst e) = [a; b]
                         /\ snd e = VStr [a; b]
                         /\ literal_unit a = true /\ literal_unit b = true) ->
  apply_merges entries text = Returns text.
Proof.
  induction entries as [|[p m] entries IH]; intros H; simpl; [reflexivity|].
  destruct (H (p, m)) as (a & b & E1 & E2 & La & Lb); [simpl; auto|].
  simpl in E1, E2. subst m. rewrite E1. cbn [to_string].
  rewrite (replace_literal a b text La Lb). simpl bind.
  apply IH. intros e He. apply H. simpl; auto.
Qed.

Lemma in_repeat {A} (x y : A) n : In y (repeat x n) -> y = x.
Proof. induction n; simpl; [tauto|]. intros [<-|H]; auto. Qed.

Lemma literal_built n texts :
  literal_corpus texts = true ->
  exists tk ps,
    buildVocabulary (new n) texts = Returns tk
    /\ learned_pairs (Z.to_nat n) (split_words texts) = Returns ps
    /\ ps = match most_frequent_pair (split_words texts) with
            | Some p => repeat p (Z.to_nat n)
            | None => []
            end.
Proof.
  intros H. pose proof (literal_words texts H) as Hw.
  rewrite buildVocabulary_writes.
  cbn [numMerges new].
  rewrite (learned_pairs_literal _ (Z.to_nat n) Hw). simpl bind.
  eexists _, _. repeat split.
Qed.

Lemma literal_merges_entries n texts tk e :
  literal_corpus texts = true ->
  buildVocabulary (new n) texts = Returns tk ->
  In e (merges tk) ->
  most_frequent_pair (split_words texts) = Some (fst e)
  /\ exists a b, fst e = [a; 32%N; b] /\ first_plus_second (fst e) = [a; b]
                 /\ snd e = VStr [a; b]
                 /\ literal_unit a = true /\ literal_unit b = true.
Proof.
  intros H Hb He.
  destruct (literal_built n texts H) as (tk' & ps & Hb' & L & Eps).
  rewrite Hb in Hb'. injection Hb' as <-.
  destruct (built_fresh _ _ _ Hb) as (ps' & L' & _ & Em & _).
  rewrite L in L'. injection L' as <-.
  rewrite Em in He. apply set_all_In in He. destruct He as [He|[]].
  apply in_map_iff in He. destruct He as (p & <- & Hp).
  rewrite Eps in Hp.
  destruct (most_frequent_pair (split_words texts)) as [q|] eqn:Q;
    [|destruct Hp].
  apply in_repeat in Hp. subst p. split; [reflexivity|].
  destruct (most_frequent_literal _ q (literal_words texts H) Q)
    as (a & b & E1 & E2 & La & Lb).
  exists a, b. simpl. rewrite E2. auto.
Qed.

Lemma set_all_repeat_own k v n o x :
  own_lookup o k = Some x ->
  List.length (set_all (repeat (k, v) n) o) = List.length o.
Proof.
  revert o x. induction n as [|n IH]; intros o x E; [reflexivity|].
  change (set_all (repeat (k, v) (S n)) o)
    with (set_all (repeat (k, v) n) (obj_set k v o)).
  unfold obj_set. destruct (str_eqb k proto_key); [apply (IH o x E)|].
  rewrite (IH (obj_define k v o) v).
  - unfold obj_define. rewrite E. apply update_length.
  - rewrite own_lookup_define, str_eqb_refl. reflexivity.
Qed.

Lemma set_all_repeat_length k v n :
  (List.length (set_all (repeat (k, v) n) []) <= 1)%nat.
Proof.
  induction n as [|n IH]; [simpl; lia|].
  change (set_all (repeat (k, v) (S n)) [])
    with (set_all (repeat (k, v) n) (obj_set k v [])).
  unfold obj_set. destruct (str_eqb k proto_key); [exact IH|].
  rewrite (set_all_repeat_own k v n (obj_define k v []) v).
  - rewrite define_length_fresh by reflexivity. simpl. lia.
  - rewrite own_lookup_define, str_eqb_refl. reflexivity.
Qed.

End LiteralCorpusFacts.

Section BPEVocabularyFacts.
Import SimpleBPETokenizer.

Lemma bpe_collect_first_seen texts :
  collect_chars (split_words texts) = first_seen [] (word_code_points texts).
Proof. apply (collect_first_seen code_points). Qed.

Lemma bpe_chars_NoDup texts : NoDup (collect_chars (split_words texts)).
Proof. apply (collect_NoDup code_points). constructor. Qed.

Lemma bpe_chars_plain texts e :
  In e (id_writes (collect_chars (split_words texts)) 0) -> fst e <> proto_key.
Proof.
  intros H. apply (in_map fst) in H. rewrite id_writes_fst in H.
  apply short_not_proto. apply bpe_char_solid in H. lia.
Qed.

Lemma bpe_char_writes_lookup texts k v :
  own_lookup (set_all (id_writes (collect_chars (split_words texts)) 0) []) k
  = Some v
  <-> In (k, v) (id_writes (collect_chars (split_words texts)) 0).
Proof.
  apply fresh_writes.
  - rewrite id_writes_fst. apply bpe_chars_NoDup.
  - apply bpe_chars_plain.
Qed.

Lemma bpe_char_writes_length texts :
  List.length (set_all (id_writes (collect_chars (split_words texts)) 0) [])
  = List.length (collect_chars (split_words texts)).
Proof.
  destruct (fresh_writes (id_writes (collect_chars (split_words texts)) 0))
    as (_ & -> & _).
  - rewrite id_writes_fst. apply bpe_chars_NoDup.
  - apply bpe_chars_plain.
  - unfold id_writes. rewrite length_combine, ids_from_length. lia.
Qed.

(** Assignments under one key that the object has keep its size. *)
Lemma set_all_one_key W k o x :
  (forall e, In e W -> fst e = k) -> own_lookup o k = Some x ->
  List.length (set_all W o) = List.length o.
Proof.
  revert o x. induction W as [|[k0 v0] W IH]; intros o x HW E; [reflexivity|].
  assert (k0 = k) by (apply (HW (k0, v0)); simpl; auto). subst k0.
  change (set_all ((k, v0) :: W) o) with (set_all W (obj_set k v0 o)).
  unfold obj_set. destruct (str_eqb k proto_key).
  - apply (IH o x); [intros; apply HW; simpl; auto | exact E].
  - rewrite (IH (obj_define k v0 o) v0).
    + unfold obj_define. rewrite E. apply update_length.
    + intros; apply HW; simpl; auto.
    + rewrite own_lookup_define, str_eqb_refl. reflexivity.
Qed.

Lemma token_writes_repeat p m index :
  token_writes (repeat p (S m)) index
  = (first_plus_second p, VNum index) :: token_writes (repeat p m) (index + 1).
Proof. reflexivity. Qed.

Lemma token_repeat_keys p m index e :
  In e (token_writes (repeat p m) index) -> fst e = first_plus_second p.
Proof.
  intros H. apply (in_map fst) in H. rewrite token_writes_fst in H.
  apply in_map_iff in H. destruct H as (q & <- & Hq).
  apply in_repeat in Hq. now subst.
Qed.

Lemma token_repeat_lookup p m index o :
  first_plus_second p <> proto_key ->
  own_lookup (set_all (token_writes (repeat p (S m)) index) o)
    (first_plus_second p)
  = Some (VNum (index + Z.of_nat m)).
Proof.
  intros Hp. apply str_eqb_neq in Hp.
  revert index o. induction m as [|m IH]; intros index o.
  - rewrite token_writes_repeat. simpl.
    rewrite own_lookup_set, str_eqb_refl, Hp. simpl. f_equal. f_equal. lia.
  - rewrite token_writes_repeat.
    change (set_all (?e :: ?W) o) with (set_all W (obj_set (fst e) (snd e) o)).
    rewrite IH. f_equal. f_equal. lia.
Qed.

Lemma token_repeat_length p m index o :
  first_plus_second p <> proto_key ->
  (List.length (set_all (token_writes (repeat p m) index) o)
   <= S (List.length o))%nat.
Proof.
  intros Hp. destruct m as [|m]; [simpl; lia|].
  rewrite token_writes_repeat.
  change (set_all (?e :: ?W) o) with (set_all W (obj_set (fst e) (snd e) o)).
  cbn [fst snd].
  rewrite (set_all_one_key _ (first_plus_second p) _ (VNum index)).
  - apply set_length_bound.
  - apply token_repeat_keys.
  - apply str_eqb_neq in Hp.
    rewrite own_lookup_set, str_eqb_refl, Hp. reflexivity.
Qed.

End BPEVocabularyFacts.


Section BPECharacterFacts.
Import SimpleBPETokenizer.

Lemma set_all_lookup_notin W o k :
  ~ In k (map fst W) -> own_lookup (set_all W o) k = own_lookup o k.
Proof.
  intros H. rewrite set_all_define_all. apply define_all_lookup_notin.
  intros Hin. apply H. apply in_map_iff in Hin.
  destruct Hin as (e & <- & He). apply filter_In in He.
  apply in_map, He.
Qed.

(** A token of one code unit is never the target of a merge. *)
Lemma unit_not_merged remaining words ps index c :
  solid_words words ->
  learned_pairs remaining words = Returns ps ->
  ~ In [c] (map fst (token_writes ps index)).
Proof.
  intros Hw L Hin. rewrite token_writes_fst in Hin.
  apply in_map_iff in Hin. destruct Hin as (q & E & Hq).
  pose proof (learned_pairs_solid _ _ _ Hw L) as Hs.
  rewrite Forall_forall in Hs.
  destruct (solid_pair_token q (Hs q Hq)) as (a & b & _ & E' & _).
  rewrite E' in E. discriminate E.
Qed.

Lemma bpe_encode_plain n texts tk text :
  buildVocabulary (new n) texts = Returns tk ->
  apply_merges (merges tk) text = Returns text ->
  encode tk text = Returns (map (id_or (vocab tk) 0) (code_points text)).
Proof.
  intros Hb Ha. unfold encode. rewrite Ha. simpl bind. f_equal.
  apply map_ext_in. intros cp Hcp. apply bpe_encode_unit.
  - intros v Hv. apply own_lookup_In in Hv.
    apply (bpe_numbers _ _ _ Hb) in Hv. exact Hv.
  - apply short_not_inherited. apply code_point_length in Hcp. lia.
Qed.

Lemma char_writes_contiguous texts :
  contiguous_ids (set_all (id_writes (collect_chars (split_words texts)) 0) []).
Proof.
  intros i. unfold keys_length. rewrite bpe_char_writes_length. split.
  - intros (k & H). apply bpe_char_writes_lookup in H.
    apply id_writes_In_nth in H. destruct H as (j & Hj & ->).
    assert (j < List.length (collect_chars (split_words texts)))%nat
      by (apply nth_error_Some; congruence).
    lia.
  - intros Hi.
    destruct (nth_error (collect_chars (split_words texts)) (Z.to_nat i))
      as [k|] eqn:E.
    + exists k. apply bpe_char_writes_lookup.
      apply (id_writes_nth _ 0) in E.
      replace (0 + Z.of_nat (Z.to_nat i)) with i in E by lia. exact E.
    + apply nth_error_None in E. lia.
Qed.

End BPECharacterFacts.

(** X13: in a built [SimpleBPETokenizer] the characters of one code
    unit carry the ids 0, 1, 2, ... in the order in which they first
    appear in the words of the corpus, whatever [numMerges] is: the
    merged tokens never take the place of such a character. *)
Theorem X13_bpe_character_ids_in_first_seen_order
  (numMerges : Z) (texts : list jsstring) (tk : SimpleBPETokenizer.t)
  (i : nat) (c : N) :
  SimpleBPETokenizer.buildVocabulary (SimpleBPETokenizer.new numMerges) texts
  = Returns tk ->
  nth_error (first_seen [] (word_code_points texts)) i = Some [c] ->
  own_lookup (SimpleBPETokenizer.vocab tk) [c] = Some (VNum (Z.of_nat i)).
Proof.
  intros Hb Hn.
  destruct (built_fresh _ _ _ Hb) as (ps & L & -> & _).
  unfold bpe_writes. rewrite set_all_app.
  rewrite set_all_lookup_notin
    by apply (unit_not_merged _ _ _ _ _ (split_words_solid texts) L).
  apply bpe_char_writes_lookup. rewrite bpe_collect_first_seen.
  apply (id_writes_nth _ 0) in Hn. exact Hn.
Qed.

Lemma X13_bpe_character_ids_in_first_seen_order_witness :
  own_lookup (SimpleBPETokenizer.vocab scenario_built) (str "c")
  = Some (VNum (Z.of_nat 2)).
Proof.
  apply (X13_bpe_character_ids_in_first_seen_order 1 scenario_corpus
           scenario_built 2 99%N); reflexivity.
Defined.

(** X14: with [numMerges <= 0] the learning loop does not run:
    [buildVocabulary] returns for every corpus (also one with
    regular-expression syntax characters), learns no merge rule, and
    the vocabulary is the distinct characters of the words under the
    ids 0 .. n-1 with no gap; [encode] then looks every character of
    the text up, with 0 for the ones it lacks. *)
Theorem X14_bpe_without_merges
  (numMerges : Z) (texts : list jsstring) :
  numMerges <= 0 ->
  exists tk,
    SimpleBPETokenizer.buildVocabulary (SimpleBPETokenizer.new numMerges) texts
    = Returns tk
    /\ SimpleBPETokenizer.merges tk = []
    /\ keys_length (SimpleBPETokenizer.vocab tk)
       = Z.of_nat (List.length (first_seen [] (word_code_points texts)))
    /\ contiguous_ids (SimpleBPETokenizer.vocab tk)
    /\ forall text,
         SimpleBPETokenizer.encode tk text
         = Returns (map (id_or (SimpleBPETokenizer.vocab tk) 0)
                      (code_points text)).
Proof.
  intros Hn.
  assert (Hb : SimpleBPETokenizer.buildVocabulary
                 (SimpleBPETokenizer.new numMerges) texts
               = Returns
                   (SimpleBPETokenizer.mk numMerges
                      (set_all (bpe_writes texts []) [])
                      []
                      (reverse_of (set_all (bpe_writes texts []) [])))).
  { rewrite buildVocabulary_writes. cbn [SimpleBPETokenizer.numMerges
      SimpleBPETokenizer.new SimpleBPETokenizer.vocab SimpleBPETokenizer.merges].
    replace (Z.to_nat numMerges) with 0%nat by lia. reflexivity. }
  eexists. split; [exact Hb|].
  cbn [SimpleBPETokenizer.merges SimpleBPETokenizer.vocab].
  unfold bpe_writes. cbn [token_writes map List.length ids_from combine].
  rewrite app_nil_r.
  split; [reflexivity|]. split; [|split].
  - unfold keys_length. rewrite bpe_char_writes_length, bpe_collect_first_seen.
    reflexivity.
  - apply char_writes_contiguous.
  - intros text.
    pose proof (bpe_encode_plain _ _ _ text Hb eq_refl) as E.
    cbn [SimpleBPETokenizer.vocab] in E. unfold bpe_writes in E.
    cbn [token_writes map List.length ids_from combine] in E.
    rewrite app_nil_r in E. rewrite <- E. reflexivity.
Qed.

Lemma X14_bpe_without_merges_witness :
  exists tk,
    SimpleBPETokenizer.buildVocabulary (SimpleBPETokenizer.new 0) [str "(a"]
    = Returns tk
    /\ SimpleBPETokenizer.merges tk = []
    /\ keys_length (SimpleBPETokenizer.vocab tk)
       = Z.of_nat (List.length (first_seen [] (word_code_points [str "(a"])))
    /\ contiguous_ids (SimpleBPETokenizer.vocab tk)
    /\ forall text,
         SimpleBPETokenizer.encode tk text
         = Returns (map (id_or (SimpleBPETokenizer.vocab tk) 0)
                      (code_points text)).
Proof.
  apply (X14_bpe_without_merges 0 [str "(a"]). lia.
Defined.


Section RepeatedChoiceFacts.
Import SimpleBPETokenizer.

Lemma chosen_pair_solid words p :
  solid_words words -> most_frequent_pair words = Some p -> solid_pair p.
Proof.
  intros Hw E. unfold most_frequent_pair in E.
  destruct (js_sort by_count (getPairFrequencies words)) as [|[q v] rest] eqn:S;
    [discriminate|]. injection E as ->.
  apply (most_frequent_solid words p v rest Hw S).
Qed.

Lemma literal_choice_pair words p :
  solid_words words -> literal_choice words = true ->
  most_frequent_pair words = Some p ->
  exists a b, p = [a; 32%N; b] /\ first_plus_second p = [a; b]
              /\ literal_unit a = true /\ literal_unit b = true.
Proof.
  intros Hw Hc E. unfold literal_choice in Hc. rewrite E in Hc.
  destruct (solid_pair_token p (chosen_pair_solid _ _ Hw E))
    as (a & b & -> & E2 & _).
  rewrite E2 in Hc. simpl in Hc.
  apply andb_prop in Hc. destruct Hc as [La Hc].
  apply andb_prop in Hc. destruct Hc as [Lb _].
  exists a, b. auto.
Qed.

Lemma literal_corpus_choice texts :
  literal_corpus texts = true -> literal_choice (split_words texts) = true.
Proof.
  intros H. unfold literal_choice.
  destruct (most_frequent_pair (split_words texts)) as [p|] eqn:E; [|reflexivity].
  destruct (most_frequent_literal _ p (literal_words texts H) E)
    as (a & b & _ & -> & La & Lb).
  simpl. now rewrite La, Lb.
Qed.

(** When the selected pair has no syntax character the merge step
    changes no word, so the loop selects the same pair every time. *)
Lemma learned_pairs_repeat words remaining :
  solid_words words -> literal_choice words = true ->
  learned_pairs remaining words
  = Returns (match most_frequent_pair words with
             | Some p => repeat p remaining
             | None => []
             end).
Proof.
  intros Hw Hc. induction remaining as [|n IH].
  - simpl. destruct (most_frequent_pair words); reflexivity.
  - pose proof (literal_choice_pair words) as Hl.
    unfold most_frequent_pair in *. cbn [learned_pairs].
    destruct (js_sort by_count (getPairFrequencies words)) as [|[p v] rest];
      [reflexivity|].
    destruct (Hl p Hw Hc eq_refl) as (a & b & _ & -> & La & Lb).
    rewrite map_outcome_id by (intros; apply replace_literal; assumption).
    simpl bind. rewrite IH. reflexivity.
Qed.

Lemma set_all_repeat_single k v m :
  k <> proto_key -> array_index k = None ->
  set_all (repeat (k, v) (S m)) [] = [(k, v)].
Proof.
  intros Hp Hi. apply str_eqb_neq in Hp.
  assert (E1 : obj_set k v [] = [(k, v)]).
  { unfold obj_set, obj_define. rewrite Hp, Hi. reflexivity. }
  assert (E2 : obj_set k v [(k, v)] = [(k, v)]).
  { unfold obj_set, obj_define. rewrite Hp. simpl. now rewrite str_eqb_refl. }
  change (set_all (repeat (k, v) (S m)) [])
    with (set_all (repeat (k, v) m) (obj_set k v [])).
  rewrite E1. induction m as [|m IH]; [reflexivity|].
  change (set_all (repeat (k, v) (S m)) [(k, v)])
    with (set_all (repeat (k, v) m) (obj_set k v [(k, v)])).
  rewrite E2. exact IH.
Qed.

Lemma merge_writes_repeat p m :
  merge_writes (repeat p m) = repeat (p, VStr (first_plus_second p)) m.
Proof. unfold merge_writes. apply map_repeat. Qed.

(** The state a build reaches when its selected pair has no syntax
    character. *)
Lemma repeated_built n texts :
  literal_choice (split_words texts) = true ->
  buildVocabulary (new n) texts
  = Returns
      (let ps := match most_frequent_pair (split_words texts) with
                 | Some p => repeat p (Z.to_nat n)
                 | None => []
                 end in
       let V := set_all (bpe_writes texts ps) [] in
       mk n V (one_rule (most_frequent_pair (split_words texts)) n)
          (reverse_of V)).
Proof.
  intros Hc. pose proof (split_words_solid texts) as Hw.
  rewrite buildVocabulary_writes. cbn [numMerges new vocab merges].
  rewrite (learned_pairs_repeat _ (Z.to_nat n) Hw Hc). simpl bind.
  cbv zeta. f_equal. unfold bpe_writes, one_rule.
  destruct (most_frequent_pair (split_words texts)) as [p|] eqn:E;
    [|reflexivity].
  f_equal. rewrite merge_writes_repeat.
  destruct (Z.ltb_spec 0 n) as [Hn|Hn].
  - destruct (Z.to_nat n) as [|m] eqn:En; [lia|].
    pose proof (chosen_pair_solid _ _ Hw E) as (a & b & -> & _).
    apply set_all_repeat_single.
    + apply pair_key_not_proto. exists a, b. reflexivity.
    + apply pair_key_not_index. exists a, b. reflexivity.
  - replace (Z.to_nat n) with 0%nat by lia. reflexivity.
Qed.

Lemma one_rule_entries words n e :
  solid_words words -> literal_choice words = true ->
  In e (one_rule (most_frequent_pair words) n) ->
  most_frequent_pair words = Some (fst e) /\ 0 < n
  /\ exists a b, fst e = [a; 32%N; b]
                 /\ first_plus_second (fst e) = [a; b]
                 /\ snd e = VStr [a; b]
                 /\ literal_unit a = true /\ literal_unit b = true.
Proof.
  intros Hw Hc He. unfold one_rule in He.
  destruct (most_frequent_pair words) as [p|] eqn:E; [|destruct He].
  destruct (Z.ltb_spec 0 n) as [Hn|Hn]; [|destruct He].
  destruct He as [<-|[]]. cbn [fst snd].
  split; [reflexivity|]. split; [exact Hn|].
  destruct (literal_choice_pair _ p Hw Hc E) as (a & b & E1 & E2 & La & Lb).
  exists a, b. rewrite E2. auto.
Qed.

Lemma repeated_encode n texts tk text :
  literal_choice (split_words texts) = true ->
  buildVocabulary (new n) texts = Returns tk ->
  encode tk text = Returns (map (id_or (vocab tk) 0) (code_points text)).
Proof.
  intros Hc Hb. apply (bpe_encode_plain _ _ _ _ Hb).
  apply apply_merges_literal. intros e He.
  rewrite (repeated_built n texts Hc) in Hb. injection Hb as <-.
  cbn [merges] in He.
  destruct (one_rule_entries _ _ _ (split_words_solid texts) Hc He)
    as (_ & _ & a & b & _ & E2 & E3 & La & Lb).
  exists a, b. auto.
Qed.

End RepeatedChoiceFacts.

(** X15: when the most frequent pair of the corpus has no
    regular-expression syntax character (as in every corpus without
    such characters), [buildVocabulary] returns for every [numMerges],
    and the learning loop selects that one pair at every iteration: the
    merge table holds the single rule for it when [numMerges >= 1] and
    the corpus has a pair, and is empty otherwise.  [encode] on the
    built tokenizer then looks every character of the text up, with 0
    for the ones the vocabulary lacks. *)
Theorem X15_bpe_learns_one_rule
  (numMerges : Z) (texts : list jsstring) :
  literal_choice (SimpleBPETokenizer.split_words texts) = true ->
  exists tk,
    SimpleBPETokenizer.buildVocabulary (SimpleBPETokenizer.new numMerges) texts
    = Returns tk
    /\ SimpleBPETokenizer.merges tk
       = one_rule (most_frequent_pair (SimpleBPETokenizer.split_words texts))
           numMerges
    /\ keys_length (SimpleBPETokenizer.merges tk) <= 1
    /\ forall text,
         SimpleBPETokenizer.encode tk text
         = Returns (map (id_or (SimpleBPETokenizer.vocab tk) 0)
                      (code_points text)).
Proof.
  intros Hc. eexists. split; [apply (repeated_built numMerges texts Hc)|].
  cbv zeta. cbn [SimpleBPETokenizer.merges].
  split; [reflexivity|]. split.
  - unfold one_rule, keys_length.
    destruct (most_frequent_pair (SimpleBPETokenizer.split_words texts));
      [destruct (Z.ltb 0 numMerges)|]; simpl; lia.
  - intros text.
    apply (repeated_encode numMerges texts _ text Hc).
    apply (repeated_built numMerges texts Hc).
Qed.

Lemma X15_bpe_learns_one_rule_witness :
  exists tk,
    SimpleBPETokenizer.buildVocabulary (SimpleBPETokenizer.new 50)
      [str "Hey, how are you doing today?"]
    = Returns tk
    /\ SimpleBPETokenizer.merges tk
       = one_rule
           (most_frequent_pair
              (SimpleBPETokenizer.split_words
                 [str "Hey, how are you doing today?"]))
           50
    /\ keys_length (SimpleBPETokenizer.merges tk) <= 1
    /\ forall text,
         SimpleBPETokenizer.encode tk text
         = Returns (map (id_or (SimpleBPETokenizer.vocab tk) 0)
                      (code_points text)).
Proof.
  apply (X15_bpe_learns_one_rule 50 [str "Hey, how are you doing today?"]).
  vm_compute. reflexivity.
Defined.


Section BPERoundTripFacts.
Import SimpleBPETokenizer.

Lemma bpe_decode_units tk ids :
  decode tk ids
  = List.concat (map (decode_unit (reverseVocab tk) (str "?")) ids).
Proof. unfold decode. rewrite join_empty. reflexivity. Qed.

Lemma bpe_shown_unit n texts tk cp :
  buildVocabulary (new n) texts = Returns tk ->
  decode_unit (reverseVocab tk) (str "?") (id_or (vocab tk) 0 cp)
  = shown (vocab tk) (decode tk [VNum 0]) cp.
Proof.
  intros Hb. unfold id_or, shown, has_own.
  destruct (own_lookup (vocab tk) cp) as [v|] eqn:E.
  - pose proof (own_lookup_In _ _ _ E) as Hin.
    apply (bpe_numbers _ _ _ Hb) in Hin. destruct Hin as [i Hi].
    simpl in Hi. subst v.
    apply (decode_unit_known _ _ (str "?") cp i (bpe_inverse _ _ _ Hb) E).
    apply (bpe_key_nonempty _ _ _ _ _ Hb E).
  - rewrite bpe_decode_units. simpl. now rewrite app_nil_r.
Qed.

End BPERoundTripFacts.

(** X16: round trip of a built [SimpleBPETokenizer] whose most frequent
    pair has no regular-expression syntax character: decoding the ids
    of a text gives the text back with every character the vocabulary
    lacks replaced by what the id 0 decodes to (the token that carries
    the id 0, or "?"); a text made of characters of the vocabulary
    comes back unchanged. *)
Theorem X16_bpe_round_trip
  (numMerges : Z) (texts : list jsstring) (tk : SimpleBPETokenizer.t)
  (text : jsstring) :
  literal_choice (SimpleBPETokenizer.split_words texts) = true ->
  SimpleBPETokenizer.buildVocabulary (SimpleBPETokenizer.new numMerges) texts
  = Returns tk ->
  exists ids,
    SimpleBPETokenizer.encode tk text = Returns ids
    /\ SimpleBPETokenizer.decode tk ids
       = List.concat
           (map (shown (SimpleBPETokenizer.vocab tk)
                   (SimpleBPETokenizer.decode tk [VNum 0]))
              (code_points text))
    /\ (forallb (has_own (SimpleBPETokenizer.vocab tk)) (code_points text)
        = true ->
        SimpleBPETokenizer.decode tk ids = text).
Proof.
  intros Hc Hb. eexists. split; [apply (repeated_encode _ _ _ _ Hc Hb)|].
  assert (E : SimpleBPETokenizer.decode tk
                (map (id_or (SimpleBPETokenizer.vocab tk) 0) (code_points text))
              = List.concat
                  (map (shown (SimpleBPETokenizer.vocab tk)
                          (SimpleBPETokenizer.decode tk [VNum 0]))
                     (code_points text))).
  { rewrite bpe_decode_units, map_map. f_equal.
    apply map_ext. intros cp. apply (bpe_shown_unit _ _ _ cp Hb). }
  split; [exact E|].
  intros Hown. rewrite E.
  rewrite <- (concat_code_points text) at 2. f_equal.
  rewrite <- (map_id (code_points text)) at 2.
  apply map_ext_in. intros cp Hcp.
  rewrite forallb_forall in Hown. unfold shown. now rewrite (Hown cp Hcp).
Qed.

Lemma X16_bpe_round_trip_witness :
  exists ids,
    SimpleBPETokenizer.encode scenario_built (str "cab") = Returns ids
    /\ SimpleBPETokenizer.decode scenario_built ids = str "cab".
Proof.
  destruct (X16_bpe_round_trip 1 scenario_corpus scenario_built (str "cab")
              eq_refl eq_refl) as (ids & E & _ & H).
  exists ids. split; [exact E | apply H; reflexivity].
Defined.

(** X17: in a built [SimpleBPETokenizer] whose most frequent pair has no
    regular-expression syntax character, the token of the merge rule
    carries the id of the last iteration, #characters + numMerges - 1,
    while the vocabulary has at most #characters + 1 entries: from
    [numMerges = 2] on the ids of the vocabulary have a gap. *)
Theorem X17_bpe_merged_id_leaves_gap
  (numMerges : Z) (texts : list jsstring) (tk : SimpleBPETokenizer.t)
  (p token : jsstring) :
  literal_choice (SimpleBPETokenizer.split_words texts) = true ->
  SimpleBPETokenizer.buildVocabulary (SimpleBPETokenizer.new numMerges) texts
  = Returns tk ->
  own_lookup (SimpleBPETokenizer.merges tk) p = Some (VStr token) ->
  own_lookup (SimpleBPETokenizer.vocab tk) token
  = Some (VNum (Z.of_nat (List.length (first_seen [] (word_code_points texts)))
                + numMerges - 1))
  /\ keys_length (SimpleBPETokenizer.vocab tk)
     <= Z.of_nat (List.length (first_seen [] (word_code_points texts))) + 1
  /\ (2 <= numMerges -> ~ contiguous_ids (SimpleBPETokenizer.vocab tk)).
Proof.
  intros Hc Hb Hm.
  pose proof (split_words_solid texts) as Hw.
  rewrite (repeated_built numMerges texts Hc) in Hb. injection Hb as <-.
  cbv zeta in *. cbn [SimpleBPETokenizer.merges SimpleBPETokenizer.vocab] in *.
  apply own_lookup_In in Hm.
  destruct (one_rule_entries _ _ _ Hw Hc Hm)
    as (E & Hn & a & b & E1 & E2 & E3 & _).
  cbn [fst snd] in *. injection E3 as ->. rewrite E.
  unfold bpe_writes. rewrite set_all_app, bpe_collect_first_seen.
  destruct (Z.to_nat numMerges) as [|m] eqn:En; [lia|].
  assert (Hp : first_plus_second p <> proto_key)
    by (rewrite E2; apply short_not_proto; simpl; lia).
  assert (L : own_lookup
                (set_all
                   (token_writes (repeat p (S m))
                      (Z.of_nat
                         (List.length (first_seen [] (word_code_points texts)))))
                   (set_all
                      (id_writes (first_seen [] (word_code_points texts)) 0) []))
                [a; b]
              = Some (VNum (Z.of_nat
                              (List.length
                                 (first_seen [] (word_code_points texts)))
                            + numMerges - 1))).
  { rewrite <- E2. rewrite (token_repeat_lookup p m _ _ Hp).
    f_equal. f_equal. lia. }
  assert (B : keys_length
                (set_all
                   (token_writes (repeat p (S m))
                      (Z.of_nat
                         (List.length (first_seen [] (word_code_points texts)))))
                   (set_all
                      (id_writes (first_seen [] (word_code_points texts)) 0) []))
              <= Z.of_nat (List.length (first_seen [] (word_code_points texts)))
                 + 1).
  { unfold keys_length.
    pose proof (token_repeat_length p (S m)
                  (Z.of_nat
                     (List.length (first_seen [] (word_code_points texts))))
                  (set_all
                     (id_writes (first_seen [] (word_code_points texts)) 0) [])
                  Hp) as B.
    rewrite <- bpe_collect_first_seen in B at 3.
    rewrite bpe_char_writes_length, bpe_collect_first_seen in B. lia. }
  split; [exact L|]. split; [exact B|].
  intros H2 C.
  assert (Hex : exists k,
             own_lookup
               (set_all
                  (token_writes (repeat p (S m))
                     (Z.of_nat
                        (List.length (first_seen [] (word_code_points texts)))))
                  (set_all
                     (id_writes (first_seen [] (word_code_points texts)) 0) []))
               k
             = Some (VNum (Z.of_nat
                             (List.length
                                (first_seen [] (word_code_points texts)))
                           + numMerges - 1)))
    by (exists [a; b]; exact L).
  apply C in Hex. lia.
Qed.

Lemma X17_bpe_merged_id_leaves_gap_witness :
  ~ contiguous_ids
      [(str "a", VNum 0); (str "b", VNum 1); (str "ab", VNum 3)].
Proof.
  apply (proj2 (proj2
           (X17_bpe_merged_id_leaves_gap 2 [str "ab"]
              (SimpleBPETokenizer.mk 2
                 [(str "a", VNum 0); (str "b", VNum 1); (str "ab", VNum 3)]
                 [(str "a b", VStr (str "ab"))]
                 [(str "0", VStr (str "a")); (str "1", VStr (str "b"));
                  (str "3", VStr (str "ab"))])
              (str "a b") (str "ab") eq_refl eq_refl eq_refl))).
  lia.
Defined.


Section RepeatedBuildFacts.

Lemma update_keys k v o : map fst (obj_update k v o) = map fst o.
Proof.
  induction o as [|[k' v'] o IH]; simpl; [reflexivity|].
  destruct (str_eqb k' k); simpl; [reflexivity|]. now rewrite IH.
Qed.

Lemma set_keys_own k v o :
  own_lookup o k <> None -> map fst (obj_set k v o) = map fst o.
Proof.
  intros H. unfold obj_set, obj_define.
  destruct (str_eqb k proto_key); [reflexivity|].
  destruct (own_lookup o k); [apply update_keys|congruence].
Qed.

Lemma set_keeps_own k v o k' :
  own_lookup o k' <> None -> own_lookup (obj_set k v o) k' <> None.
Proof.
  intros H. rewrite own_lookup_set.
  destruct (str_eqb k k' && negb (str_eqb k proto_key)); [discriminate|exact H].
Qed.

Lemma set_all_keeps_own W o k :
  own_lookup o k <> None -> own_lookup (set_all W o) k <> None.
Proof.
  revert o. induction W as [|e W IH]; intros o H; [exact H|].
  apply (IH (obj_set (fst e) (snd e) o)), set_keeps_own, H.
Qed.

Lemma set_all_written W o e :
  In e W -> fst e <> proto_key -> own_lookup (set_all W o) (fst e) <> None.
Proof.
  revert o. induction W as [|a W IH]; intros o Hin Hp; [destruct Hin|].
  destruct Hin as [->|Hin].
  - apply (set_all_keeps_own W (obj_set (fst e) (snd e) o)).
    rewrite own_lookup_set, str_eqb_refl.
    apply str_eqb_neq in Hp. rewrite Hp. discriminate.
  - apply (IH (obj_set (fst a) (snd a) o) Hin Hp).
Qed.

Lemma set_all_keys_own W o :
  (forall e, In e W -> fst e = proto_key \/ own_lookup o (fst e) <> None) ->
  map fst (set_all W o) = map fst o.
Proof.
  revert o. induction W as [|a W IH]; intros o H; [reflexivity|].
  change (set_all (a :: W) o) with (set_all W (obj_set (fst a) (snd a) o)).
  rewrite IH.
  - destruct (H a) as [E|E]; [left; reflexivity| |apply set_keys_own, E].
    unfold obj_set. apply str_eqb_eq in E. now rewrite E.
  - intros e He. destruct (H e) as [E|E]; [right; exact He|left; exact E|].
    right. apply set_keeps_own, E.
Qed.

Lemma own_lookup_notin o k : ~ In k (map fst o) -> own_lookup o k = None.
Proof.
  induction o as [|[k' v] o IH]; simpl; [reflexivity|]. intros H.
  destruct (str_eqb k' k) eqn:E.
  - apply str_eqb_eq in E. tauto.
  - apply IH. tauto.
Qed.

(** Objects with the same keys in the same order and the same value
    under every key are the same object. *)
Lemma obj_ext o1 o2 :
  map fst o1 = map fst o2 -> NoDup (map fst o1) ->
  (forall k, own_lookup o1 k = own_lookup o2 k) -> o1 = o2.
Proof.
  revert o2. induction o1 as [|[k v1] o1 IH]; intros [|[k2 v2] o2] K N L;
    try discriminate K; [reflexivity|].
  simpl in K. injection K as <- K.
  inversion N as [|? ? Hk N']; subst.
  pose proof (L k) as Lk. simpl in Lk. rewrite str_eqb_refl in Lk.
  injection Lk as <-. f_equal.
  apply IH; [exact K | exact N' |].
  intros k'. specialize (L k'). simpl in L.
  destruct (str_eqb k k') eqn:E; [|exact L].
  apply str_eqb_eq in E. subst k'.
  rewrite !own_lookup_notin; [reflexivity | rewrite <- K; exact Hk | exact Hk].
Qed.

(** Running the same assignments a second time changes nothing. *)
Lemma set_all_twice W o :
  NoDup (map fst o) -> set_all W (set_all W o) = set_all W o.
Proof.
  intros N. apply obj_ext.
  - apply set_all_keys_own. intros e He.
    destruct (str_eqb (fst e) proto_key) eqn:E.
    + left. apply str_eqb_eq, E.
    + right. apply set_all_written; [exact He|apply str_eqb_neq, E].
  - apply set_all_NoDup, set_all_NoDup, N.
  - intros k.
    pose proof (overlays_set_all W _ _ _ (overlays_start (set_all W o)) k) as H1.
    pose proof (overlays_set_all W _ _ _ (overlays_start o) k) as H2.
    rewrite H1, H2. destruct (own_lookup (set_all W []) k); reflexivity.
Qed.

Lemma character_state_keys this :
  character_state this -> NoDup (map fst (CharacterTokenizer.vocab this)).
Proof.
  induction 1 as [|this texts _ IH]; [constructor|].
  unfold CharacterTokenizer.buildVocabulary. cbn [CharacterTokenizer.vocab].
  rewrite assign_ids_spec, add_special_tokens_writes. cbn [fst].
  apply set_all_NoDup, set_all_NoDup, IH.
Qed.

Lemma word_state_keys toLowerCase this :
  word_state toLowerCase this -> NoDup (map fst (WordTokenizer.vocab this)).
Proof.
  induction 1 as [|this texts _ IH]; [constructor|].
  unfold WordTokenizer.buildVocabulary. cbn [WordTokenizer.vocab].
  rewrite assign_ids_spec, add_special_tokens_writes. cbn [fst].
  apply set_all_NoDup, set_all_NoDup, IH.
Qed.

Lemma bpe_state_keys this :
  bpe_state this ->
  NoDup (map fst (SimpleBPETokenizer.vocab this))
  /\ NoDup (map fst (SimpleBPETokenizer.merges this)).
Proof.
  induction 1 as [|this texts tk _ [IHv IHm] Hb]; [split; constructor|].
  apply built_inv in Hb. destruct Hb as (ps & _ & ->).
  cbn [SimpleBPETokenizer.vocab SimpleBPETokenizer.merges].
  split; apply set_all_NoDup; assumption.
Qed.

End RepeatedBuildFacts.

(** X18: calling [buildVocabulary] of a [CharacterTokenizer] a second
    time with the same corpus changes nothing, in whatever state the
    tokenizer was before the first of the two calls. *)


(** X18: calling [buildVocabulary] of a [CharacterTokenizer] a second
    time with the same corpus changes nothing, in whatever state the
    tokenizer was before the first of the two calls. *)
Theorem X18_character_build_twice
  (this : CharacterTokenizer.t) (texts : list jsstring) :
  character_state this ->
  CharacterTokenizer.buildVocabulary
    (CharacterTokenizer.buildVocabulary this texts) texts
  = CharacterTokenizer.buildVocabulary this texts.
Proof.
  intros S. pose proof (character_state_keys this S) as N.
  unfold CharacterTokenizer.buildVocabulary. cbn [CharacterTokenizer.vocab].
  rewrite !assign_ids_spec. cbn [fst].
  change add_special_tokens with (set_all special_writes).
  set (W := id_writes (CharacterTokenizer.collect_chars texts) 4).
  rewrite <- (set_all_app special_writes W (CharacterTokenizer.vocab this)).
  rewrite <- (set_all_app special_writes W).
  rewrite (set_all_twice _ _ N). reflexivity.
Qed.

Lemma X18_character_build_twice_witness :
  CharacterTokenizer.buildVocabulary
    (CharacterTokenizer.buildVocabulary
       (CharacterTokenizer.buildVocabulary CharacterTokenizer.new [str "xy"])
       [str "abba"])
    [str "abba"]
  = CharacterTokenizer.buildVocabulary
      (CharacterTokenizer.buildVocabulary CharacterTokenizer.new [str "xy"])
      [str "abba"].
Proof.
  apply (X18_character_build_twice
           (CharacterTokenizer.buildVocabulary CharacterTokenizer.new [str "xy"])
           [str "abba"]).
  apply character_built, character_new.
Defined.

(** X19: calling [buildVocabulary] of a [WordTokenizer] a second time
    with the same corpus changes nothing, in whatever state the
    tokenizer was before the first of the two calls. *)
Theorem X19_word_build_twice
  (toLowerCase : jsstring -> jsstring)
  (this : WordTokenizer.t) (texts : list jsstring) :
  word_state toLowerCase this ->
  WordTokenizer.buildVocabulary toLowerCase
    (WordTokenizer.buildVocabulary toLowerCase this texts) texts
  = WordTokenizer.buildVocabulary toLowerCase this texts.
Proof.
  intros S. pose proof (word_state_keys toLowerCase this S) as N.
  unfold WordTokenizer.buildVocabulary.
  cbn [WordTokenizer.vocab WordTokenizer.maxVocabSize].
  rewrite !assign_ids_spec. cbn [fst].
  change add_special_tokens with (set_all special_writes).
  set (W := id_writes _ 4).
  rewrite <- (set_all_app special_writes W (WordTokenizer.vocab this)).
  rewrite <- (set_all_app special_writes W).
  rewrite (set_all_twice _ _ N). reflexivity.
Qed.

Lemma X19_word_build_twice_witness :
  WordTokenizer.buildVocabulary ascii_lower
    (WordTokenizer.buildVocabulary ascii_lower (WordTokenizer.new 100)
       [str "Hey hey you"])
    [str "Hey hey you"]
  = WordTokenizer.buildVocabulary ascii_lower (WordTokenizer.new 100)
      [str "Hey hey you"].
Proof.
  apply (X19_word_build_twice ascii_lower (WordTokenizer.new 100)
           [str "Hey hey you"]).
  apply word_new.
Defined.

(** X20: when [buildVocabulary] of a [SimpleBPETokenizer] returns, a
    second call with the same corpus returns too and changes nothing:
    vocabulary, merge table and id-to-token mapping stay as they
    are. *)
Theorem X20_bpe_build_twice
  (this tk : SimpleBPETokenizer.t) (texts : list jsstring) :
  bpe_state this ->
  SimpleBPETokenizer.buildVocabulary this texts = Returns tk ->
  SimpleBPETokenizer.buildVocabulary tk texts = Returns tk.
Proof.
  intros S Hb. destruct (bpe_state_keys this S) as [Nv Nm].
  destruct (built_inv _ _ _ Hb) as (ps & L & ->).
  rewrite buildVocabulary_writes.
  cbn [SimpleBPETokenizer.numMerges SimpleBPETokenizer.vocab
       SimpleBPETokenizer.merges].
  rewrite L. simpl bind. cbv zeta.
  fold (bpe_writes texts ps).
  rewrite (set_all_twice _ _ Nv), (set_all_twice _ _ Nm). reflexivity.
Qed.

Lemma X20_bpe_build_twice_witness :
  SimpleBPETokenizer.buildVocabulary scenario_built scenario_corpus
  = Returns scenario_built.
Proof.
  apply (X20_bpe_build_twice (SimpleBPETokenizer.new 1) scenario_built
           scenario_corpus).
  - apply bpe_new.
  - reflexivity.
Defined.


Section SplittingFacts.

Lemma word_char_not_space c : is_word_char c = true -> is_white_space c = false.
Proof.
  intros H.
  assert (R : (48 <= c <= 122)%N).
  { unfold is_word_char, in_range in H.
    rewrite !orb_true_iff, !andb_true_iff, !N.leb_le, N.eqb_eq in H. lia. }
  unfold is_white_space, in_range. cbn [existsb].
  repeat match goal with
         | |- context [N.eqb c ?n] =>
             replace (N.eqb c n) with false by (symmetry; apply N.eqb_neq; lia)
         end.
  replace (N.leb 8192 c) with false by (symmetry; apply N.leb_gt; lia).
  reflexivity.
Qed.

Lemma concat_flush_word cur : List.concat (flush_word cur) = rev cur.
Proof.
  destruct cur as [|c cur]; [reflexivity|].
  unfold flush_word. cbn [List.concat]. apply app_nil_r.
Qed.

Lemma match_words_concat s cur :
  List.concat (match_words s cur) = rev cur ++ without_white_space s.
Proof.
  revert cur. induction s as [|c s IH]; intros cur.
  - simpl. rewrite concat_flush_word, app_nil_r. reflexivity.
  - cbn [match_words without_white_space filter].
    destruct (is_word_char c) eqn:W.
    + rewrite (word_char_not_space c W). cbn [negb].
      fold (without_white_space s).
      rewrite IH. cbn [rev]. rewrite <- app_assoc. reflexivity.
    + rewrite !concat_app, concat_flush_word, IH.
      fold (without_white_space s).
      destruct (is_white_space c); reflexivity.
Qed.

Lemma split_white_space_concat s cur in_run :
  (in_run = true -> cur = []) ->
  List.concat
    (filter (fun w => Nat.ltb 0 (List.length w)) (split_white_space s cur in_run))
  = rev cur ++ without_white_space s.
Proof.
  assert (F : forall (w : jsstring) l,
             List.concat
               (filter (fun w => Nat.ltb 0 (List.length w)) (w :: l))
             = w ++ List.concat (filter (fun w => Nat.ltb 0 (List.length w)) l)).
  { intros [|x w] l; reflexivity. }
  revert cur in_run. induction s as [|c s IH]; intros cur in_run Hrun.
  - cbn [split_white_space]. rewrite F. reflexivity.
  - cbn [split_white_space without_white_space filter].
    fold (without_white_space s).
    destruct (is_white_space c); cbn [negb].
    + destruct in_run.
      * rewrite (Hrun eq_refl). apply IH. reflexivity.
      * rewrite F, IH by reflexivity. reflexivity.
    + rewrite IH by discriminate. cbn [rev]. rewrite <- app_assoc. reflexivity.
Qed.

Lemma without_white_space_app a b :
  without_white_space (a ++ b) = without_white_space a ++ without_white_space b.
Proof. apply filter_app. Qed.

Lemma set_all_proto W o :
  own_lookup (set_all W o) proto_key = own_lookup o proto_key.
Proof.
  revert o. induction W as [|e W IH]; intros o; [reflexivity|].
  change (set_all (e :: W) o) with (set_all W (obj_set (fst e) (snd e) o)).
  rewrite IH, own_lookup_set.
  destruct (str_eqb (fst e) proto_key) eqn:E; [|reflexivity].
  cbn [negb]. now rewrite andb_false_r.
Qed.

Lemma word_state_proto toLowerCase this :
  word_state toLowerCase this ->
  own_lookup (WordTokenizer.vocab this) proto_key = None.
Proof.
  induction 1 as [|this texts _ IH]; [reflexivity|].
  unfold WordTokenizer.buildVocabulary. cbn [WordTokenizer.vocab].
  rewrite assign_ids_spec. cbn [fst].
  change add_special_tokens with (set_all special_writes).
  rewrite !set_all_proto. exact IH.
Qed.

End SplittingFacts.

(** X21: the word "__proto__" can never become a token of a
    [WordTokenizer]: whatever corpora the vocabulary was built on (also
    ones that contain the word), the vocabulary has no entry for it,
    and [encode] returns for it the object [Object.prototype] that the
    lookup inherits, not an id. *)
Theorem X21_word_proto_is_never_a_token
  (toLowerCase : jsstring -> jsstring)
  (this : WordTokenizer.t) (text : jsstring) :
  word_state toLowerCase this ->
  own_lookup (WordTokenizer.vocab this) proto_key = None
  /\ (toLowerCase text = proto_key ->
      WordTokenizer.encode toLowerCase this text = [VProto]).
Proof.
  intros S. pose proof (word_state_proto toLowerCase this S) as P.
  split; [exact P|].
  intros E. unfold WordTokenizer.encode, WordTokenizer.words_of. rewrite E.
  change (match_words proto_key []) with [proto_key].
  cbn [map]. unfold obj_get at 1. rewrite P. reflexivity.
Qed.

Lemma X21_word_proto_is_never_a_token_witness :
  own_lookup
    (WordTokenizer.vocab
       (WordTokenizer.buildVocabulary ascii_lower (WordTokenizer.new 100)
          [str "__proto__ __proto__ a"]))
    proto_key = None
  /\ WordTokenizer.encode ascii_lower
       (WordTokenizer.buildVocabulary ascii_lower (WordTokenizer.new 100)
          [str "__proto__ __proto__ a"])
       (str "__PROTO__")
     = [VProto].
Proof.
  destruct (X21_word_proto_is_never_a_token ascii_lower
              (WordTokenizer.buildVocabulary ascii_lower (WordTokenizer.new 100)
                 [str "__proto__ __proto__ a"])
              (str "__PROTO__")
              (word_built ascii_lower _ _ (word_new ascii_lower 100)))
    as [H1 H2].
  split; [exact H1 | apply H2; reflexivity].
Defined.

(** X22: before [buildVocabulary] has been called, [encode] of a
    [CharacterTokenizer] returns [undefined] for every character of the
    text (the UNK entry it falls back to does not exist yet), and
    [encode] of a [SimpleBPETokenizer] returns 0 for every character. *)
Theorem X22_encode_before_build (numMerges : Z) (text : jsstring) :
  CharacterTokenizer.encode CharacterTokenizer.new text
  = map (fun _ => VUndef) (code_points text)
  /\ SimpleBPETokenizer.encode (SimpleBPETokenizer.new numMerges) text
     = Returns (map (fun _ => VNum 0) (code_points text)).
Proof.
  assert (U : forall cp, In cp (code_points text) -> obj_get [] cp = VUndef).
  { intros cp Hcp. unfold obj_get. cbn [own_lookup].
    pose proof (short_not_inherited cp) as H.
    unfold is_inherited_name in H.
    apply code_point_length in Hcp.
    destruct (str_eqb cp proto_key); [specialize (H ltac:(lia)); discriminate|].
    destruct (is_builtin_name cp); [specialize (H ltac:(lia)); discriminate|].
    reflexivity. }
  split.
  - unfold CharacterTokenizer.encode. cbn [CharacterTokenizer.vocab
      CharacterTokenizer.new].
    apply map_ext_in. intros cp Hcp. rewrite (U cp Hcp). reflexivity.
  - unfold SimpleBPETokenizer.encode. cbn [SimpleBPETokenizer.vocab
      SimpleBPETokenizer.merges SimpleBPETokenizer.new
      SimpleBPETokenizer.apply_merges bind].
    f_equal. apply map_ext_in. intros cp Hcp. rewrite (U cp Hcp). reflexivity.
Qed.

(** X23: the words [SimpleBPETokenizer.buildVocabulary] starts from,
    [text.split(/\s+/).filter(w => w.length > 0)] over the corpus, are
    the corpus with its white space taken out: put together they are
    the code units of the texts that are not white space, in order, and
    no word is empty or contains white space. *)
Theorem X23_bpe_words_drop_white_space_only (texts : list jsstring) :
  List.concat (SimpleBPETokenizer.split_words texts)
  = without_white_space (List.concat texts)
  /\ Forall (fun w => w <> [] /\ Forall solid w)
       (SimpleBPETokenizer.split_words texts).
Proof.
  split.
  - induction texts as [|text texts IH]; [reflexivity|].
    cbn [List.concat]. rewrite without_white_space_app, <- IH.
    unfold SimpleBPETokenizer.split_words. cbn [flat_map].
    rewrite concat_app. f_equal.
    apply (split_white_space_concat text [] false). discriminate.
  - apply Forall_forall. intros w Hw. split.
    + apply (split_words_nonempty texts w Hw).
    + pose proof (split_words_solid texts) as Hs. unfold solid_words in Hs.
      rewrite Forall_forall in Hs. apply Hs, Hw.
Qed.

(** X24: the word units of [WordTokenizer],
    [text.toLowerCase().match(/\w+|[^\w\s]/g) || []], lose nothing but
    white space: put together they are the code units of the
    lower-cased text that are not white space, in order, and no unit is
    empty. *)
Theorem X24_word_units_drop_white_space_only
  (toLowerCase : jsstring -> jsstring) (text : jsstring) :
  List.concat (WordTokenizer.words_of toLowerCase text)
  = without_white_space (toLowerCase text)
  /\ Forall (fun w => w <> [] /\ word_shape w)
       (WordTokenizer.words_of toLowerCase text).
Proof.
  split.
  - unfold WordTokenizer.words_of. apply (match_words_concat _ []).
  - apply Forall_forall. intros w Hw. split.
    + apply (match_words_nonempty _ _ _ Hw).
    + apply (words_of_shape toLowerCase text w Hw).
Qed.


Section MoreIterationsFacts.
Import SimpleBPETokenizer.

(** The first iterations of the learning loop do not depend on how many
    follow. *)
Lemma learned_pairs_prefix n words ps' :
  learned_pairs (S n) words = Returns ps' ->
  exists ps q,
    learned_pairs n words = Returns ps /\ ps' = ps ++ q
    /\ (List.length q <= 1)%nat.
Proof.
  revert words ps'. induction n as [|n IH]; intros words ps' L.
  - exists [], ps'. repeat split.
    apply (learned_pairs_length _ _ _ L).
  - remember (S n) as m eqn:Em.
    cbn [learned_pairs] in L. rewrite Em. cbn [learned_pairs].
    destruct (js_sort by_count (getPairFrequencies words)) as [|[p v] rest].
    + injection L as <-. exists [], []. repeat split. simpl. lia.
    + destruct (map_outcome
                  (fun word =>
                     regexp_replace_all (first_plus_second p)
                       (first_plus_second p) word) words)
        as [words'| |]; try discriminate L.
      cbn [bind] in L |- *. subst m.
      destruct (learned_pairs (S n) words') as [ps0'| |] eqn:L';
        try discriminate L.
      cbn [bind] in L. injection L as <-.
      destruct (IH words' ps0' L') as (ps0 & q & -> & -> & Hq).
      exists (p :: ps0), q. repeat split. exact Hq.
Qed.

Lemma combine_append {A B} (l1 l2 : list A) (r1 r2 : list B) :
  List.length l1 = List.length r1 ->
  combine (l1 ++ l2) (r1 ++ r2) = combine l1 r1 ++ combine l2 r2.
Proof.
  revert r1. induction l1 as [|x l1 IH]; intros [|y r1] H;
    try discriminate H; [reflexivity|].
  simpl. f_equal. apply IH. simpl in H. lia.
Qed.

Lemma token_writes_app ps q index :
  token_writes (ps ++ q) index
  = token_writes ps index
    ++ token_writes q (index + Z.of_nat (List.length ps)).
Proof.
  unfold token_writes.
  rewrite map_app, length_app, ids_from_app.
  apply combine_append. now rewrite length_map, ids_from_length.
Qed.

Lemma merge_writes_app ps q :
  merge_writes (ps ++ q) = merge_writes ps ++ merge_writes q.
Proof. apply map_app. Qed.

Lemma set_length_ge k v o :
  (List.length o <= List.length (obj_set k v o))%nat.
Proof.
  unfold obj_set. destruct (str_eqb k proto_key); [lia|].
  unfold obj_define. destruct (own_lookup o k) eqn:E.
  - rewrite update_length. lia.
  - pose proof (define_length_fresh k v o E) as H.
    unfold obj_define in H. rewrite E in H. lia.
Qed.

Lemma set_all_length_ge W o :
  (List.length o <= List.length (set_all W o))%nat.
Proof.
  revert o. induction W as [|e W IH]; intros o; [simpl; lia|].
  change (set_all (e :: W) o) with (set_all W (obj_set (fst e) (snd e) o)).
  pose proof (IH (obj_set (fst e) (snd e) o)).
  pose proof (set_length_ge (fst e) (snd e) o). lia.
Qed.

Lemma merge_writes_lookup ps q p m :
  own_lookup (set_all (merge_writes ps) []) p = Some m ->
  own_lookup (set_all (merge_writes q) (set_all (merge_writes ps) [])) p
  = Some m.
Proof.
  intros H.
  pose proof (overlays_set_all (merge_writes q) _ _ _
                (overlays_start (set_all (merge_writes ps) [])) p) as O.
  rewrite O.
  destruct (own_lookup (set_all (merge_writes q) []) p) as [m'|] eqn:E;
    [|exact H].
  apply set_all_lookup_in in E. destruct E as [E|E]; [|discriminate E].
  apply set_all_lookup_in in H. destruct H as [H|H]; [|discriminate H].
  apply in_map_iff in E. destruct E as (x & Ex & _).
  apply in_map_iff in H. destruct H as (y & Ey & _).
  injection Ex as <- <-. injection Ey as <- <-. reflexivity.
Qed.

End MoreIterationsFacts.

(** X25: one more iteration of the learning loop only adds: when
    [buildVocabulary] returns with [numMerges = n + 1], it returns with
    [numMerges = n] as well, every merge rule of the build with [n] is a
    rule of the build with [n + 1], and the merge table and the
    vocabulary of the build with [n + 1] have at most one entry
    more. *)
Theorem X25_bpe_one_more_iteration
  (n : Z) (texts : list jsstring) (tk' : SimpleBPETokenizer.t) :
  0 <= n ->
  SimpleBPETokenizer.buildVocabulary (SimpleBPETokenizer.new (n + 1)) texts
  = Returns tk' ->
  exists tk,
    SimpleBPETokenizer.buildVocabulary (SimpleBPETokenizer.new n) texts
    = Returns tk
    /\ (forall p m,
          own_lookup (SimpleBPETokenizer.merges tk) p = Some m ->
          own_lookup (SimpleBPETokenizer.merges tk') p = Some m)
    /\ keys_length (SimpleBPETokenizer.merges tk)
       <= keys_length (SimpleBPETokenizer.merges tk')
       <= keys_length (SimpleBPETokenizer.merges tk) + 1
    /\ keys_length (SimpleBPETokenizer.vocab tk)
       <= keys_length (SimpleBPETokenizer.vocab tk')
       <= keys_length (SimpleBPETokenizer.vocab tk) + 1.
Proof.
  intros Hn Hb.
  destruct (built_fresh _ _ _ Hb) as (ps' & L' & Ev & Em & _).
  replace (Z.to_nat (n + 1)) with (S (Z.to_nat n)) in L' by lia.
  destruct (learned_pairs_prefix _ _ _ L') as (ps & q & L & -> & Hq).
  eexists. split.
  { rewrite buildVocabulary_writes.
    cbn [SimpleBPETokenizer.numMerges SimpleBPETokenizer.new
         SimpleBPETokenizer.vocab SimpleBPETokenizer.merges].
    rewrite L. simpl bind. cbv zeta. reflexivity. }
  cbn [SimpleBPETokenizer.merges SimpleBPETokenizer.vocab].
  rewrite Ev, Em. unfold bpe_writes.
  rewrite token_writes_app, merge_writes_app, app_assoc, !set_all_app.
  split; [|split].
  - intros p m H. rewrite <- set_all_app. rewrite set_all_app.
    apply merge_writes_lookup, H.
  - unfold keys_length.
    pose proof (set_all_length_ge (merge_writes q)
                  (set_all (merge_writes ps) [])).
    pose proof (set_all_length_bound (merge_writes q)
                  (set_all (merge_writes ps) [])) as B.
    assert (E : List.length (merge_writes q) = List.length q)
      by apply length_map.
    rewrite E in B. lia.
  - unfold keys_length.
    match goal with
    | |- context [set_all (token_writes q ?i) ?o] =>
        pose proof (set_all_length_ge (token_writes q i) o);
        pose proof (set_all_length_bound (token_writes q i) o) as B;
        assert (E : List.length (token_writes q i) = List.length q)
    end.
    { unfold token_writes.
      rewrite length_combine, length_map, ids_from_length. lia. }
    rewrite E in B. lia.
Qed.

Lemma X25_bpe_one_more_iteration_witness :
  exists tk,
    SimpleBPETokenizer.buildVocabulary (SimpleBPETokenizer.new 0)
      scenario_corpus
    = Returns tk
    /\ (forall p m,
          own_lookup (SimpleBPETokenizer.merges tk) p = Some m ->
          own_lookup (SimpleBPETokenizer.merges scenario_built) p = Some m)
    /\ keys_length (SimpleBPETokenizer.merges tk)
       <= keys_length (SimpleBPETokenizer.merges scenario_built)
       <= keys_length (SimpleBPETokenizer.merges tk) + 1
    /\ keys_length (SimpleBPETokenizer.vocab tk)
       <= keys_length (SimpleBPETokenizer.vocab scenario_built)
       <= keys_length (SimpleBPETokenizer.vocab tk) + 1.
Proof.
  apply (X25_bpe_one_more_iteration 0 scenario_corpus scenario_built);
    [lia | reflexivity].
Defined.


Section ThrowingFacts.
Import SimpleBPETokenizer.

Lemma learned_pairs_throws m words p :
  most_frequent_pair words = Some p ->
  compile (first_plus_second p) = ThrowsSyntaxError ->
  learned_pairs (S m) words = ThrowsSyntaxError.
Proof.
  intros E C. unfold most_frequent_pair in E. cbn [learned_pairs].
  destruct (js_sort by_count (getPairFrequencies words)) as [|[q v] rest] eqn:S;
    [discriminate E|]. injection E as ->.
  assert (Hin : In p (map fst (getPairFrequencies words))).
  { apply (Permutation_in (l := map fst (js_sort by_count (getPairFrequencies words)))).
    - apply Permutation_map, js_sort_perm.
    - rewrite S. simpl. auto. }
  apply pair_frequencies_from_words in Hin. destruct Hin as (w & Hin & _).
  destruct words as [|w0 words]; [destruct Hin|].
  cbn [map_outcome]. unfold regexp_replace_all at 1. rewrite C. reflexivity.
Qed.

End ThrowingFacts.

(** X26: when [numMerges >= 1] and the most frequent pair of the corpus,
    pasted together, is not a regular expression,
    [buildVocabulary] of a [SimpleBPETokenizer] throws the
    [SyntaxError] of [new RegExp]: the pair reaches the pattern
    unescaped. *)
Theorem X26_bpe_build_throws_on_syntax_pair
  (numMerges : Z) (texts : list jsstring) (p : jsstring) :
  1 <= numMerges ->
  most_frequent_pair (SimpleBPETokenizer.split_words texts) = Some p ->
  compile (first_plus_second p) = ThrowsSyntaxError ->
  SimpleBPETokenizer.buildVocabulary (SimpleBPETokenizer.new numMerges) texts
  = ThrowsSyntaxError.
Proof.
  intros Hn E C. rewrite buildVocabulary_writes.
  cbn [SimpleBPETokenizer.numMerges SimpleBPETokenizer.new].
  destruct (Z.to_nat numMerges) as [|m] eqn:En; [lia|].
  rewrite (learned_pairs_throws m _ p E C). reflexivity.
Qed.

Lemma X26_bpe_build_throws_on_syntax_pair_witness :
  SimpleBPETokenizer.buildVocabulary (SimpleBPETokenizer.new 3)
    [str "a+b"; str "+b +b"]
  = ThrowsSyntaxError.
Proof.
  apply (X26_bpe_build_throws_on_syntax_pair 3 [str "a+b"; str "+b +b"]
           (str "+ b")); [lia | reflexivity | reflexivity].
Defined.


Section FailedBuildFacts.
Import SimpleBPETokenizer.




End FailedBuildFacts.


